(** * redux-orm: the table engine (src/db/Table.js) and the schema registry
      (src/Schema.js), embedded in Rocq.

    The table engine works on a JavaScript object graph that it updates
    either destructively or by copy-on-write, through the third-party
    package immutable-ops.  The embedding therefore keeps an explicit store
    of objects addressed by location, with the owner tag immutable-ops puts
    on the objects it creates; every table operation is a computation in a
    state-and-failure monad over that store. *)

From stdpp Require Import gmap strings list fin_maps pretty.

Open Scope string_scope.
Open Scope list_scope.

(** ** JavaScript values and the object store *)

Module JS.

(** Numbers are the integers a double holds, plus [NaN]; identities and the
    max-identity counter are the only numbers the engine computes with. *)
Inductive val :=
  | VUndef
  | VNull
  | VBool (b : bool)
  | VNum (z : Z)
  | VNaN
  | VStr (s : string)
  | VRef (l : nat).

#[global] Instance val_eq_dec : EqDecision val.
Proof. solve_decision. Defined.

(** [!!v] of JavaScript. *)
Definition truthy (v : val) : bool :=
  match v with
  | VUndef | VNull | VNaN => false
  | VBool b => b
  | VNum z => negb (z =? 0)%Z
  | VStr s => negb (String.eqb s "")
  | VRef _ => true
  end.

(** [a === b]: [NaN] differs from itself, references compare by location. *)
Definition strict_eq (a b : val) : bool :=
  match a with
  | VNaN => false
  | _ => bool_decide (a = b)
  end.

(** The integer a double holds nearest to [z], ties going to the even
    significand; integers of magnitude up to 2^53 are held exactly.  It is
    applied to a double plus one, which never passes the largest double. *)
Definition to_double (z : Z) : Z :=
  let a := Z.abs z in
  if (a <? 2 ^ 53)%Z then z
  else
    let q := (2 ^ (Z.log2 a - 52))%Z in
    let m := (a / q)%Z in
    let r := (a mod q)%Z in
    let m' := if (2 * r <? q)%Z then m
              else if (q <? 2 * r)%Z then (m + 1)%Z
              else if Z.even m then m else (m + 1)%Z in
    (Z.sgn z * (m' * q))%Z.

(** An integer of magnitude below 2^53. *)
Definition safe_integer (z : Z) : bool := (Z.abs z <? 2 ^ 53)%Z.

(** [a] without its trailing zeros. *)
Fixpoint strip_zeros (fuel : nat) (a : Z) : Z :=
  match fuel with
  | O => a
  | S fuel' =>
      if ((a mod 10 =? 0) && negb (a =? 0))%Z
      then strip_zeros fuel' (a / 10)%Z else a
  end.

(** The decimal of [n] digits with the fewest significant digits, [k] at
    least, that the double [a] is the nearest double to. *)
Fixpoint shortest (fuel : nat) (k n a : Z) : Z :=
  match fuel with
  | O => a
  | S fuel' =>
      let p := (10 ^ (n - k))%Z in
      let s := (a / p)%Z in
      let r := (a mod p)%Z in
      let s' := if (2 * r <? p)%Z then s
                else if (p <? 2 * r)%Z then (s + 1)%Z
                else if Z.even s then s else (s + 1)%Z in
      if (to_double (s' * p) =? a)%Z then (s' * p)%Z
      else shortest fuel' (k + 1)%Z n a
  end.

(** [String(z)] for a number: every digit of a safe integer; above, the
    shortest decimal that reads back as the same double, written with its
    zeros below 10^21 and with an exponent from there. *)
Definition number_to_string (z : Z) : string :=
  let a := Z.abs z in
  if safe_integer z then pretty z
  else
    let n := Z.of_nat (String.length (pretty a)) in
    let c := shortest 17 1 n a in
    let nc := Z.of_nat (String.length (pretty c)) in
    let body :=
      if (nc <=? 21)%Z then pretty c
      else
        match pretty (strip_zeros (Z.to_nat nc) c) with
        | String d EmptyString =>
            String d EmptyString +:+ "e+" +:+ pretty (nc - 1)%Z
        | String d rest =>
            String d ("." +:+ rest) +:+ "e+" +:+ pretty (nc - 1)%Z
        | EmptyString => ""
        end in
    if (z <? 0)%Z then "-" +:+ body else body.

(** Property keys are strings: [obj[v]] converts [v] first.  A reference is
    taken to be a plain object (arrays used as keys are not modelled). *)
Definition to_key (v : val) : string :=
  match v with
  | VUndef => "undefined"
  | VNull => "null"
  | VBool true => "true"
  | VBool false => "false"
  | VNum z => number_to_string z
  | VNaN => "NaN"
  | VStr s => s
  | VRef _ => "[object Object]"
  end.

(** The property names of [Object.prototype], which every plain object
    inherits. *)
Definition object_prototype_keys : list string :=
  ["constructor"; "__defineGetter__"; "__defineSetter__"; "hasOwnProperty";
   "__lookupGetter__"; "__lookupSetter__"; "isPrototypeOf";
   "propertyIsEnumerable"; "toString"; "valueOf"; "__proto__";
   "toLocaleString"].

Definition inherited (k : string) : bool :=
  bool_decide (k ∈ object_prototype_keys).

(** A batch token of immutable-ops ([ops.getBatchToken()]). *)
Definition token := nat.

Inductive body :=
  | BObj (props : gmap string val)
  | BArr (elems : list val).

(** A stored object: its owner tag (the non-enumerable property that
    immutable-ops' [prepareNewObject] sets) and its contents. *)
Record cell := Cell { owner : option token; content : body }.

Abbreviation heap := (gmap nat cell).

(** Computations over the store; [None] is a thrown [TypeError]. *)
Definition M (A : Type) : Type := heap → option (A * heap).

Definition ret {A} (a : A) : M A := λ h, Some (a, h).
Definition bind {A B} (m : M A) (f : A → M B) : M B :=
  λ h, match m h with
       | Some (a, h') => f a h'
       | None => None
       end.
Definition throw {A} : M A := λ _, None.

End JS.

Import JS.

Declare Scope js_scope.
Delimit Scope js_scope with js.
Notation "'let*' x ':=' c 'in' k" := (bind c (λ x, k))
  (at level 10, x pattern, c at level 100, k at level 200) : js_scope.
Notation "c ';;;' k" := (bind c (λ _, k))
  (at level 100, k at level 200, right associativity) : js_scope.
Open Scope js_scope.

Module Store.

Definition read_cell (v : val) : M cell :=
  λ h, match v with
       | VRef l => c ← h !! l; Some (c, h)
       | _ => None
       end.

(** The model is typed: a property read on anything but a plain object and
    an array operation on anything but an array fail. *)
Definition read_obj (v : val) : M (gmap string val) :=
  let* c := read_cell v in
  match content c with
  | BObj m => ret m
  | BArr _ => throw
  end.

Definition read_arr (v : val) : M (list val) :=
  let* c := read_cell v in
  match content c with
  | BArr l => ret l
  | BObj _ => throw
  end.

(** [obj[key]] for a key that [Object.prototype] does not define: the own
    property, or [undefined].  A key that is [inherited] reads as an own
    property only; the statements that depend on it keep such keys out. *)
Definition get_prop (obj : val) (key : string) : M val :=
  let* m := read_obj obj in
  ret (default VUndef (m !! key)).

(** [obj.hasOwnProperty(key)] *)
Definition has_own (obj : val) (key : string) : M bool :=
  let* m := read_obj obj in
  ret (bool_decide (is_Some (m !! key))).

(** Overwrites the contents of an existing object, keeping its owner tag. *)
Definition write_body (v : val) (b : body) : M unit :=
  let* c := read_cell v in
  λ h, match v with
       | VRef l => Some (tt, <[l := Cell (owner c) b]> h)
       | _ => None
       end.

(** A new object, at a location not in use. *)
Definition alloc (c : cell) : M val :=
  λ h, let l := fresh (dom h) in Some (VRef l, <[l := c]> h).

Fixpoint foldM {A B} (f : A → B → M A) (a : A) (l : list B) : M A :=
  match l with
  | [] => ret a
  | b :: l' => let* a' := f a b in foldM f a' l'
  end.

Fixpoint mapM {A B} (f : A → M B) (l : list A) : M (list B) :=
  match l with
  | [] => ret []
  | a :: l' => let* b := f a in let* bs := mapM f l' in ret (b :: bs)
  end.

End Store.

Import Store.

(** ** immutable-ops

    The package is not part of the repository; these definitions follow its
    behaviour.  [ops.mutable.f] updates its last argument in place.
    [ops.batch.f token] updates in place an object tagged with [token] and
    otherwise works on a copy tagged with [token], returning the argument
    itself when nothing would change. *)

Module Ops.

(** [canMutate(obj, ownerID)] *)
Definition canMutate (obj : val) (ownerID : option token) : M bool :=
  match ownerID with
  | None => ret false
  | Some t => let* c := read_cell obj in ret (bool_decide (owner c = Some t))
  end.

Definition mutable_push (x : val) (arr : val) : M val :=
  let* l := read_arr arr in
  write_body arr (BArr (l ++ [x]));;;
  ret arr.

Definition batch_push (ownerID : option token) (x : val) (arr : val) : M val :=
  let* own := canMutate arr ownerID in
  if own then mutable_push x arr
  else
    let* l := read_arr arr in
    alloc (Cell ownerID (BArr (l ++ [x]))).

Definition mutable_filter (f : val → bool) (arr : val) : M val :=
  let* l := read_arr arr in
  write_body arr (BArr (List.filter f l));;;
  ret arr.

Definition batch_filter (ownerID : option token) (f : val → bool) (arr : val)
  : M val :=
  let* own := canMutate arr ownerID in
  if own then mutable_filter f arr
  else
    let* l := read_arr arr in
    let newArr := List.filter f l in
    if (length newArr =? length l)%nat then ret arr
    else alloc (Cell ownerID (BArr newArr)).

(** [arr.indexOf(x)] *)
Fixpoint indexOf (x : val) (l : list val) : option nat :=
  match l with
  | [] => None
  | y :: l' => if strict_eq y x then Some 0%nat else S <$> indexOf x l'
  end.

(** [ops.mutable.splice(idx, 1, [], arr)] *)
Definition mutable_splice1 (idx : nat) (arr : val) : M val :=
  let* l := read_arr arr in
  write_body arr (BArr (take idx l ++ drop (S idx) l));;;
  ret arr.

Definition mutable_set (key : string) (value : val) (obj : val) : M val :=
  let* m := read_obj obj in
  write_body obj (BObj (<[key := value]> m));;;
  ret obj.

Definition batch_set (ownerID : option token) (key : string) (value : val)
    (obj : val) : M val :=
  let* own := canMutate obj ownerID in
  if own then mutable_set key value obj
  else
    let* m := read_obj obj in
    if strict_eq (default VUndef (m !! key)) value then ret obj
    else alloc (Cell ownerID (BObj (<[key := value]> m))).

(** [mergeObj] is always an object literal or a caller's read-only object:
    it is given by its properties. *)
Definition mutable_merge (mergeObj : list (string * val)) (obj : val) : M val :=
  let* m := read_obj obj in
  write_body obj
    (BObj (foldl (λ acc kv, <[kv.1 := kv.2]> acc) m mergeObj));;;
  ret obj.

Definition merge_step (st : bool * gmap string val) (kv : string * val)
  : bool * gmap string val :=
  if strict_eq kv.2 (default VUndef (st.2 !! kv.1)) then st
  else (true, <[kv.1 := kv.2]> st.2).

Definition batch_merge (ownerID : option token)
    (mergeObj : list (string * val)) (obj : val) : M val :=
  let* own := canMutate obj ownerID in
  if own then mutable_merge mergeObj obj
  else
    let* m := read_obj obj in
    let '(hasChanges, nextObject) := foldl merge_step (false, m) mergeObj in
    if hasChanges then alloc (Cell ownerID (BObj nextObject)) else ret obj.

Definition mutable_omit (keys : list string) (obj : val) : M val :=
  let* m := read_obj obj in
  write_body obj (BObj (foldl (λ acc k, delete k acc) m keys));;;
  ret obj.

Definition batch_omit (ownerID : option token) (keys : list string)
    (obj : val) : M val :=
  let* own := canMutate obj ownerID in
  if own then mutable_omit keys obj
  else
    let* m := read_obj obj in
    let keysInObj := List.filter (λ k, bool_decide (is_Some (m !! k))) keys in
    match keysInObj with
    | [] => ret obj
    | _ => alloc (Cell ownerID
                    (BObj (foldl (λ acc k, delete k acc) m keysInObj)))
    end.

(** [typeof v === 'undefined'] *)
Definition is_undefined (v : val) : bool :=
  match v with VUndef => true | _ => false end.

(** The walk of [mutableSetIn] from the object [acc] along [path]. *)
Fixpoint mutable_setIn_from (path : list string) (value : val) (acc : val)
  : M unit :=
  match path with
  | [] => ret tt
  | [curr] => mutable_set curr value acc;;; ret tt
  | curr :: rest =>
      let* next := get_prop acc curr in
      let* next :=
        (if is_undefined next then
           let* newObj := alloc (Cell None (BObj ∅)) in
           mutable_set curr newObj acc;;;
           ret newObj
         else ret next) in
      mutable_setIn_from rest value next
  end.

Definition mutable_setIn (path : list string) (value : val) (obj : val)
  : M val :=
  mutable_setIn_from path value obj;;;
  ret obj.

(** [getIn(path, obj)] *)
Fixpoint getIn (path : list string) (obj : val) : M val :=
  match path with
  | [] => ret obj
  | curr :: rest =>
      match obj with
      | VRef _ =>
          let* next := get_prop obj curr in
          if is_undefined next then ret VUndef else getIn rest next
      | _ => ret VUndef
      end
  end.

(** A copy of the object tagged with [ownerID], unless it is already owned. *)
Definition own_copy (ownerID : option token) (obj : val) : M val :=
  let* own := canMutate obj ownerID in
  if own then ret obj
  else
    let* c := read_cell obj in
    alloc (Cell ownerID (content c)).

(** The walk of [immutableSetIn]: [acc] is already owned or a fresh copy. *)
Fixpoint batch_setIn_from (ownerID : option token) (path : list string)
    (value : val) (acc : val) : M unit :=
  match path with
  | [] => ret tt
  | [curr] => mutable_set curr value acc;;; ret tt
  | curr :: rest =>
      let* next := get_prop acc curr in
      let* next :=
        (if is_undefined next then
           let* newObj := alloc (Cell ownerID (BObj ∅)) in
           mutable_set curr newObj acc;;;
           ret newObj
         else
           let* own := canMutate next ownerID in
           if own then ret next
           else
             let* newObj := own_copy ownerID next in
             mutable_set curr newObj acc;;;
             ret newObj) in
      batch_setIn_from ownerID rest value next
  end.

Definition batch_setIn (ownerID : option token) (path : list string)
    (value : val) (obj : val) : M val :=
  let* currentValue := getIn path obj in
  if strict_eq value currentValue then ret obj
  else
    let* root := own_copy ownerID obj in
    batch_setIn_from ownerID path value root;;;
    ret root.

End Ops.

Import Ops.

(** ** src/db/Table.js *)

Module TableDefs.

(** [this.fields[fieldName].opts || {}]: the two options the table reads. *)
Record fieldOpts := FieldOpts { index : bool; isUnique : bool }.

(** A [Table] instance: [DEFAULT_OPTS] overridden by the user's options,
    plus the field declarations of the model. *)
Record Table := MkTable {
  idAttribute : string;
  arrName : string;
  mapName : string;
  useIndex : bool;
  fields : list (string * fieldOpts)
}.

Definition DEFAULT_OPTS (fs : list (string * fieldOpts)) : Table :=
  {| idAttribute := "id"; arrName := "items"; mapName := "itemsById";
     useIndex := true; fields := fs |}.

(** The transaction info [tx]. *)
Record tx := Tx { batchToken : option token; withMutations : bool }.

(** Modelled from the spec: the clause kinds of [../constants], which is not
    among the sources; any other kind is a no-op clause. *)
Inductive clause_type := FILTER | EXCLUDE | ORDER_BY | OTHER (name : string).

(** A clause payload: a plain object given by its properties in key order,
    an array (the pair of an order-by), or something else that cannot be
    destructured (a predicate function).  An array or a function is taken
    to have no own property named like the identity attribute or a field. *)
Inductive payload :=
  | PObject (props : list (string * val))
  | PArray (tag : nat)
  | POther (tag : nat).

(** [const [iteratees, orders] = payload] throws on what cannot be
    iterated. *)
Definition iterable (p : payload) : bool :=
  match p with
  | PArray _ => true
  | PObject _ | POther _ => false
  end.

Record clause := Clause { type : clause_type; pay : payload }.

(** What the reduction of [query] carries: an array of rows, or the bare
    value that the primary-key branch returns. *)
Inductive rows :=
  | RList (l : list val)
  | RBare (v : val).

Definition payload_keys (p : payload) : list string :=
  match p with
  | PObject props => props.*1
  | PArray _ | POther _ => []
  end.

Definition payload_get (p : payload) (k : string) : val :=
  match p with
  | PObject props => default VUndef (snd <$> List.find (λ kv, String.eqb kv.1 k) props)
  | PArray _ | POther _ => VUndef
  end.

Definition payload_has (p : payload) (k : string) : bool :=
  bool_decide (k ∈ payload_keys p).

(** lodash [intersection] on two arrays: the distinct members of the first
    that occur in the second, in the order of the first. *)
Fixpoint intersection {A} `{EqDecision A} (a b : list A) : list A :=
  match a with
  | [] => []
  | x :: a' =>
      let r := intersection a' b in
      if bool_decide (x ∈ b) then x :: List.filter (λ y, negb (bool_decide (y = x))) r
      else r
  end.

(** Modelled from the spec: [includes] of [../utils], which is not among the
    sources: membership of an identity in an array. *)
Definition includes (l : list val) (x : val) : bool :=
  bool_decide (is_Some (indexOf x l)).

Definition is_null (v : val) : bool :=
  match v with VNull => true | _ => false end.

End TableDefs.

Import TableDefs.

Section Table.

(** JavaScript's conversion of a string to a number, within the integer
    model: [None] is [NaN]. *)
Variable str_to_number : string → option Z.

(** lodash [filter], [reject] and [orderBy]: they read the rows in the store
    and return a new array. *)
Variable lodash_filter : heap → rows → payload → list val.
Variable lodash_reject : heap → rows → payload → list val.
Variable lodash_orderBy : heap → rows → payload → list val.

(** [this] *)
Variable t : Table.

Definition to_number (v : val) : option Z :=
  match v with
  | VNum z => Some z
  | VNull => Some 0%Z
  | VBool b => Some (if b then 1 else 0)%Z
  | VStr s => str_to_number s
  | VUndef | VNaN | VRef _ => None
  end.

(** [v + 1] *)
Definition plus_one (v : val) : val :=
  match v with
  | VNum z => VNum (to_double (z + 1))
  | VNull => VNum 1
  | VBool b => VNum (if b then 2 else 1)
  | VStr s => VStr (s +:+ "1")
  | VRef _ => VStr "[object Object]1"
  | VUndef | VNaN => VNaN
  end.

(** [Math.max(a, b)] *)
Definition math_max (a b : val) : val :=
  match to_number a, to_number b with
  | Some x, Some y => VNum (Z.max x y)
  | _, _ => VNaN
  end.

(** Returns [(newMax, newId)]. *)
Definition idSequencer (_currMax userPassedId : val) : val * val :=
  let currMax := if is_undefined _currMax then VNum (-1) else _currMax in
  if is_undefined userPassedId then
    (plus_one currMax, plus_one currMax)
  else
    (math_max (plus_one currMax) userPassedId, userPassedId).

Definition accessId (branch id : val) : M val :=
  let* map := get_prop branch (mapName t) in
  get_prop map (to_key id).

Definition idExists (branch id : val) : M bool :=
  let* map := get_prop branch (mapName t) in
  has_own map (to_key id).

Definition accessIdList (branch : val) : M (list val) :=
  let* arr := get_prop branch (arrName t) in
  read_arr arr.

Definition accessList (branch : val) : M (list val) :=
  let* ids := accessIdList branch in
  mapM (accessId branch) ids.

Definition getMeta (branch : val) (key : string) : M val :=
  let* meta := get_prop branch "meta" in
  get_prop meta key.

Definition setMeta (x : tx) (branch : val) (key : string) (value : val)
  : M val :=
  if withMutations x then mutable_setIn ["meta"; key] value branch
  else batch_setIn (batchToken x) ["meta"; key] value branch.

Definition getMaxId (branch : val) : M val := getMeta branch "maxId".

Definition setMaxId (x : tx) (branch : val) (newMaxId : val) : M val :=
  setMeta x branch "maxId" newMaxId.

(** The contents of the bucket; [branch.__indexes[fieldName] || {}] and
    [fieldIndex[value] || []] are only read. *)
Definition getIdListByIndex (branch : val) (fieldName : string) (value : val)
  : M (list val) :=
  let* indexes := get_prop branch "__indexes" in
  let* fieldIndex := get_prop indexes fieldName in
  if truthy fieldIndex then
    let* valueIndex := get_prop fieldIndex (to_key value) in
    if truthy valueIndex then read_arr valueIndex else ret []
  else ret [].

Definition getIndexedFields : list string :=
  (List.filter (λ f, index f.2 || isUnique f.2) (fields t)).*1.

Definition field_opts (fieldName : string) : fieldOpts :=
  default (FieldOpts false false)
    (snd <$> List.find (λ f, String.eqb f.1 fieldName) (fields t)).

(** The first pass of [query]: the candidate identities from the indexes. *)
Definition index_step (branch : val) (acc : option (list val)) (c : clause)
  : M (option (list val)) :=
  match type c with
  | FILTER =>
      foldM (λ acc fieldName,
               let* ids := getIdListByIndex branch fieldName
                             (payload_get (pay c) fieldName) in
               ret (Some (match acc with
                          | Some idsIntersection => intersection idsIntersection ids
                          | None => ids
                          end)))
            acc (intersection (payload_keys (pay c)) getIndexedFields)
  | _ => ret acc
  end.

Definition query_list (branch : val) (clauses : list clause) : M (list val) :=
  if useIndex t then
    let* r := foldM (index_step branch) None clauses in
    match r with
    | Some idsIntersection => mapM (accessId branch) idsIntersection
    | None => accessList branch
    end
  else accessList branch.

(** One step of the reduction over the clauses. *)
Definition query_step (branch : val) (rs : rows) (c : clause) : M rows :=
  match type c with
  | FILTER =>
      if payload_has (pay c) (idAttribute t)
         && truthy (payload_get (pay c) (idAttribute t)) then
        let id := payload_get (pay c) (idAttribute t) in
        let* found := idExists branch id in
        if found then
          let* row := accessId branch id in ret (RBare row)
        else ret (RList [])
      else λ h, Some (RList (lodash_filter h rs (pay c)), h)
  | EXCLUDE => λ h, Some (RList (lodash_reject h rs (pay c)), h)
  | ORDER_BY =>
      if iterable (pay c)
      then λ h, Some (RList (lodash_orderBy h rs (pay c)), h)
      else throw
  | OTHER _ => ret rs
  end.

Definition query (branch : val) (clauses : list clause) : M rows :=
  let* list := query_list branch clauses in
  foldM (query_step branch) (RList list) clauses.

Definition getEmptyState : M val :=
  let* arr := alloc (Cell None (BArr [])) in
  let* map := alloc (Cell None (BObj ∅)) in
  let* meta := alloc (Cell None (BObj ∅)) in
  let* indexes := alloc (Cell None (BObj ∅)) in
  alloc (Cell None (BObj (<["__indexes" := indexes]>
                          (<["meta" := meta]>
                          (<[mapName t := map]>
                          (<[arrName t := arr]> ∅)))))).

Definition insertToIndex (x : tx) (branch id : val) (opts : fieldOpts)
    (fieldName : string) (value : val) : M val :=
  let* indexes := get_prop branch "__indexes" in
  let* fieldIndex := get_prop indexes fieldName in
  let* valueIndex :=
    (if truthy fieldIndex then get_prop fieldIndex (to_key value)
     else ret VUndef) in
  let workingState := branch in
  let* valueIndex :=
    (if isUnique opts && negb (is_null value) then
       alloc (Cell None (BArr [id]))
     else
       let* valueIndex :=
         (if truthy valueIndex then ret valueIndex
          else alloc (Cell None (BArr []))) in
       if withMutations x then
         mutable_push id valueIndex;;; ret valueIndex
       else batch_push (batchToken x) id valueIndex) in
  if withMutations x then
    mutable_setIn ["__indexes"; fieldName; to_key value] valueIndex workingState
  else
    batch_setIn (batchToken x) ["__indexes"; fieldName; to_key value]
      valueIndex workingState.

Definition deleteFromIndex (x : tx) (branch id : val) (opts : fieldOpts)
    (fieldName : string) (value : val) : M val :=
  let workingState := branch in
  let* indexes := get_prop workingState "__indexes" in
  let* fieldIndex := get_prop indexes fieldName in
  if isUnique opts && negb (is_null value) then
    if withMutations x then
      mutable_omit [to_key value] fieldIndex;;;
      ret workingState
    else
      let* omitted := batch_omit (batchToken x) [to_key value] fieldIndex in
      let* merged := batch_merge (batchToken x) [(fieldName, omitted)] indexes in
      batch_merge (batchToken x) [("__indexes", merged)] workingState
  else
    let* bucket := get_prop fieldIndex (to_key value) in
    let keep := λ indexedId, negb (strict_eq indexedId id) in
    if withMutations x then
      mutable_filter keep bucket;;;
      ret workingState
    else
      let* filtered := batch_filter (batchToken x) keep bucket in
      let* field := batch_merge (batchToken x) [(to_key value, filtered)]
                      fieldIndex in
      let* merged := batch_merge (batchToken x) [(fieldName, field)] indexes in
      batch_merge (batchToken x) [("__indexes", merged)] workingState.

(** Returns [(state, created)]. *)
Definition insert (x : tx) (branch entry : val) : M (val * val) :=
  let* hasId := has_own entry (idAttribute t) in
  let workingState := branch in
  let* currMax := getMaxId branch in
  let* userPassedId := get_prop entry (idAttribute t) in
  let '(newMaxId, id) := idSequencer currMax userPassedId in
  let* workingState := setMaxId x branch newMaxId in
  let* finalEntry :=
    (if hasId then ret entry
     else batch_set (batchToken x) (idAttribute t) id entry) in
  let* workingState :=
    foldM (λ workingState fieldName,
             let opts := field_opts fieldName in
             let* value := get_prop entry fieldName in
             insertToIndex x workingState id opts fieldName value)
          workingState getIndexedFields in
  if withMutations x then
    let* arr := get_prop workingState (arrName t) in
    mutable_push id arr;;;
    let* map := get_prop workingState (mapName t) in
    mutable_set (to_key id) finalEntry map;;;
    ret (workingState, finalEntry)
  else
    let* arr := get_prop workingState (arrName t) in
    let* newArr := batch_push (batchToken x) id arr in
    let* map := get_prop workingState (mapName t) in
    let* newMap := batch_merge (batchToken x) [(to_key id, finalEntry)] map in
    let* nextState :=
      batch_merge (batchToken x)
        [(arrName t, newArr); (mapName t, newMap)] workingState in
    ret (nextState, finalEntry).

Definition update (x : tx) (branch : val) (rows : list val)
    (mergeObj : list (string * val)) : M val :=
  let workingState := branch in
  let mapFunction := λ row,
    if withMutations x then mutable_merge mergeObj row
    else batch_merge (batchToken x) mergeObj row in
  let set := λ key value obj,
    if withMutations x then mutable_set key value obj
    else batch_set (batchToken x) key value obj in
  let* map := get_prop branch (mapName t) in
  let* newMap :=
    foldM (λ map row,
             let* result := mapFunction row in
             let* resultId := get_prop result (idAttribute t) in
             set (to_key resultId) result map)
          map rows in
  let* workingState := batch_set (batchToken x) (mapName t) newMap branch in
  foldM (λ workingState fieldName,
           let opts := field_opts fieldName in
           foldM (λ workingState row,
                    let* rowId := get_prop row (idAttribute t) in
                    let* rowValue := get_prop row fieldName in
                    let* workingState :=
                      deleteFromIndex x workingState rowId opts fieldName
                        rowValue in
                    let* result := mapFunction row in
                    let* resultId := get_prop result (idAttribute t) in
                    let* resultValue := get_prop result fieldName in
                    insertToIndex x workingState resultId opts fieldName
                      resultValue)
                 workingState rows)
        workingState getIndexedFields.

Definition delete (x : tx) (branch : val) (rows : list val) : M val :=
  let* arr := get_prop branch (arrName t) in
  let* branch :=
    foldM (λ branch fieldName,
             let opts := field_opts fieldName in
             foldM (λ branch row,
                      let* rowId := get_prop row (idAttribute t) in
                      let* rowValue := get_prop row fieldName in
                      deleteFromIndex x branch rowId opts fieldName rowValue)
                   branch rows)
          branch getIndexedFields in
  let* idsToDelete := mapM (λ row, get_prop row (idAttribute t)) rows in
  if withMutations x then
    foldM (λ _ id,
             let* l := read_arr arr in
             match indexOf id l with
             | Some idx => mutable_splice1 idx arr;;; ret tt
             | None => ret tt
             end;;;
             let* map := get_prop branch (mapName t) in
             mutable_omit [to_key id] map;;;
             ret tt)
          tt idsToDelete;;;
    ret branch
  else
    let* ids := get_prop branch (arrName t) in
    let* newArr :=
      batch_filter (batchToken x) (λ id, negb (includes idsToDelete id)) ids in
    let* map := get_prop branch (mapName t) in
    let* newMap := batch_omit (batchToken x) (to_key <$> idsToDelete) map in
    batch_merge (batchToken x)
      [(arrName t, newArr); (mapName t, newMap)] branch.

End Table.

(** ** src/Schema.js *)

Module SchemaDefs.

(** A field instance of a model; [OtherField] is anything that is not one of
    the three relational field classes. *)
Inductive field :=
  | ForeignKey (toModelName : string)
  | ManyToMany (toModelName : string)
  | OneToOne (toModelName : string)
  | OtherField.

(** A model class, as far as the registry reads it: [fields] lists the own
    properties of [model.fields] in enumeration order. *)
Record Model := MkModel {
  modelName : string;
  mfields : list (string * field)
}.

Record Schema := MkSchema {
  registry : list Model;
  implicitThroughModels : list Model
}.

(** [new Schema()] *)
Definition emptySchema : Schema := MkSchema [] [].

(** What [get] yields: the model, or the thrown [Error] with its message. *)
Inductive lookup_result :=
  | Found (m : Model)
  | NotFound (message : string).

(** The object literal [{[k1]: v1, [k2]: v2}]: a repeated key keeps its
    place and takes the later value. *)
Definition literal2 {A} (k1 : string) (v1 : A) (k2 : string) (v2 : A)
  : list (string * A) :=
  if String.eqb k1 k2 then [(k1, v2)] else [(k1, v1); (k2, v2)].

End SchemaDefs.

Import SchemaDefs.

Section Schema.

(** The naming helpers of [./utils], which is not among the sources. *)
Variable m2mName : string → string → string.
Variable m2mFromFieldName : string → string.
Variable m2mToFieldName : string → string.

(** The body of the [forOwn] callback of [registerManyToManyModelsFor]. *)
Definition throughModelFor (thisModelName : string)
    (fieldName : string) (fieldInstance : field) : option Model :=
  match fieldInstance with
  | ManyToMany to =>
      let toModelName :=
        if String.eqb to "this" then thisModelName else to in
      let fromFieldName := m2mFromFieldName thisModelName in
      let toFieldName := m2mToFieldName toModelName in
      Some {| modelName := m2mName thisModelName fieldName;
              mfields := literal2 fromFieldName (ForeignKey thisModelName)
                           toFieldName (ForeignKey toModelName) |}
  | _ => None
  end.

Definition registerManyToManyModelsFor (s : Schema) (model : Model)
  : Schema :=
  foldl (λ s f,
           match throughModelFor (modelName model) f.1 f.2 with
           | Some Through =>
               MkSchema (registry s) (implicitThroughModels s ++ [Through])
           | None => s
           end)
        s (mfields model).

(** [register(...models)] *)
Definition register (s : Schema) (models : list Model) : Schema :=
  foldl (λ s model,
           let s := registerManyToManyModelsFor s model in
           MkSchema (registry s ++ [model]) (implicitThroughModels s))
        s models.

(** [get(modelName)] *)
Definition get (s : Schema) (name : string) : lookup_result :=
  match List.find (λ model, String.eqb (modelName model) name)
          (registry s ++ implicitThroughModels s) with
  | Some found => Found found
  | None => NotFound ("Did not find model " +:+ name +:+ " from registry.")
  end.

End Schema.

(** ** Observations and clients *)

Module Observe.

(** The value of an object graph, without object identity and owner tags. *)
#[warning="-register-all"]
Inductive tree :=
  | TVal (v : val)
  | TObj (props : gmap string tree)
  | TArr (elems : list tree).

(** The value reachable from [v] through at most [depth] references. *)
Fixpoint deep (h : heap) (depth : nat) (v : val) : tree :=
  match depth with
  | O => TVal v
  | S d =>
      match v with
      | VRef l =>
          match h !! l with
          | Some (Cell _ (BObj m)) => TObj (deep h d <$> m)
          | Some (Cell _ (BArr vs)) => TArr (deep h d <$> vs)
          | None => TVal v
          end
      | _ => TVal v
      end
  end.

(** A branch is four levels deep: branch, [__indexes], the index of one
    field, one bucket; its rows are two levels down. *)
Definition snapshot (h : heap) (branch : val) : tree := deep h 4 branch.

(** [canMutate] as a test on a stored object. *)
Definition owned_by (ownerID : option token) (c : cell) : bool :=
  match ownerID with
  | Some t => bool_decide (owner c = Some t)
  | None => false
  end.

(** Every object within [depth] references of [v] is in the store and does
    not carry the tag [ownerID]. *)
Fixpoint untagged (ownerID : option token) (h : heap) (depth : nat) (v : val)
  : bool :=
  match depth with
  | O => true
  | S d =>
      match v with
      | VRef l =>
          match h !! l with
          | Some c =>
              negb (owned_by ownerID c) &&
              match content c with
              | BObj m =>
                  bool_decide
                    (map_Forall (λ _ v', untagged ownerID h d v' = true) m)
              | BArr vs => forallb (untagged ownerID h d) vs
              end
          | None => false
          end
      | _ => true
      end
  end.

(** Objects that do not carry the tag [ownerID] are the same in [h']. *)
Definition preserves (ownerID : option token) (h h' : heap) : Prop :=
  ∀ l c, h !! l = Some c → owned_by ownerID c = false → h' !! l = Some c.

End Observe.

Import Observe.

(** The session layer is outside the sources; this is how it drives a table:
    an inserted entry is a new plain object, and the rows handed to [update]
    and [delete] are the stored objects themselves, fetched by identity. *)
Module Client.

Inductive op :=
  | OpInsert (x : tx) (entry : gmap string val)
  | OpUpdate (x : tx) (ids : list val) (mergeObj : list (string * val))
  | OpDelete (x : tx) (ids : list val).

Definition op_tx (o : op) : tx :=
  match o with
  | OpInsert x _ | OpUpdate x _ _ | OpDelete x _ => x
  end.

Section Run.

Variable str_to_number : string → option Z.
Variable t : Table.

Definition new_object (props : gmap string val) : M val :=
  alloc (Cell None (BObj props)).

Definition run_op (branch : val) (o : op) : M val :=
  match o with
  | OpInsert x entry =>
      let* e := new_object entry in
      let* r := insert str_to_number t x branch e in
      ret r.1
  | OpUpdate x ids mergeObj =>
      let* rows := mapM (accessId t branch) ids in
      update t x branch rows mergeObj
  | OpDelete x ids =>
      let* rows := mapM (accessId t branch) ids in
      delete t x branch rows
  end.

(** The operations applied in turn to the empty state. *)
Definition run (ops : list op) : M val :=
  let* branch := getEmptyState t in
  foldM run_op branch ops.

(** The identities given to a sequence of inserted entries. *)
Definition inserted_ids (x : tx) (entries : list (gmap string val))
  : M (list val) :=
  let* branch := getEmptyState t in
  let* r :=
    foldM (λ st entry,
             let* e := new_object entry in
             let* r := insert str_to_number t x st.1 e in
             let* id := get_prop r.2 (idAttribute t) in
             ret (r.1, st.2 ++ [id]))
          (branch, []) entries in
  ret r.2.

End Run.

(** Decimal integer literals; every other string reads as [NaN]. *)
Definition digit_value (c : Ascii.ascii) : option Z :=
  let n := Ascii.nat_of_ascii c in
  if (48 <=? n)%nat && (n <=? 57)%nat then Some (Z.of_nat (n - 48)) else None.

Fixpoint digits_value (acc : Z) (s : string) : option Z :=
  match s with
  | EmptyString => Some acc
  | String c s' =>
      match digit_value c with
      | Some d => digits_value (acc * 10 + d) s'
      | None => None
      end
  end.

Definition decimal_to_number (s : string) : option Z :=
  match s with
  | EmptyString => Some 0%Z
  | String c s' =>
      if Ascii.eqb c (Ascii.ascii_of_nat 45) && negb (String.eqb s' "") then
        Z.opp <$> digits_value 0 s'
      else digits_value 0 s
  end.

End Client.

Import Client.

(** * The value of a branch, and what the operations make of it *)

Module FrameDefs.

Section Defs.

Variable ownerID : option token.
(** The store at the start of the operation. *)
Variable h0 : heap.

(** A location the batch may write: not an untagged object of [h0]. *)
Definition writable (v : val) : Prop :=
  match v with
  | VRef l => ∀ c, h0 !! l = Some c → owned_by ownerID c = true
  | _ => True
  end.

(** Run from a store that preserves [h0], [c] ends in such a store, with a
    result that satisfies [Q]. *)
Definition safe {A} (c : M A) (Q : A → Prop) : Prop :=
  ∀ h r h', preserves ownerID h0 h → c h = Some (r, h') →
            preserves ownerID h0 h' ∧ Q r.

End Defs.
End FrameDefs.

Import FrameDefs.

Module SchemaSpec.

Section Spec.

Variable m2mName : string → string → string.
Variable m2mFromFieldName : string → string.
Variable m2mToFieldName : string → string.

(** The join-collections one registration of [model] synthesizes. *)
Definition throughModelsOf (model : Model) : list Model :=
  omap (λ f, throughModelFor m2mName m2mFromFieldName m2mToFieldName
               (modelName model) f.1 f.2) (mfields model).

(** The many-to-many fields of [model], each with its target. *)
Definition manyToManyFields (model : Model) : list (string * string) :=
  omap (λ f, match f.2 with ManyToMany to => Some (f.1, to) | _ => None end)
       (mfields model).

(** ['this'] resolved against the owning collection. *)
Definition resolveTarget (owner to : string) : string :=
  if String.eqb to "this" then owner else to.

End Spec.

(** A naming scheme to run the registry on. *)
Definition joinName (owner fieldName : string) : string :=
  owner +:+ "_" +:+ fieldName.
Definition fromName (owner : string) : string := "from" +:+ owner +:+ "Id".
Definition toName (target : string) : string := "to" +:+ target +:+ "Id".

Definition tagged : Model := MkModel "Post" [("tags", ManyToMany "Tag")].

End SchemaSpec.

Import SchemaSpec.

Module Abstract.

(** The place of an object in the graph of a branch. *)
Inductive role :=
  | RRoot
  | RArr
  | RMap
  | RMeta
  | RIdx
  | RField (f : string)
  | RBucket (f k : string)
  | RRow (k : string)
  | RTmp (n : nat)
  | RNew (n : nat).

#[global] Instance role_eq_dec : EqDecision role.
Proof. solve_decision. Defined.

(** The value of a branch: identity list, rows by key, meta, and for each
    indexed field the bucket of each value key. *)
Record pstate := PState {
  p_ids : list val;
  p_rows : gmap string (gmap string val);
  p_meta : gmap string val;
  p_idx : gmap string (gmap string (list val))
}.

Definition fupd {A} (r : role) (a : A) (f : role → A) : role → A :=
  λ r', if decide (r' = r) then a else f r'.

Definition is_tmp (r : role) : Prop :=
  match r with
  | RTmp _ => True
  | _ => False
  end.

(** The objects of [LOC] are distinct objects of the store, with the
    contents [CONT]; the temporaries do not carry the tag [tok]. *)
Definition prepr (tok : option token) (h : heap) (LOC : role → option nat)
    (CONT : role → body) : Prop :=
  (∀ r1 r2 l, LOC r1 = Some l → LOC r2 = Some l → r1 = r2) ∧
  (∀ r l, LOC r = Some l →
     ∃ o, h !! l = Some (Cell o (CONT r)) ∧
          (is_tmp r → owned_by tok (Cell o (CONT r)) = false)).

Definition ref_of (LOC : role → option nat) (r : role) : val :=
  match LOC r with
  | Some l => VRef l
  | None => VUndef
  end.

Definition p_field (ps : pstate) (f : string) : gmap string (list val) :=
  default ∅ (p_idx ps !! f).

Definition p_bucket (ps : pstate) (f k : string) : list val :=
  default [] (p_field ps f !! k).

Definition p_row (ps : pstate) (k : string) : gmap string val :=
  default ∅ (p_rows ps !! k).

Definition idx_props (ps : pstate) (LOC : role → option nat)
  : gmap string val :=
  map_imap (λ f _, Some (ref_of LOC (RField f))) (p_idx ps).

Definition field_props (ps : pstate) (LOC : role → option nat) (f : string)
  : gmap string val :=
  map_imap (λ k _, Some (ref_of LOC (RBucket f k))) (p_field ps f).

Definition map_props (ps : pstate) (LOC : role → option nat)
  : gmap string val :=
  map_imap (λ k _, Some (ref_of LOC (RRow k))) (p_rows ps).

Section Repr.

Variable t : Table.

Definition root_props (LOC : role → option nat) : gmap string val :=
  <["__indexes" := ref_of LOC RIdx]>
    (<["meta" := ref_of LOC RMeta]>
    (<[mapName t := ref_of LOC RMap]>
    (<[arrName t := ref_of LOC RArr]> ∅))).

Definition content_of (ps : pstate) (tmp : role → body)
    (LOC : role → option nat) (r : role) : body :=
  match r with
  | RRoot => BObj (root_props LOC)
  | RArr => BArr (p_ids ps)
  | RMap => BObj (map_props ps LOC)
  | RMeta => BObj (p_meta ps)
  | RIdx => BObj (idx_props ps LOC)
  | RField f => BObj (field_props ps LOC f)
  | RBucket f k => BArr (p_bucket ps f k)
  | RRow k => BObj (p_row ps k)
  | RTmp _ | RNew _ => tmp r
  end.

(** [LOC] places exactly the objects of [ps]. *)
Definition covers (ps : pstate) (LOC : role → option nat) : Prop :=
  is_Some (LOC RRoot) ∧ is_Some (LOC RArr) ∧ is_Some (LOC RMap) ∧
  is_Some (LOC RMeta) ∧ is_Some (LOC RIdx) ∧
  (∀ f, is_Some (LOC (RField f)) ↔ is_Some (p_idx ps !! f)) ∧
  (∀ f k, is_Some (LOC (RBucket f k)) ↔ is_Some (p_field ps f !! k)) ∧
  (∀ k, is_Some (LOC (RRow k)) ↔ is_Some (p_rows ps !! k)).

(** A role that is not part of a branch: a caller's object ([RTmp]) or an
    object made on the way ([RNew]). *)
Definition is_aux (r : role) : Prop :=
  match r with
  | RTmp _ | RNew _ => True
  | _ => False
  end.

(** The branch [branch] of the store [h] is a tree of separate objects
    with the value [ps], apart from the auxiliary objects with contents
    [tmp]. *)
Definition repr_with (tok : option token) (tmp : role → body) (h : heap)
    (branch : val) (LOC : role → option nat) (ps : pstate) : Prop :=
  ref_of LOC RRoot = branch ∧ covers ps LOC ∧
  prepr tok h LOC (content_of ps tmp LOC).

Definition repr (h : heap) (branch : val) (LOC : role → option nat)
    (ps : pstate) : Prop :=
  repr_with None (λ _, BObj ∅) h branch LOC ps ∧ ∀ r, is_aux r → LOC r = None.

(** The names under which a branch keeps its four parts are distinct. *)
Definition table_ok : Prop :=
  arrName t ≠ mapName t ∧ arrName t ≠ "meta" ∧ arrName t ≠ "__indexes" ∧
  mapName t ≠ "meta" ∧ mapName t ≠ "__indexes".

End Repr.

(** The bucket of [f] under the key [k] becomes [bucket]. *)
Definition p_set_bucket (f k : string) (bucket : list val) (ps : pstate)
  : pstate :=
  PState (p_ids ps) (p_rows ps) (p_meta ps)
    (<[f := <[k := bucket]> (p_field ps f)]> (p_idx ps)).

(** The index of [f] loses the key [k]. *)
Definition p_del_bucket (f k : string) (ps : pstate) : pstate :=
  PState (p_ids ps) (p_rows ps) (p_meta ps)
    (<[f := base.delete k (p_field ps f)]> (p_idx ps)).

Definition p_insertToIndex (id : val) (opts : fieldOpts) (f : string)
    (value : val) (ps : pstate) : pstate :=
  let k := to_key value in
  p_set_bucket f k
    (if isUnique opts && negb (is_null value) then [id]
     else p_bucket ps f k ++ [id])
    ps.

Definition p_deleteFromIndex (id : val) (opts : fieldOpts) (f : string)
    (value : val) (ps : pstate) : pstate :=
  let k := to_key value in
  if isUnique opts && negb (is_null value) then p_del_bucket f k ps
  else
    p_set_bucket f k
      (List.filter (λ indexedId, negb (strict_eq indexedId id))
         (p_bucket ps f k))
      ps.

Definition p_setMeta (key : string) (v : val) (ps : pstate) : pstate :=
  PState (p_ids ps) (p_rows ps) (<[key := v]> (p_meta ps)) (p_idx ps).

Definition p_add_row (id : val) (row : gmap string val) (ps : pstate)
  : pstate :=
  PState (p_ids ps ++ [id]) (<[to_key id := row]> (p_rows ps)) (p_meta ps)
    (p_idx ps).

Section PureOps.

Variable str_to_number : string → option Z.
Variable t : Table.

(** The identity [insert] gives the entry. *)
Definition p_insert_id (entry : gmap string val) (ps : pstate) : val :=
  (idSequencer str_to_number (default VUndef (p_meta ps !! "maxId"))
     (default VUndef (entry !! idAttribute t))).2.

(** The row [insert] stores. *)
Definition p_created (entry : gmap string val) (ps : pstate)
  : gmap string val :=
  if bool_decide (is_Some (entry !! idAttribute t)) then entry
  else <[idAttribute t := p_insert_id entry ps]> entry.

Definition p_insert (entry : gmap string val) (ps : pstate) : pstate :=
  let id := p_insert_id entry ps in
  let newMaxId :=
    (idSequencer str_to_number (default VUndef (p_meta ps !! "maxId"))
       (default VUndef (entry !! idAttribute t))).1 in
  let ps1 := p_setMeta "maxId" newMaxId ps in
  let ps2 :=
    foldl (λ ps f,
             p_insertToIndex id (field_opts t f) f
               (default VUndef (entry !! f)) ps)
          ps1 (getIndexedFields t) in
  p_add_row id (p_created entry ps) ps2.

End PureOps.

Definition is_auxb (r : role) : bool :=
  match r with
  | RTmp _ | RNew _ => true
  | _ => false
  end.

(** The layout in which the object at [l] takes the role [r] and the
    auxiliary roles are given up. *)
Definition adopt (r : role) (l : nat) (LOC : role → option nat)
  : role → option nat :=
  λ r', if decide (r' = r) then Some l
        else if is_auxb r' then None else LOC r'.

(** The roles on the path from a branch to a bucket. *)
Definition index_role (r : role) : Prop :=
  match r with
  | RRoot | RIdx | RField _ | RBucket _ _ => True
  | _ => False
  end.

End Abstract.

Import Abstract.

Module Shapes.

(** [c] runs from [h] without failing and ends in a result and store
    that satisfy [Q]. *)
Definition wp {A} (c : M A) (h : heap) (Q : A → heap → Prop) : Prop :=
  ∃ r h', c h = Some (r, h') ∧ Q r h'.

(** What a shallow merge makes of the properties [m]. *)
Definition merged (m : gmap string val) (mergeObj : list (string * val))
  : gmap string val :=
  foldl (λ acc kv, <[kv.1 := kv.2]> acc) m mergeObj.

(** The same, through the change test of the copying merge. *)
Definition merged_cow (m : gmap string val) (mergeObj : list (string * val))
  : gmap string val :=
  (foldl merge_step (false, m) mergeObj).2.

Definition omitted {V} (m : gmap string V) (keys : list string) : gmap string V :=
  foldl (λ acc k, base.delete k acc) m keys.

(** [arr.splice(arr.indexOf(id), 1)] when [id] is in [arr]. *)
Definition remove_first (l : list val) (id : val) : list val :=
  match indexOf id l with
  | Some idx => take idx l ++ drop (S idx) l
  | None => l
  end.

(** The contents of the entry passed to [insert] and of its copy that
    carries the identity. *)
Definition insert_tmp (t : Table) (e : gmap string val) (id : val) (r : role)
  : body :=
  match r with
  | RNew _ => BObj (<[idAttribute t := id]> e)
  | _ => BObj e
  end.

(** The value of the empty state. *)
Definition p_empty : pstate := PState [] ∅ ∅ ∅.

End Shapes.

Import Shapes.

Module PureDelete.

(** A fold that stops at the first step without a result. *)
Fixpoint fold_opt {A B} (f : A → B → option A) (a : A) (l : list B)
  : option A :=
  match l with
  | [] => Some a
  | b :: l' => match f a b with Some a' => fold_opt f a' l' | None => None end
  end.

(** The property [k] of a row, [undefined] when it has none. *)
Definition p_prop (row : gmap string val) (k : string) : val :=
  default VUndef (row !! k).

(** The part of the index [deleteFromIndex] writes to is there. *)
Definition index_ready (opts : fieldOpts) (f : string) (value : val)
    (ps : pstate) : bool :=
  if isUnique opts && negb (is_null value)
  then bool_decide (is_Some (p_idx ps !! f))
  else bool_decide (is_Some (p_field ps f !! to_key value)).

Section Pure.

Variable t : Table.

Definition p_unindex_row (f : string) (ps : pstate) (k : string)
  : option pstate :=
  let row := p_row ps k in
  let value := p_prop row f in
  if index_ready (field_opts t f) f value ps
  then Some (p_deleteFromIndex (p_prop row (idAttribute t)) (field_opts t f)
               f value ps)
  else None.

Definition p_unindex (ks : list string) (ps : pstate) : option pstate :=
  fold_opt (λ ps f, fold_opt (p_unindex_row f) ps ks) ps (getIndexedFields t).

(** The value of the branch [delete] returns for the rows of [ids]. *)
Definition p_delete (ids : list val) (ps : pstate) : option pstate :=
  let ks := to_key <$> ids in
  if forallb (λ k, bool_decide (is_Some (p_rows ps !! k))) ks then
    match p_unindex ks ps with
    | Some ps1 =>
        let idsToDelete :=
          (λ k, p_prop (p_row ps k) (idAttribute t)) <$> ks in
        Some (PState
                (List.filter (λ id, negb (includes idsToDelete id)) (p_ids ps1))
                (omitted (p_rows ps1) (to_key <$> idsToDelete))
                (p_meta ps1) (p_idx ps1))
    | None => None
    end
  else None.

End Pure.

(** The layout without the rows of the keys [ks]. *)
Definition drop_rows (ks : list string) (LOC : role → option nat)
  : role → option nat :=
  λ r, match r with
       | RRow k => if bool_decide (k ∈ ks) then None else LOC r
       | _ => LOC r
       end.

End PureDelete.

Import PureDelete.

Module PureRun.

Definition is_ref (v : val) : bool :=
  match v with VRef _ => true | _ => false end.

Section Pure.

Variable str_to_number : string → option Z.
Variable t : Table.

(** The recorded maximum is absent, or a number whose successor is a safe
    integer. *)
Definition safe_max (ps : pstate) : bool :=
  match p_meta ps !! "maxId" with
  | None => true
  | Some (VNum m) => safe_integer (m + 1)
  | Some _ => false
  end.

(** The entry names no identity, or a safe integer that is not in the
    collection; the maximum is safe. *)
Definition explicit_ok (entry : gmap string val) (ps : pstate) : bool :=
  safe_max ps &&
  match entry !! idAttribute t with
  | None => true
  | Some (VNum n) => bool_decide (VNum n ∉ p_ids ps) && safe_integer n
  | Some _ => false
  end.

(** The entry names no identity and the maximum is safe, or it names an
    identity that is not in the collection. *)
Definition fresh_ok (entry : gmap string val) (ps : pstate) : bool :=
  match default VUndef (entry !! idAttribute t) with
  | VUndef => safe_max ps
  | v => bool_decide (v ∉ p_ids ps)
  end.

(** A value whose key is read as the code reads it: no property name of
    [Object.prototype]. *)
Definition plain_value (v : val) : bool := negb (inherited (to_key v)).

(** The entry has no property named like one of [Object.prototype], and
    the identity it names and its values for the indexed fields are
    plain. *)
Definition plain_entry (entry : gmap string val) : bool :=
  bool_decide (map_Forall (λ k _, inherited k = false) entry) &&
  plain_value (default VUndef (entry !! idAttribute t)) &&
  forallb (λ f, plain_value (default VUndef (entry !! f)))
    (getIndexedFields t).

(** The same for the object an update merges into the rows; the update
    leaves the identity attribute alone. *)
Definition plain_merge (mergeObj : list (string * val)) : bool :=
  forallb (λ kv, negb (String.eqb kv.1 (idAttribute t)) &&
                 negb (inherited kv.1) &&
                 (negb (bool_decide (kv.1 ∈ getIndexedFields t))
                  || plain_value kv.2))
    mergeObj.

(** An operation of a client that stays within what is modelled: plain
    entries that do not name the identity [undefined], plain merge
    objects, plain identities of the rows to update or delete. *)
Definition plain_op (o : op) : bool :=
  match o with
  | OpInsert _ entry =>
      plain_entry entry &&
      negb (bool_decide (entry !! idAttribute t = Some VUndef))
  | OpUpdate _ ids mergeObj => forallb plain_value ids && plain_merge mergeObj
  | OpDelete _ ids => forallb plain_value ids
  end.

(** The names the table reads properties by are distinct field names and
    no property names of [Object.prototype]. *)
Definition usable : bool :=
  bool_decide (NoDup (fields t).*1) &&
  forallb (λ k, negb (inherited k))
    (idAttribute t :: arrName t :: mapName t :: (fields t).*1).

(** The properties of the entry are not objects. *)
Definition scalar (entry : gmap string val) : bool :=
  bool_decide (map_Forall (λ _ v, is_ref v = false) entry).

(** The value of the branch after one operation of a client; [None] when
    the operation is outside the cases described here. *)
Definition p_step (ps : pstate) (o : op) : option pstate :=
  match o with
  | OpInsert _ entry =>
      if explicit_ok entry ps && scalar entry
      then Some (p_insert str_to_number t entry ps) else None
  | OpDelete _ ids => p_delete t ids ps
  | OpUpdate _ _ _ => None
  end.

Definition p_run (ops : list op) : option pstate :=
  fold_opt p_step p_empty ops.

End Pure.
End PureRun.

Import PureRun.

Module QuerySpec.

Section Spec.

Variable t : Table.

(** The clause is a filter whose payload names the identity [k]. *)
Definition pins_id (c : clause) (k : val) : Prop :=
  type c = FILTER ∧ payload_has (pay c) (idAttribute t) = true ∧
  payload_get (pay c) (idAttribute t) = k.

(** The values a filter names for indexed fields are plain, and what an
    order-by clause carries can be destructured. *)
Definition clause_ok (c : clause) : bool :=
  match type c with
  | FILTER =>
      forallb (λ f, plain_value (payload_get (pay c) f))
        (intersection (payload_keys (pay c)) (getIndexedFields t))
  | ORDER_BY => iterable (pay c)
  | _ => true
  end.

(** The rows are kept under the key of their identity, and no key of a
    row or of a listed or indexed identity is a property name of
    [Object.prototype]. *)
Definition tidy (ps : pstate) : Prop :=
  map_Forall (λ k row, to_key (p_prop row (idAttribute t)) = k ∧
                       inherited k = false) (p_rows ps) ∧
  Forall (λ id, inherited (to_key id) = false) (p_ids ps) ∧
  map_Forall (λ _ fieldIndex,
                map_Forall (λ _ bucket,
                              Forall (λ id, inherited (to_key id) = false)
                                bucket)
                  fieldIndex)
    (p_idx ps).

End Spec.
End QuerySpec.

Import QuerySpec.

Module Lookups.

Section Defs.

Variable str_to_number : string → option Z.
Variable t : Table.

(** [nextId(id)] *)
Definition nextId (id : val) : val := plus_one id.

(** A client's insert of a new plain object with the properties [entry]:
    the new state and the created row. *)
Definition insert_entry (x : tx) (branch : val) (entry : gmap string val)
  : M (val * val) :=
  let* e := new_object entry in
  insert str_to_number t x branch e.

(** The properties of the row [accessId] returns for [id]; [None] when it
    returns no object. *)
Definition row_of (branch id : val) : M (option (gmap string val)) :=
  let* row := accessId t branch id in
  match row with
  | VRef _ => let* m := read_obj row in ret (Some m)
  | _ => ret None
  end.

End Defs.
End Lookups.

Import Lookups.

Module Partial.

(** When [c] returns from [h], its result and store satisfy [Q]. *)
Definition wpf {A} (c : M A) (h : heap) (Q : A → heap → Prop) : Prop :=
  ∀ r h', c h = Some (r, h') → Q r h'.

(** A role a row object can have: a row of the map, or an object that was
    one. *)
Definition row_role (r : role) : Prop :=
  match r with
  | RRow _ | RNew _ => True
  | _ => False
  end.

(** The two roles change places. *)
Definition swap_roles (r1 r2 : role) (LOC : role → option nat)
  : role → option nat :=
  λ r, if decide (r = r1) then LOC r2
       else if decide (r = r2) then LOC r1 else LOC r.

(** The layout without the auxiliary objects. *)
Definition forget_aux (LOC : role → option nat) : role → option nat :=
  λ r, if is_auxb r then None else LOC r.

(** The objects at [ls] are row objects, the objects that were rows are
    plain objects, and the roles [RNew] from [n] on are free. *)
Definition tracks (ls : list nat) (LOC : role → option nat)
    (tmp : role → body) (n : nat) : Prop :=
  (∀ l, l ∈ ls → ∃ r, row_role r ∧ LOC r = Some l) ∧
  (∀ j, ∃ m, tmp (RNew j) = BObj m) ∧
  (∀ j, (n ≤ j)%nat → LOC (RNew j) = None).

(** From [ps] in the layout [LOC] to [ps'] in [LOC'], only the rows and
    the map have changed. *)
Definition framed (LOC LOC' : role → option nat) (ps ps' : pstate) : Prop :=
  p_ids ps' = p_ids ps ∧ p_meta ps' = p_meta ps ∧ p_idx ps' = p_idx ps ∧
  ∀ r, ¬ row_role r → r ≠ RMap → LOC' r = LOC r.

Section Keyed.

Variable t : Table.

(** The branch while [update] builds its new map: the root object still
    has the properties [rootm]. *)
Definition mid (tok : option token) (rootm : gmap string val) (h : heap)
    (LOC : role → option nat) (ps : pstate) (tmp : role → body) : Prop :=
  covers ps LOC ∧
  prepr tok h LOC (fupd RRoot (BObj rootm) (content_of t ps tmp LOC)).

(** Every row is kept under the key of its identity. *)
Definition p_keyed (ps : pstate) : Prop :=
  ∀ k row, p_rows ps !! k = Some row →
           to_key (p_prop row (idAttribute t)) = k.

(** The merge object leaves the identity attribute alone. *)
Definition keeps_id (mergeObj : list (string * val)) : Prop :=
  Forall (λ kv : string * val, kv.1 ≠ idAttribute t) mergeObj.

End Keyed.

End Partial.

Import Partial.

Module PureInv.

(** The identities are distinct numbers, none above the recorded
    maximum. *)
Definition p_inv (ps : pstate) : Prop :=
  NoDup (p_ids ps) ∧
  (∀ id, id ∈ p_ids ps →
     ∃ n m, id = VNum n ∧ p_meta ps !! "maxId" = Some (VNum m) ∧ (n ≤ m)%Z) ∧
  (p_meta ps !! "maxId" = None ∨ ∃ m, p_meta ps !! "maxId" = Some (VNum m)).

(** The recorded maximum as a number: -1 when there is none, nothing when
    it is [NaN]. *)
Definition p_cur (ps : pstate) : option Z :=
  match p_meta ps !! "maxId" with
  | None => Some (-1)%Z
  | Some (VNum m) => Some m
  | Some _ => None
  end.

(** The identities are distinct; the recorded maximum is absent, [NaN] or
    a number from 0, and while its successor is a safe integer no number
    among the identities is above it. *)
Definition p_fresh (ps : pstate) : Prop :=
  NoDup (p_ids ps) ∧
  (p_meta ps !! "maxId" = None ∨ p_meta ps !! "maxId" = Some VNaN ∨
   ∃ m, p_meta ps !! "maxId" = Some (VNum m) ∧ (0 ≤ m)%Z) ∧
  (∀ m, p_cur ps = Some m → safe_integer (m + 1) = true →
        ∀ n, VNum n ∈ p_ids ps → (n ≤ m)%Z).

(** The keys of the rows are the keys of the identities. *)
Definition p_keys (ps : pstate) : Prop :=
  ∀ k, is_Some (p_rows ps !! k) ↔ k ∈ to_key <$> p_ids ps.

End PureInv.

Import PureInv.

Module PureTree.

(** The values of the rows, of [meta] and of the identity list are not
    objects. *)
Definition p_scalar (ps : pstate) : Prop :=
  (∀ k row f v, p_rows ps !! k = Some row → row !! f = Some v →
                is_ref v = false) ∧
  (∀ k v, p_meta ps !! k = Some v → is_ref v = false) ∧
  (∀ id, id ∈ p_ids ps → is_ref id = false).

Section Tree.

Variable t : Table.

(** The value of a branch as [snapshot] shows it. *)
Definition p_tree (ps : pstate) : tree :=
  TObj (<["__indexes" :=
            TObj ((λ fi : gmap string (list val),
                     TObj ((λ bucket, TArr (TVal <$> bucket)) <$> fi))
                  <$> p_idx ps)]>
       (<["meta" := TObj (TVal <$> p_meta ps)]>
       (<[mapName t :=
            TObj ((λ row : gmap string val, TObj (TVal <$> row))
                  <$> p_rows ps)]>
       (<[arrName t := TArr (TVal <$> p_ids ps)]> ∅)))).

End Tree.
End PureTree.

Import PureTree.

Module PureMore.

(** The operation under the transaction [x]. *)
Definition with_tx (x : tx) (o : op) : op :=
  match o with
  | OpInsert _ entry => OpInsert x entry
  | OpUpdate _ ids mergeObj => OpUpdate x ids mergeObj
  | OpDelete _ ids => OpDelete x ids
  end.

Section Pure.

Variable str_to_number : string → option Z.
Variable t : Table.

(** Every entry, at its turn, names an identity that is not in the
    collection, or none while the recorded maximum is safe. *)
Fixpoint supplied_ok (entries : list (gmap string val)) (ps : pstate) : bool :=
  match entries with
  | [] => true
  | e :: es =>
      fresh_ok t e ps && supplied_ok es (p_insert str_to_number t e ps)
  end.

(** The identities of the rows that inserting [entries] creates, from the
    recorded maximum [cur]. *)
Fixpoint next_ids (cur : val) (entries : list (gmap string val)) : list val :=
  match entries with
  | [] => []
  | e :: es =>
      let r := idSequencer str_to_number cur
                 (default VUndef (e !! idAttribute t)) in
      (if bool_decide (is_Some (e !! idAttribute t))
       then default VUndef (e !! idAttribute t) else r.2)
      :: next_ids r.1 es
  end.

(** The buckets of the unique fields hold at most one identity, the
    bucket of [null] apart. *)
Definition uniq_ok (ps : pstate) : Prop :=
  ∀ f k, isUnique (field_opts t f) = true → k ≠ "null" →
         (length (p_bucket ps f k) ≤ 1)%nat.

End Pure.
End PureMore.

Import PureMore.

Module Examples.

(** A table with an indexed field [f] and a unique field [u]. *)
Definition shelf : Table :=
  DEFAULT_OPTS [("f", FieldOpts true false); ("u", FieldOpts false true)].

Definition mutating : tx := Tx None true.
Definition copying : tx := Tx None false.

Definition object (props : list (string * val)) : gmap string val :=
  list_to_map props.

(** lodash stand-ins for queries that never reach them. *)
Definition no_rows : heap → rows → payload → list val := λ _ _ _, [].

(** Two rows with different values of [f], then the first row takes the
    value of the second. *)
Definition retitle (x : tx) : list op :=
  [OpInsert x (object [("f", VStr "a")]);
   OpInsert x (object [("f", VStr "b")]);
   OpUpdate x [VNum 0] [("f", VStr "b")]].

(** The buckets of ["a"] and ["b"] and the value of [f] in row 0, after
    [ops]. *)
Definition observe_f (ops : list op) : M (list val * list val * val) :=
  let* b := run decimal_to_number shelf ops in
  let* la := getIdListByIndex b "f" (VStr "a") in
  let* lb := getIdListByIndex b "f" (VStr "b") in
  let* r := accessId shelf b (VNum 0) in
  let* v := get_prop r "f" in
  ret (la, lb, v).

(** The identity list after [ops]. *)
Definition observe_ids (ops : list op) : M (list val) :=
  let* b := run decimal_to_number shelf ops in
  accessIdList shelf b.

(** The bucket of [v] in the unique field [u] after [ops]. *)
Definition observe_u (ops : list op) (v : val) : M (list val) :=
  let* b := run decimal_to_number shelf ops in
  getIdListByIndex b "u" v.

(** The identity of the record a query returns after three inserts. *)
Definition observe_query (clauses : list clause) : M val :=
  let* b := run decimal_to_number shelf
              [OpInsert copying ∅; OpInsert copying ∅; OpInsert copying ∅] in
  let* r := query no_rows no_rows no_rows shelf b clauses in
  match r with
  | RBare row => get_prop row "id"
  | RList _ => ret VUndef
  end.

(** Two rows with different values of the unique field [u], the second
    made under a batch token; each takes the value of the other, without
    mutations; then the first row is deleted. *)
Definition renumber : list op :=
  [OpInsert copying (object [("u", VNum 1)]);
   OpInsert (Tx (Some 7%nat) false) (object [("u", VStr "b")]);
   OpUpdate copying [VNum 0] [("u", VStr "b")];
   OpUpdate (Tx (Some 7%nat) false) [VNum 1] [("u", VNum 1)];
   OpDelete mutating [VNum 0]].

(** Three inserts and a delete of two of the rows. *)
Definition restock : list op :=
  [OpInsert copying (object [("f", VStr "a"); ("u", VNum 1)]);
   OpInsert copying (object [("f", VStr "a"); ("id", VNum 4)]);
   OpInsert copying (object [("f", VStr "b"); ("u", VNull)]);
   OpDelete copying [VNum 4; VNum 0]].

(** Two rows without a value for the unique field. *)
Definition two_nulls : list op :=
  [OpInsert copying (object [("u", VNull)]);
   OpInsert copying (object [("u", VNull)])].

(** A branch with two rows left, and an entry to insert into it. *)
Definition stocked : M (val * val) :=
  let* b := run decimal_to_number shelf restock in
  let* e := new_object (object [("f", VStr "c")]) in
  ret (b, e).

(** Three rows with the identities 0, 1 and 2. *)
Definition three_rows : M val :=
  run decimal_to_number shelf
    [OpInsert copying (object [("f", VStr "a")]);
     OpInsert copying (object [("f", VStr "b")]);
     OpInsert copying (object [("f", VStr "a")])].

Definition by_id (k : Z) : clause := Clause FILTER (PObject [("id", VNum k)]).

End Examples.

Import Examples.

(** * Facts *)

Module MonadFacts.

Lemma bind_Some {A B} (m : M A) (f : A → M B) h r :
  bind m f h = Some r ↔ ∃ a h1, m h = Some (a, h1) ∧ f a h1 = Some r.
Proof.
  unfold bind. destruct (m h) as [[a h1]|]; split.
  - intros H. eauto.
  - intros (a' & h1' & [= <- <-] & H). done.
  - done.
  - intros (? & ? & ? & ?). done.
Qed.

Lemma ret_Some {A} (a : A) h r : ret a h = Some r ↔ r = (a, h).
Proof. unfold ret. split; [by intros [= <-]|by intros ->]. Qed.

Lemma throw_Some {A} h (r : A * heap) : throw h = Some r ↔ False.
Proof. done. Qed.

(** Takes a successful computation apart at its outermost bind. *)
Ltac mstep H :=
  let a := fresh "a" in
  let h := fresh "h" in
  let H1 := fresh "Hstep" in
  apply bind_Some in H as (a & h & H1 & H).

Ltac mret H := apply ret_Some in H; try (injection H as ? ?); simplify_eq.

Lemma read_cell_Some v h c h' :
  read_cell v h = Some (c, h') ↔ ∃ l, v = VRef l ∧ h !! l = Some c ∧ h' = h.
Proof.
  unfold read_cell. destruct v; try (split; [done|by intros (? & ? & _)]).
  destruct (h !! l) as [c'|] eqn:E; simpl; split.
  - intros [= <- <-]. eauto.
  - intros (l' & [= <-] & H & ->). by simplify_eq.
  - done.
  - intros (l' & [= <-] & H & ->). by simplify_eq.
Qed.

Lemma read_obj_Some v h m h' :
  read_obj v h = Some (m, h') ↔
  ∃ l o, v = VRef l ∧ h !! l = Some (Cell o (BObj m)) ∧ h' = h.
Proof.
  unfold read_obj. rewrite bind_Some. split.
  - intros (c & h1 & Hc & H). apply read_cell_Some in Hc as (l & -> & Hl & ->).
    destruct c as [o [m'|]]; simpl in H; [|done].
    apply ret_Some in H as [= <- <-]. eauto.
  - intros (l & o & -> & Hl & ->). exists (Cell o (BObj m)), h.
    split; [|done]. apply read_cell_Some. eauto.
Qed.

Lemma read_arr_Some v h vs h' :
  read_arr v h = Some (vs, h') ↔
  ∃ l o, v = VRef l ∧ h !! l = Some (Cell o (BArr vs)) ∧ h' = h.
Proof.
  unfold read_arr. rewrite bind_Some. split.
  - intros (c & h1 & Hc & H). apply read_cell_Some in Hc as (l & -> & Hl & ->).
    destruct c as [o [|vs']]; simpl in H; [done|].
    apply ret_Some in H as [= <- <-]. eauto.
  - intros (l & o & -> & Hl & ->). exists (Cell o (BArr vs)), h.
    split; [|done]. apply read_cell_Some. eauto.
Qed.

Lemma get_prop_Some v k h r h' :
  get_prop v k h = Some (r, h') ↔
  ∃ l o m, v = VRef l ∧ h !! l = Some (Cell o (BObj m)) ∧
           r = default VUndef (m !! k) ∧ h' = h.
Proof.
  unfold get_prop. rewrite bind_Some. split.
  - intros (m & h1 & Hm & H). apply read_obj_Some in Hm as (l & o & -> & Hl & ->).
    apply ret_Some in H. simplify_eq. eauto 10.
  - intros (l & o & m & -> & Hl & Hr & ->). subst r. exists m, h. split; [|done].
    apply read_obj_Some. eauto.
Qed.

Lemma has_own_Some v k h r h' :
  has_own v k h = Some (r, h') ↔
  ∃ l o m, v = VRef l ∧ h !! l = Some (Cell o (BObj m)) ∧
           r = bool_decide (is_Some (m !! k)) ∧ h' = h.
Proof.
  unfold has_own. rewrite bind_Some. split.
  - intros (m & h1 & Hm & H). apply read_obj_Some in Hm as (l & o & -> & Hl & ->).
    apply ret_Some in H. simplify_eq. eauto 10.
  - intros (l & o & m & -> & Hl & Hr & ->). subst r. exists m, h. split; [|done].
    apply read_obj_Some. eauto.
Qed.

Lemma write_body_Some v b h u h' :
  write_body v b h = Some (u, h') ↔
  ∃ l c, v = VRef l ∧ h !! l = Some c ∧ h' = <[l := Cell (owner c) b]> h.
Proof.
  unfold write_body. rewrite bind_Some. split.
  - intros (c & h1 & Hc & H). apply read_cell_Some in Hc as (l & -> & Hl & ->).
    injection H as <- <-. eauto.
  - intros (l & c & -> & Hl & ->). exists c, h. split.
    + apply read_cell_Some. eauto.
    + by destruct u.
Qed.

Lemma alloc_Some c h v h' :
  alloc c h = Some (v, h') →
  ∃ l, v = VRef l ∧ h !! l = None ∧ h' = <[l := c]> h.
Proof.
  unfold alloc. intros [= <- <-]. eexists. split_and!; [done| |done].
  apply not_elem_of_dom, is_fresh.
Qed.

Lemma canMutate_Some v tok h r h' :
  canMutate v tok h = Some (r, h') →
  h' = h ∧
  (r = true → ∃ l c, v = VRef l ∧ h !! l = Some c ∧ owned_by tok c = true).
Proof.
  unfold canMutate. destruct tok as [t|].
  - rewrite bind_Some. intros (c & h1 & Hc & H).
    apply read_cell_Some in Hc as (l & -> & Hl & ->).
    apply ret_Some in H. simplify_eq. split; [done|].
    intros Hd. exists l, c. simpl. eauto.
  - intros H. apply ret_Some in H. simplify_eq. done.
Qed.

End MonadFacts.

Import MonadFacts.

Module Frame.

Section Frame.

Variable ownerID : option token.
(** The store at the start of the operation. *)
Variable h0 : heap.

Local Abbreviation writable := (FrameDefs.writable ownerID h0).
Local Abbreviation safe := (FrameDefs.safe ownerID h0).

Lemma safe_ret {A} (a : A) (Q : A → Prop) : Q a → safe (ret a) Q.
Proof. intros HQ h r h' Hp H. apply ret_Some in H. by simplify_eq. Qed.

Lemma safe_throw {A} (Q : A → Prop) : safe throw Q.
Proof. intros h r h' Hp H. done. Qed.

Lemma safe_bind {A B} (c : M A) (k : A → M B) (Q : A → Prop) (R : B → Prop) :
  safe c Q → (∀ a, Q a → safe (k a) R) → safe (bind c k) R.
Proof.
  intros Hc Hk h r h' Hp H. apply bind_Some in H as (a & h1 & H1 & H2).
  destruct (Hc _ _ _ Hp H1) as [Hp1 HQ]. by eapply Hk.
Qed.

Lemma safe_weaken {A} (c : M A) (Q Q' : A → Prop) :
  safe c Q → (∀ a, Q a → Q' a) → safe c Q'.
Proof. intros Hc HQ h r h' Hp H. destruct (Hc _ _ _ Hp H). eauto. Qed.

Lemma safe_pure {A} (c : M A) :
  (∀ h r h', c h = Some (r, h') → h' = h) → safe c (λ _, True).
Proof. intros Hc h r h' Hp H. apply Hc in H as ->. done. Qed.

Lemma safe_read_cell v : safe (read_cell v) (λ _, True).
Proof. apply safe_pure. intros h r h' H. apply read_cell_Some in H as (? & ? & ? & ?). done. Qed.

Lemma safe_read_obj v : safe (read_obj v) (λ _, True).
Proof. apply safe_pure. intros h r h' H. apply read_obj_Some in H as (? & ? & ? & ? & ?). done. Qed.

Lemma safe_read_arr v : safe (read_arr v) (λ _, True).
Proof. apply safe_pure. intros h r h' H. apply read_arr_Some in H as (? & ? & ? & ? & ?). done. Qed.

Lemma safe_get_prop v k : safe (get_prop v k) (λ _, True).
Proof. apply safe_pure. intros h r h' H. apply get_prop_Some in H as (? & ? & ? & ? & ? & ? & ?). done. Qed.

Lemma safe_has_own v k : safe (has_own v k) (λ _, True).
Proof. apply safe_pure. intros h r h' H. apply has_own_Some in H as (? & ? & ? & ? & ? & ? & ?). done. Qed.

Lemma safe_canMutate v :
  safe (canMutate v ownerID) (λ r, r = true → writable v).
Proof.
  intros h r h' Hp H. apply canMutate_Some in H as [-> Hr]. split; [done|].
  intros Ht. destruct (Hr Ht) as (l & c & -> & Hl & Hown).
  intros c0 Hc0. destruct (owned_by ownerID c0) eqn:Ho; [done|].
  rewrite (Hp _ _ Hc0 Ho) in Hl. simplify_eq. congruence.
Qed.

Lemma safe_alloc c : safe (alloc c) writable.
Proof.
  intros h r h' Hp H. apply alloc_Some in H as (l & -> & Hl & ->). split.
  - intros l' c' Hc' Ho. rewrite lookup_insert_ne.
    + by apply Hp.
    + intros ->. rewrite (Hp _ _ Hc' Ho) in Hl. done.
  - intros c0 Hc0. destruct (owned_by ownerID c0) eqn:Ho; [done|].
    rewrite (Hp _ _ Hc0 Ho) in Hl. done.
Qed.

Lemma safe_write_body v b : writable v → safe (write_body v b) (λ _, True).
Proof.
  intros Hw h r h' Hp H. apply write_body_Some in H as (l & c & -> & Hl & ->).
  split; [|done]. intros l' c' Hc' Ho.
  rewrite lookup_insert_ne.
  - by apply Hp.
  - intros ->. rewrite (Hw _ Hc') in Ho. done.
Qed.

Lemma safe_foldM {A B} (f : A → B → M A) (Q : A → Prop) (l : list B) (a : A) :
  (∀ a b, Q a → safe (f a b) Q) → Q a → safe (foldM f a l) Q.
Proof.
  intros Hf. revert a. induction l as [|b l IH]; intros a Ha; simpl.
  - by apply safe_ret.
  - eapply safe_bind; [by apply Hf|]. intros a' Ha'. by apply IH.
Qed.

Lemma safe_mapM {A B} (f : A → M B) (l : list A) :
  (∀ a, safe (f a) (λ _, True)) → safe (mapM f l) (λ _, True).
Proof.
  intros Hf. induction l as [|a l IH]; simpl.
  - by apply safe_ret.
  - eapply safe_bind; [apply Hf|]. intros b _.
    eapply safe_bind; [apply IH|]. intros bs _. by apply safe_ret.
Qed.

(** Symbolic execution of a computation built from the primitives. *)
Ltac safe_step :=
  lazymatch goal with
  | |- safe _ _ (bind _ _) _ => eapply safe_bind
  | |- safe _ _ (ret _) _ => apply safe_ret
  | |- safe _ _ throw _ => apply safe_throw
  | |- safe _ _ (read_obj _) _ => apply safe_read_obj
  | |- safe _ _ (read_arr _) _ => apply safe_read_arr
  | |- safe _ _ (read_cell _) _ => apply safe_read_cell
  | |- safe _ _ (get_prop _ _) _ => apply safe_get_prop
  | |- safe _ _ (has_own _ _) _ => apply safe_has_own
  | |- safe _ _ (canMutate _ _) _ => apply safe_canMutate
  | |- safe _ _ (alloc _) _ => apply safe_alloc
  | |- safe _ _ (write_body _ _) _ => apply safe_write_body
  | |- safe _ _ (if ?b then _ else _) _ => destruct b eqn:?
  | |- safe _ _ (match ?b with _ => _ end) _ => destruct b eqn:?
  end.

Lemma safe_mutable_set k v obj :
  writable obj → safe (mutable_set k v obj) (λ r, r = obj).
Proof.
  intros Hw. unfold mutable_set.
  eapply safe_bind; [apply safe_read_obj|]. intros m _.
  eapply safe_bind; [by apply safe_write_body|]. intros _ _.
  by apply safe_ret.
Qed.

Lemma safe_mutable_push x arr :
  writable arr → safe (mutable_push x arr) (λ r, r = arr).
Proof.
  intros Hw. unfold mutable_push.
  eapply safe_bind; [apply safe_read_arr|]. intros m _.
  eapply safe_bind; [by apply safe_write_body|]. intros _ _.
  by apply safe_ret.
Qed.

Lemma safe_mutable_filter f arr :
  writable arr → safe (mutable_filter f arr) (λ r, r = arr).
Proof.
  intros Hw. unfold mutable_filter.
  eapply safe_bind; [apply safe_read_arr|]. intros m _.
  eapply safe_bind; [by apply safe_write_body|]. intros _ _.
  by apply safe_ret.
Qed.

Lemma safe_mutable_merge mo obj :
  writable obj → safe (mutable_merge mo obj) (λ r, r = obj).
Proof.
  intros Hw. unfold mutable_merge.
  eapply safe_bind; [apply safe_read_obj|]. intros m _.
  eapply safe_bind; [by apply safe_write_body|]. intros _ _.
  by apply safe_ret.
Qed.

Lemma safe_mutable_omit ks obj :
  writable obj → safe (mutable_omit ks obj) (λ r, r = obj).
Proof.
  intros Hw. unfold mutable_omit.
  eapply safe_bind; [apply safe_read_obj|]. intros m _.
  eapply safe_bind; [by apply safe_write_body|]. intros _ _.
  by apply safe_ret.
Qed.

Lemma safe_batch_push x arr : safe (batch_push ownerID x arr) (λ _, True).
Proof.
  unfold batch_push. eapply safe_bind; [apply safe_canMutate|].
  intros [] Hw.
  - eapply safe_weaken; [apply safe_mutable_push; auto|done].
  - eapply safe_bind; [apply safe_read_arr|]. intros l _.
    eapply safe_weaken; [apply safe_alloc|done].
Qed.

Lemma safe_batch_filter f arr : safe (batch_filter ownerID f arr) (λ _, True).
Proof.
  unfold batch_filter. eapply safe_bind; [apply safe_canMutate|].
  intros [] Hw.
  - eapply safe_weaken; [apply safe_mutable_filter; auto|done].
  - eapply safe_bind; [apply safe_read_arr|]. intros l _.
    destruct (_ =? _)%nat; [by apply safe_ret|].
    eapply safe_weaken; [apply safe_alloc|done].
Qed.

Lemma safe_batch_set k v obj : safe (batch_set ownerID k v obj) (λ _, True).
Proof.
  unfold batch_set. eapply safe_bind; [apply safe_canMutate|].
  intros [] Hw.
  - eapply safe_weaken; [apply safe_mutable_set; auto|done].
  - eapply safe_bind; [apply safe_read_obj|]. intros m _.
    destruct (strict_eq _ _); [by apply safe_ret|].
    eapply safe_weaken; [apply safe_alloc|done].
Qed.

Lemma safe_batch_merge mo obj : safe (batch_merge ownerID mo obj) (λ _, True).
Proof.
  unfold batch_merge. eapply safe_bind; [apply safe_canMutate|].
  intros [] Hw.
  - eapply safe_weaken; [apply safe_mutable_merge; auto|done].
  - eapply safe_bind; [apply safe_read_obj|]. intros m _.
    destruct (foldl _ _ _) as [[] next]; [|by apply safe_ret].
    eapply safe_weaken; [apply safe_alloc|done].
Qed.

Lemma safe_batch_omit ks obj : safe (batch_omit ownerID ks obj) (λ _, True).
Proof.
  unfold batch_omit. eapply safe_bind; [apply safe_canMutate|].
  intros [] Hw.
  - eapply safe_weaken; [apply safe_mutable_omit; auto|done].
  - eapply safe_bind; [apply safe_read_obj|]. intros m _.
    destruct (List.filter _ _); [by apply safe_ret|].
    eapply safe_weaken; [apply safe_alloc|done].
Qed.

Lemma safe_own_copy obj : safe (own_copy ownerID obj) writable.
Proof.
  unfold own_copy. eapply safe_bind; [apply safe_canMutate|].
  intros [] Hw.
  - apply safe_ret. auto.
  - eapply safe_bind; [apply safe_read_cell|]. intros c _. apply safe_alloc.
Qed.

Lemma safe_batch_setIn_from path v acc :
  writable acc → safe (batch_setIn_from ownerID path v acc) (λ _, True).
Proof.
  revert acc. induction path as [|curr rest IH]; intros acc Hw; simpl.
  - by apply safe_ret.
  - destruct rest as [|next rest].
    + eapply safe_bind; [by apply safe_mutable_set|]. intros _ _. by apply safe_ret.
    + eapply safe_bind; [apply safe_get_prop|]. intros nxt _.
      eapply safe_bind with (Q := writable); [|intros a Ha; by apply IH].
      destruct (is_undefined nxt).
      * eapply safe_bind; [apply safe_alloc|]. intros newObj Hn.
        eapply safe_bind; [by apply safe_mutable_set|]. intros _ _.
        by apply safe_ret.
      * eapply safe_bind; [apply safe_canMutate|]. intros [] Hc.
        -- apply safe_ret. auto.
        -- eapply safe_bind; [apply safe_own_copy|]. intros newObj Hn.
           eapply safe_bind; [by apply safe_mutable_set|]. intros _ _.
           by apply safe_ret.
Qed.

Lemma safe_getIn path obj : safe (getIn path obj) (λ _, True).
Proof.
  revert obj. induction path as [|curr rest IH]; intros obj; simpl.
  - by apply safe_ret.
  - destruct obj; try by apply safe_ret.
    eapply safe_bind; [apply safe_get_prop|]. intros nxt _.
    destruct (is_undefined nxt); [by apply safe_ret|apply IH].
Qed.

Lemma safe_batch_setIn path v obj :
  safe (batch_setIn ownerID path v obj) (λ _, True).
Proof.
  unfold batch_setIn. eapply safe_bind; [apply safe_getIn|]. intros cur _.
  destruct (strict_eq v cur); [by apply safe_ret|].
  eapply safe_bind; [apply safe_own_copy|]. intros root Hr.
  eapply safe_bind; [by apply safe_batch_setIn_from|]. intros _ _.
  by apply safe_ret.
Qed.

(** The table operations under [withMutations = false]. *)
Section TableOps.

Variable str_to_number : string → option Z.
Variable t : Table.
Variable x : tx.
Hypothesis Hown : batchToken x = ownerID.
Hypothesis Hcow : withMutations x = false.

Lemma safe_setMeta branch key v : safe (setMeta x branch key v) (λ _, True).
Proof. unfold setMeta. rewrite Hcow, Hown. apply safe_batch_setIn. Qed.

Lemma safe_insertToIndex branch id opts f v :
  safe (insertToIndex x branch id opts f v) (λ _, True).
Proof.
  unfold insertToIndex. rewrite Hcow, Hown.
  eapply safe_bind; [apply safe_get_prop|]. intros indexes _.
  eapply safe_bind; [apply safe_get_prop|]. intros fieldIndex _.
  eapply safe_bind with (Q := λ _, True).
  { destruct (truthy fieldIndex); [apply safe_get_prop|by apply safe_ret]. }
  intros valueIndex _.
  eapply safe_bind with (Q := λ _, True); [|intros; apply safe_batch_setIn].
  destruct (_ && _).
  - eapply safe_weaken; [apply safe_alloc|done].
  - eapply safe_bind with (Q := λ _, True); [|intros; apply safe_batch_push].
    destruct (truthy valueIndex); [by apply safe_ret|].
    eapply safe_weaken; [apply safe_alloc|done].
Qed.

Lemma safe_deleteFromIndex branch id opts f v :
  safe (deleteFromIndex x branch id opts f v) (λ _, True).
Proof.
  unfold deleteFromIndex. rewrite Hcow, Hown.
  eapply safe_bind; [apply safe_get_prop|]. intros indexes _.
  eapply safe_bind; [apply safe_get_prop|]. intros fieldIndex _.
  destruct (_ && _).
  - eapply safe_bind; [apply safe_batch_omit|]. intros omitted _.
    eapply safe_bind; [apply safe_batch_merge|]. intros merged _.
    apply safe_batch_merge.
  - eapply safe_bind; [apply safe_get_prop|]. intros bucket _.
    eapply safe_bind; [apply safe_batch_filter|]. intros filtered _.
    eapply safe_bind; [apply safe_batch_merge|]. intros field _.
    eapply safe_bind; [apply safe_batch_merge|]. intros merged _.
    apply safe_batch_merge.
Qed.

Lemma safe_insert branch entry :
  safe (insert str_to_number t x branch entry) (λ _, True).
Proof.
  unfold insert, getMaxId, getMeta, setMaxId. rewrite Hcow, Hown.
  eapply safe_bind; [apply safe_has_own|]. intros hasId _.
  eapply safe_bind with (Q := λ _, True).
  { eapply safe_bind; [apply safe_get_prop|]. intros; apply safe_get_prop. }
  intros currMax _.
  eapply safe_bind; [apply safe_get_prop|]. intros userPassedId _.
  destruct (idSequencer _ _ _) as [newMaxId id].
  eapply safe_bind; [apply safe_setMeta|]. intros ws _.
  eapply safe_bind with (Q := λ _, True).
  { destruct hasId; [by apply safe_ret|apply safe_batch_set]. }
  intros finalEntry _.
  eapply safe_bind with (Q := λ _, True).
  { apply safe_foldM; [|done]. intros ws' f _.
    eapply safe_bind; [apply safe_get_prop|]. intros; apply safe_insertToIndex. }
  intros ws' _.
  eapply safe_bind; [apply safe_get_prop|]. intros arr _.
  eapply safe_bind; [apply safe_batch_push|]. intros newArr _.
  eapply safe_bind; [apply safe_get_prop|]. intros map _.
  eapply safe_bind; [apply safe_batch_merge|]. intros newMap _.
  eapply safe_bind; [apply safe_batch_merge|]. intros nextState _.
  by apply safe_ret.
Qed.

Lemma safe_update branch rows mergeObj :
  safe (update t x branch rows mergeObj) (λ _, True).
Proof.
  unfold update. rewrite Hcow, Hown.
  eapply safe_bind; [apply safe_get_prop|]. intros map _.
  eapply safe_bind with (Q := λ _, True).
  { apply safe_foldM; [|done]. intros map' row _.
    eapply safe_bind; [apply safe_batch_merge|]. intros result _.
    eapply safe_bind; [apply safe_get_prop|]. intros resultId _.
    apply safe_batch_set. }
  intros newMap _.
  eapply safe_bind; [apply safe_batch_set|]. intros ws _.
  apply safe_foldM; [|done]. intros ws' f _.
  apply safe_foldM; [|done]. intros ws'' row _.
  eapply safe_bind; [apply safe_get_prop|]. intros rowId _.
  eapply safe_bind; [apply safe_get_prop|]. intros rowValue _.
  eapply safe_bind; [apply safe_deleteFromIndex|]. intros ws3 _.
  eapply safe_bind; [apply safe_batch_merge|]. intros result _.
  eapply safe_bind; [apply safe_get_prop|]. intros resultId _.
  eapply safe_bind; [apply safe_get_prop|]. intros resultValue _.
  apply safe_insertToIndex.
Qed.

Lemma safe_delete branch rows : safe (delete t x branch rows) (λ _, True).
Proof.
  unfold delete. rewrite Hcow, Hown.
  eapply safe_bind; [apply safe_get_prop|]. intros arr _.
  eapply safe_bind with (Q := λ _, True).
  { apply safe_foldM; [|done]. intros br f _.
    apply safe_foldM; [|done]. intros br' row _.
    eapply safe_bind; [apply safe_get_prop|]. intros rowId _.
    eapply safe_bind; [apply safe_get_prop|]. intros rowValue _.
    apply safe_deleteFromIndex. }
  intros br _.
  eapply safe_bind with (Q := λ _, True).
  { apply safe_mapM. intros row. apply safe_get_prop. }
  intros idsToDelete _.
  eapply safe_bind; [apply safe_get_prop|]. intros ids _.
  eapply safe_bind; [apply safe_batch_filter|]. intros newArr _.
  eapply safe_bind; [apply safe_get_prop|]. intros map _.
  eapply safe_bind; [apply safe_batch_omit|]. intros newMap _.
  apply safe_batch_merge.
Qed.

End TableOps.

End Frame.

Lemma preserves_refl ownerID h : preserves ownerID h h.
Proof. by intros l c Hl _. Qed.

(** What is reachable through untagged objects reads the same in a store
    that preserves them. *)
Lemma deep_preserved ownerID h h' depth v :
  preserves ownerID h h' → untagged ownerID h depth v = true →
  deep h' depth v = deep h depth v.
Proof.
  intros Hp. revert v. induction depth as [|d IH]; intros v Hu; [done|].
  simpl in *. destruct v as [| | | | | |l]; try done.
  destruct (h !! l) as [c|] eqn:Hl; [|done].
  apply andb_true_iff in Hu as [Ho Hc]. apply negb_true_iff in Ho.
  rewrite (Hp _ _ Hl Ho).
  destruct c as [o [m|vs]]; simpl in *.
  - apply bool_decide_eq_true in Hc.
    f_equal. apply map_fmap_ext. intros k v' Hk. apply IH. by eapply Hc.
  - f_equal. apply Forall_fmap_ext. apply Forall_forall. intros v' Hv'.
    apply IH. rewrite forallb_forall in Hc. apply Hc.
    by apply list_elem_of_In.
Qed.

End Frame.

Import Frame.

Import Frame.

Module SchemaFacts.

Section Facts.

Variable m2mName : string → string → string.
Variable m2mFromFieldName : string → string.
Variable m2mToFieldName : string → string.

Local Abbreviation throughModelFor := (throughModelFor m2mName m2mFromFieldName m2mToFieldName).
Local Abbreviation registerManyToManyModelsFor :=
  (registerManyToManyModelsFor m2mName m2mFromFieldName m2mToFieldName).
Local Abbreviation register := (register m2mName m2mFromFieldName m2mToFieldName).

Local Abbreviation throughModelsOf :=
  (throughModelsOf m2mName m2mFromFieldName m2mToFieldName).

Lemma registerManyToMany_fold (fs : list (string * field)) (name : string) (s : Schema) :
  foldl (λ s f,
           match throughModelFor name f.1 f.2 with
           | Some Through =>
               MkSchema (registry s) (implicitThroughModels s ++ [Through])
           | None => s
           end) s fs
  = MkSchema (registry s)
      (implicitThroughModels s ++ omap (λ f, throughModelFor name f.1 f.2) fs).
Proof.
  revert s. induction fs as [|f fs IH]; intros s; simpl.
  - rewrite app_nil_r. by destruct s.
  - rewrite IH. destruct (throughModelFor name f.1 f.2); simpl.
    + by rewrite <- app_assoc.
    + done.
Qed.

Lemma registerManyToManyModelsFor_spec (s : Schema) (model : Model) :
  registerManyToManyModelsFor s model
  = MkSchema (registry s) (implicitThroughModels s ++ throughModelsOf model).
Proof. apply registerManyToMany_fold. Qed.

Lemma register_spec (models : list Model) (s : Schema) :
  register s models
  = MkSchema (registry s ++ models)
      (implicitThroughModels s ++ concat (throughModelsOf <$> models)).
Proof.
  revert s. induction models as [|m ms IH]; intros s; simpl.
  - rewrite !app_nil_r. by destruct s.
  - unfold register in *. simpl. rewrite IH.
    rewrite registerManyToManyModelsFor_spec. simpl.
    by rewrite <- !app_assoc.
Qed.

Lemma throughModelsOf_fields (model : Model) :
  Forall2 (λ f T,
             modelName T = m2mName (modelName model) f.1 ∧
             mfields T =
               literal2 (m2mFromFieldName (modelName model))
                 (ForeignKey (modelName model))
                 (m2mToFieldName (resolveTarget (modelName model) f.2))
                 (ForeignKey (resolveTarget (modelName model) f.2)))
          (manyToManyFields model) (throughModelsOf model).
Proof.
  unfold manyToManyFields, throughModelsOf.
  induction (mfields model) as [|[fname fi] fs IH]; simpl; [constructor|].
  destruct fi; simpl; try done.
  constructor; [|done]. done.
Qed.

End Facts.

Section Get.
Variable s : Schema.
Variable name : string.

Lemma find_name_spec (l : list Model) :
  match List.find (λ model, String.eqb (modelName model) name) l with
  | Some m => ∃ before after, l = before ++ m :: after ∧ modelName m = name ∧
                Forall (λ m', modelName m' ≠ name) before
  | None => Forall (λ m', modelName m' ≠ name) l
  end.
Proof.
  induction l as [|m l IH]; simpl; [constructor|].
  destruct (String.eqb_spec (modelName m) name) as [Heq|Hne].
  - exists [], l. split_and!; [done|done|constructor].
  - destruct (List.find _ l) as [m'|].
    + destruct IH as (before & after & -> & Hn & Hb).
      exists (m :: before), after. split_and!; [done|done|by constructor].
    + by constructor.
Qed.

Lemma get_spec :
  match get s name with
  | Found m =>
      ∃ before after,
        registry s ++ implicitThroughModels s = before ++ m :: after ∧
        modelName m = name ∧
        Forall (λ m', modelName m' ≠ name) before
  | NotFound _ => True
  end ∧
  ((∃ message, get s name = NotFound message) ↔
   ¬ ∃ m, m ∈ registry s ++ implicitThroughModels s ∧ modelName m = name).
Proof.
  unfold get. pose proof (find_name_spec (registry s ++ implicitThroughModels s)) as H.
  destruct (List.find _ _) as [m|].
  - split; [done|]. split.
    + intros [? ?]. done.
    + intros Hno. exfalso. apply Hno. destruct H as (b & a & Heq & Hn & _).
      exists m. split; [|done]. rewrite Heq. set_solver.
  - split; [done|]. split.
    + intros _ (m & Hin & Hn). rewrite Forall_forall in H. by apply (H m).
    + intros _. eauto.
Qed.
End Get.
End SchemaFacts.

Import SchemaFacts.

Module AbstractFacts.

Lemma fupd_eq {A} r (a : A) f : fupd r a f r = a.
Proof. unfold fupd. by rewrite decide_True. Qed.

Lemma fupd_ne {A} r r' (a : A) f : r' ≠ r → fupd r a f r' = f r'.
Proof. intros. unfold fupd. by rewrite decide_False. Qed.

Lemma owned_by_content tok o b b' :
  owned_by tok (Cell o b) = owned_by tok (Cell o b').
Proof. by destruct tok. Qed.

(** Writing the object of one role, in place or as a new object. *)
Lemma prepr_write tok h LOC CONT r l' o' b' :
  prepr tok h LOC CONT →
  (LOC r = Some l' ∧ (∃ b, h !! l' = Some (Cell o' b))) ∨
  (h !! l' = None ∧ (is_tmp r → owned_by tok (Cell o' b') = false)) →
  prepr tok (<[l' := Cell o' b']> h) (fupd r (Some l') LOC) (fupd r b' CONT).
Proof.
  intros [Hinj Hc] Hl'.
  assert (∀ r2, r2 ≠ r → LOC r2 ≠ Some l') as Hother.
  { intros r2 Hne H2. destruct Hl' as [[H1 _]|[Hfresh _]].
    - apply Hne. by eapply Hinj.
    - destruct (Hc _ _ H2) as (o & Ho & _). congruence. }
  split.
  - intros r1 r2 l. unfold fupd. repeat case_decide; subst; try done.
    + intros [= <-] H2. by destruct (Hother r2).
    + intros H1 [= <-]. by destruct (Hother r1).
    + apply Hinj.
  - intros r1 l. unfold fupd. case_decide; subst.
    + intros [= <-]. exists o'. rewrite lookup_insert_eq. split; [done|].
      intros Ht. destruct Hl' as [[H1 [b Hb]]|[_ Hfresh]]; [|by apply Hfresh].
      destruct (Hc _ _ H1) as (o & Ho & Hown). rewrite Hb in Ho.
      injection Ho as -> ->. rewrite <- (Hown Ht). apply owned_by_content.
    + intros H1. destruct (Hc _ _ H1) as (o & Ho & Hown). exists o.
      rewrite lookup_insert_ne; [done|]. intros <-. by destruct (Hother r1).
Qed.

Lemma prepr_ext tok h LOC CONT LOC' CONT' :
  prepr tok h LOC CONT →
  (∀ r, LOC' r = LOC r) →
  (∀ r, is_Some (LOC r) → CONT' r = CONT r) →
  prepr tok h LOC' CONT'.
Proof.
  intros [Hinj Hc] HL HC. split.
  - intros r1 r2 l. rewrite !HL. apply Hinj.
  - intros r l. rewrite HL. intros Hl. rewrite HC; [|by eexists]. by apply Hc.
Qed.

(** Forgetting the object of a role. *)
Lemma prepr_drop tok h LOC CONT r b :
  prepr tok h LOC CONT → prepr tok h (fupd r None LOC) (fupd r b CONT).
Proof.
  intros [Hinj Hc]. split.
  - intros r1 r2 l. unfold fupd. repeat case_decide; subst; try done. apply Hinj.
  - intros r1 l. unfold fupd. case_decide; [done|]. apply Hc.
Qed.

(** Giving the objects other roles. *)
Lemma prepr_relabel tok h LOC CONT LOC' CONT' :
  prepr tok h LOC CONT →
  (∀ r1 r2 l, LOC' r1 = Some l → LOC' r2 = Some l → r1 = r2) →
  (∀ r l, LOC' r = Some l →
     ∃ r0, LOC r0 = Some l ∧ CONT r0 = CONT' r ∧
           (is_tmp r → is_tmp r0 ∨
                       ∀ c, h !! l = Some c → owned_by tok c = false)) →
  prepr tok h LOC' CONT'.
Proof.
  intros [Hinj Hc] Hinj' Hsub. split; [done|].
  intros r l Hl. destruct (Hsub _ _ Hl) as (r0 & H0 & <- & Ht).
  destruct (Hc _ _ H0) as (o & Ho & Hown). exists o. split; [done|].
  intros Hr. destruct (Ht Hr) as [?|Hh]; [auto|by apply Hh].
Qed.

Lemma prepr_adopt tok h LOC CONT raux l r :
  prepr tok h LOC CONT → is_aux raux → LOC raux = Some l → ¬ is_aux r →
  prepr tok h (adopt r l LOC) (fupd r (CONT raux) CONT).
Proof.
  intros Hrep Haux Hl Hr. eapply prepr_relabel; [done|..].
  - destruct Hrep as [Hinj _]. intros r1 r2 l'. unfold adopt.
    repeat case_decide; subst; try done.
    + intros [= <-]. destruct (is_auxb r2) eqn:E; [done|]. intros H2.
      rewrite (Hinj _ _ _ H2 Hl) in E. by destruct raux.
    + destruct (is_auxb r1) eqn:E; [done|]. intros H1 [= <-].
      rewrite (Hinj _ _ _ H1 Hl) in E. by destruct raux.
    + destruct (is_auxb r1), (is_auxb r2); try done. apply Hinj.
  - intros r' l'. unfold adopt, fupd. case_decide; subst.
    + intros [= <-]. exists raux. split_and!; [done|done|]. by destruct r.
    + destruct (is_auxb r') eqn:E; [done|]. intros H'. exists r'.
      split_and!; [done|done|]. by destruct r'.
Qed.

Lemma adopt_aux r l LOC r' : ¬ is_aux r → is_aux r' → adopt r l LOC r' = None.
Proof.
  intros Hr Hr'. unfold adopt. case_decide; subst; [done|]. by destruct r'.
Qed.

Lemma adopt_eq r l LOC : adopt r l LOC r = Some l.
Proof. unfold adopt. by rewrite decide_True. Qed.

Lemma adopt_ne r l LOC r' :
  r' ≠ r → ¬ is_aux r' → adopt r l LOC r' = LOC r'.
Proof.
  intros Hne Hr'. unfold adopt. rewrite decide_False by done. by destruct r'.
Qed.

Lemma prepr_lookup tok h LOC CONT r l :
  prepr tok h LOC CONT → LOC r = Some l →
  ∃ o, h !! l = Some (Cell o (CONT r)) ∧
       (is_tmp r → owned_by tok (Cell o (CONT r)) = false).
Proof. intros [_ Hc]. apply Hc. Qed.

(** Without temporaries the tag does not matter. *)
Lemma prepr_tok tok tok' h LOC CONT :
  (∀ r, is_aux r → LOC r = None) →
  prepr tok h LOC CONT → prepr tok' h LOC CONT.
Proof.
  intros Hn [Hinj Hc]. split; [done|]. intros r l Hl.
  destruct (Hc _ _ Hl) as (o & Ho & _). exists o. split; [done|].
  destruct r; try done. by rewrite Hn in Hl.
Qed.

Section Root.
Variable t : Table.
Hypothesis Hok : table_ok t.

Lemma root_lookup_idx LOC : root_props t LOC !! "__indexes" = Some (ref_of LOC RIdx).
Proof. unfold root_props. by rewrite lookup_insert_eq. Qed.

Lemma root_lookup_meta LOC : root_props t LOC !! "meta" = Some (ref_of LOC RMeta).
Proof. unfold root_props. rewrite lookup_insert_ne; [|done]. by rewrite lookup_insert_eq. Qed.

Lemma root_lookup_map LOC : root_props t LOC !! mapName t = Some (ref_of LOC RMap).
Proof.
  destruct Hok as (? & ? & ? & ? & ?). unfold root_props.
  rewrite !lookup_insert_ne by done. by rewrite lookup_insert_eq.
Qed.

Lemma root_lookup_arr LOC : root_props t LOC !! arrName t = Some (ref_of LOC RArr).
Proof.
  destruct Hok as (? & ? & ? & ? & ?). unfold root_props.
  rewrite !lookup_insert_ne by done. by rewrite lookup_insert_eq.
Qed.

Lemma root_props_ext LOC LOC' :
  LOC' RArr = LOC RArr → LOC' RMap = LOC RMap → LOC' RMeta = LOC RMeta →
  LOC' RIdx = LOC RIdx → root_props t LOC' = root_props t LOC.
Proof. intros H1 H2 H3 H4. unfold root_props, ref_of. by rewrite H1, H2, H3, H4. Qed.

Lemma root_set_meta LOC l :
  <["meta" := VRef l]> (root_props t LOC) = root_props t (fupd RMeta (Some l) LOC).
Proof.
  unfold root_props.
  rewrite (insert_insert_ne _ "meta" "__indexes") by done.
  rewrite insert_insert_eq. unfold ref_of. rewrite fupd_eq.
  rewrite !fupd_ne by done. done.
Qed.

Lemma root_set_idx LOC l :
  <["__indexes" := VRef l]> (root_props t LOC) = root_props t (fupd RIdx (Some l) LOC).
Proof.
  unfold root_props. rewrite insert_insert_eq. unfold ref_of. rewrite fupd_eq.
  rewrite !fupd_ne by done. done.
Qed.

Lemma root_set_arr_map LOC la lm :
  <[mapName t := VRef lm]> (<[arrName t := VRef la]> (root_props t LOC))
  = root_props t (fupd RMap (Some lm) (fupd RArr (Some la) LOC)).
Proof.
  destruct Hok as (? & ? & ? & ? & ?). unfold root_props, ref_of.
  rewrite !fupd_eq. rewrite (fupd_ne RMap RArr) by done. rewrite fupd_eq.
  rewrite !fupd_ne by done.
  apply map_eq. intros i. rewrite !lookup_insert.
  repeat case_decide; subst; try done.
Qed.

End Root.

Lemma idx_props_lookup ps LOC f :
  (∀ f, is_Some (LOC (RField f)) ↔ is_Some (p_idx ps !! f)) →
  (∃ lf, idx_props ps LOC !! f = Some (VRef lf) ∧ LOC (RField f) = Some lf ∧
         is_Some (p_idx ps !! f)) ∨
  (idx_props ps LOC !! f = None ∧ p_idx ps !! f = None ∧ LOC (RField f) = None).
Proof.
  intros Hf. unfold idx_props. rewrite map_lookup_imap.
  destruct (p_idx ps !! f) as [fi|] eqn:E; simpl.
  - left. destruct (proj2 (Hf f)) as [lf Hlf]; [rewrite E; by eexists|].
    exists lf. unfold ref_of. rewrite Hlf. split_and!; [done|done|by eexists].
  - right. split_and!; [done|done|]. apply eq_None_not_Some. rewrite Hf, E.
    by intros [? ?].
Qed.

Lemma field_props_lookup ps LOC f k :
  (∀ f k, is_Some (LOC (RBucket f k)) ↔ is_Some (p_field ps f !! k)) →
  (∃ la, field_props ps LOC f !! k = Some (VRef la) ∧
         LOC (RBucket f k) = Some la ∧ is_Some (p_field ps f !! k)) ∨
  (field_props ps LOC f !! k = None ∧ p_field ps f !! k = None ∧
   LOC (RBucket f k) = None).
Proof.
  intros Hb. unfold field_props. rewrite map_lookup_imap.
  destruct (p_field ps f !! k) as [b|] eqn:E; simpl.
  - left. destruct (proj2 (Hb f k)) as [la Hla]; [rewrite E; by eexists|].
    exists la. unfold ref_of. rewrite Hla. split_and!; [done|done|by eexists].
  - right. split_and!; [done|done|]. apply eq_None_not_Some. rewrite Hb, E.
    by intros [? ?].
Qed.

Lemma map_props_lookup ps LOC k :
  (∀ k, is_Some (LOC (RRow k)) ↔ is_Some (p_rows ps !! k)) →
  (∃ l, map_props ps LOC !! k = Some (VRef l) ∧ LOC (RRow k) = Some l ∧
        is_Some (p_rows ps !! k)) ∨
  (map_props ps LOC !! k = None ∧ p_rows ps !! k = None ∧ LOC (RRow k) = None).
Proof.
  intros Hb. unfold map_props. rewrite map_lookup_imap.
  destruct (p_rows ps !! k) as [b|] eqn:E; simpl.
  - left. destruct (proj2 (Hb k)) as [la Hla]; [rewrite E; by eexists|].
    exists la. unfold ref_of. rewrite Hla. split_and!; [done|done|by eexists].
  - right. split_and!; [done|done|]. apply eq_None_not_Some. rewrite Hb, E.
    by intros [? ?].
Qed.

Lemma field_props_empty ps LOC f :
  p_idx ps !! f = None → field_props ps LOC f = ∅.
Proof.
  intros H. unfold field_props, p_field. rewrite H. simpl. apply map_imap_empty.
Qed.

End AbstractFacts.

Import AbstractFacts.

Module Wp.

Lemma wp_ret {A} (a : A) h Q : Q a h → wp (ret a) h Q.
Proof. intros. by exists a, h. Qed.

Lemma wp_bind {A B} (c : M A) (k : A → M B) h Q :
  wp c h (λ a h1, wp (k a) h1 Q) → wp (bind c k) h Q.
Proof.
  intros (a & h1 & Hc & r & h' & Hk & HQ). exists r, h'. split; [|done].
  unfold bind. by rewrite Hc.
Qed.

Lemma wp_mono {A} (c : M A) h (Q Q' : A → heap → Prop) :
  wp c h Q → (∀ a h', Q a h' → Q' a h') → wp c h Q'.
Proof. intros (r & h' & Hc & HQ) H. exists r, h'. auto. Qed.

Section Rules.

Variable tok : option token.
Variable h : heap.
Variable LOC : role → option nat.
Variable CONT : role → body.
Hypothesis Hrep : prepr tok h LOC CONT.

Lemma wp_read_cell r l (Q : cell → heap → Prop) :
  LOC r = Some l → (∀ o, Q (Cell o (CONT r)) h) → wp (read_cell (VRef l)) h Q.
Proof.
  intros Hl HQ. destruct (prepr_lookup _ _ _ _ _ _ Hrep Hl) as (o & Ho & _).
  exists (Cell o (CONT r)), h. split; [|done]. unfold read_cell. by rewrite Ho.
Qed.

Lemma wp_read_obj r l m (Q : gmap string val → heap → Prop) :
  LOC r = Some l → CONT r = BObj m → Q m h → wp (read_obj (VRef l)) h Q.
Proof.
  intros Hl Hm HQ. unfold read_obj. apply wp_bind.
  eapply wp_read_cell; [done|]. intros o. simpl. rewrite Hm. by apply wp_ret.
Qed.

Lemma wp_read_arr r l vs (Q : list val → heap → Prop) :
  LOC r = Some l → CONT r = BArr vs → Q vs h → wp (read_arr (VRef l)) h Q.
Proof.
  intros Hl Hm HQ. unfold read_arr. apply wp_bind.
  eapply wp_read_cell; [done|]. intros o. simpl. rewrite Hm. by apply wp_ret.
Qed.

Lemma wp_get_prop r l m k (Q : val → heap → Prop) :
  LOC r = Some l → CONT r = BObj m → Q (default VUndef (m !! k)) h →
  wp (get_prop (VRef l) k) h Q.
Proof.
  intros Hl Hm HQ. unfold get_prop. apply wp_bind.
  eapply wp_read_obj; [done..|]. by apply wp_ret.
Qed.

Lemma wp_has_own r l m k (Q : bool → heap → Prop) :
  LOC r = Some l → CONT r = BObj m → Q (bool_decide (is_Some (m !! k))) h →
  wp (has_own (VRef l) k) h Q.
Proof.
  intros Hl Hm HQ. unfold has_own. apply wp_bind.
  eapply wp_read_obj; [done..|]. by apply wp_ret.
Qed.

(** Writing in place. *)
Lemma wp_write_body r l b (Q : unit → heap → Prop) :
  LOC r = Some l →
  (∀ h', prepr tok h' LOC (fupd r b CONT) → Q tt h') →
  wp (write_body (VRef l) b) h Q.
Proof.
  intros Hl HQ. destruct (prepr_lookup _ _ _ _ _ _ Hrep Hl) as (o & Ho & _).
  exists tt, (<[l := Cell o b]> h). split.
  - unfold write_body, bind, read_cell. rewrite Ho. done.
  - apply HQ. eapply prepr_ext.
    + apply (prepr_write tok h LOC CONT r l o b Hrep). left. eauto.
    + intros r'. unfold fupd. case_decide; by subst.
    + done.
Qed.

(** A new object, given the role [r]. *)
Lemma wp_alloc r o b (Q : val → heap → Prop) :
  (is_tmp r → owned_by tok (Cell o b) = false) →
  (∀ l h', prepr tok h' (fupd r (Some l) LOC) (fupd r b CONT) → Q (VRef l) h') →
  wp (alloc (Cell o b)) h Q.
Proof.
  intros Ho HQ. eexists _, _. split; [done|]. apply HQ.
  apply prepr_write; [done|]. right. split; [|done].
  apply not_elem_of_dom, is_fresh.
Qed.

Lemma wp_canMutate r l (Q : bool → heap → Prop) :
  LOC r = Some l → (∀ b, (is_tmp r → b = false) → Q b h) →
  wp (canMutate (VRef l) tok) h Q.
Proof.
  intros Hl HQ. unfold canMutate.
  destruct (prepr_lookup _ _ _ _ _ _ Hrep Hl) as (o & Ho & Hown).
  destruct tok as [t|] eqn:Et; [|apply wp_ret; by apply HQ].
  exists (bool_decide (o = Some t)), h. split.
  - unfold bind, read_cell. rewrite Ho. done.
  - apply HQ. intros Ht. apply Hown in Ht. done.
Qed.

End Rules.

End Wp.

Import Wp.

Module OpsRules.

Lemma filter_length_same {A} (f : A → bool) (l : list A) :
  length (List.filter f l) = length l → List.filter f l = l.
Proof.
  induction l as [|a l IH]; simpl; [done|].
  destruct (f a); simpl.
  - intros [=]. f_equal. auto.
  - intros H. pose proof (List.filter_length_le f l). lia.
Qed.

Lemma merge_step_unchanged m mo :
  (foldl merge_step (false, m) mo).1 = false →
  (foldl merge_step (false, m) mo).2 = m.
Proof.
  assert (∀ st, (foldl merge_step st mo).1 = false →
                st.1 = false ∧ (foldl merge_step st mo).2 = st.2) as H.
  { induction mo as [|kv mo IH]; intros st; simpl; [done|].
    intros Hf. destruct (IH _ Hf) as [H1 H2]. unfold merge_step in *.
    destruct (strict_eq _ _); [done|]. done. }
  intros Hf. by destruct (H _ Hf).
Qed.

Lemma omitted_absent {V} (m : gmap string V) keys :
  List.filter (λ k, bool_decide (is_Some (m !! k))) keys = [] →
  omitted m keys = m.
Proof.
  unfold omitted. induction keys as [|k keys IH]; simpl; [done|].
  case_bool_decide as Hk; [done|]. intros Hf.
  rewrite delete_id; [by apply IH|]. by apply eq_None_not_Some.
Qed.

Lemma omitted_filter {V} (m : gmap string V) keys :
  omitted m (List.filter (λ k, bool_decide (is_Some (m !! k))) keys)
  = omitted m keys.
Proof.
  unfold omitted.
  assert (∀ m' : gmap string V, (∀ k, m !! k = None → m' !! k = None) →
     foldl (λ acc k, base.delete k acc) m'
       (List.filter (λ k, bool_decide (is_Some (m !! k))) keys)
     = foldl (λ acc k, base.delete k acc) m' keys) as H.
  { induction keys as [|k keys IH]; intros m' Hm'; simpl; [done|].
    case_bool_decide as Hk; simpl.
    - apply IH. intros k' Hk'. destruct (decide (k = k')) as [->|Hne].
      + by rewrite lookup_delete_eq.
      + rewrite lookup_delete_ne; auto.
    - rewrite (delete_id m' k); [by apply IH|].
      apply Hm'. by apply eq_None_not_Some. }
  by apply H.
Qed.

Section Rules.

Variable tok : option token.
Variable h : heap.
Variable LOC : role → option nat.
Variable CONT : role → body.
Hypothesis Hrep : prepr tok h LOC CONT.
Variable r : role.
Variable l : nat.
Hypothesis Hl : LOC r = Some l.

Lemma wp_mutable_push x vs (Q : val → heap → Prop) :
  CONT r = BArr vs →
  (∀ h', prepr tok h' LOC (fupd r (BArr (vs ++ [x])) CONT) → Q (VRef l) h') →
  wp (mutable_push x (VRef l)) h Q.
Proof.
  intros Hc HQ. unfold mutable_push. apply wp_bind.
  eapply wp_read_arr; [done..|]. apply wp_bind.
  eapply wp_write_body; [done..|]. intros h' Hh'. apply wp_ret. auto.
Qed.

Lemma wp_mutable_filter f vs (Q : val → heap → Prop) :
  CONT r = BArr vs →
  (∀ h', prepr tok h' LOC (fupd r (BArr (List.filter f vs)) CONT) → Q (VRef l) h') →
  wp (mutable_filter f (VRef l)) h Q.
Proof.
  intros Hc HQ. unfold mutable_filter. apply wp_bind.
  eapply wp_read_arr; [done..|]. apply wp_bind.
  eapply wp_write_body; [done..|]. intros h' Hh'. apply wp_ret. auto.
Qed.

Lemma wp_mutable_splice1 idx vs (Q : val → heap → Prop) :
  CONT r = BArr vs →
  (∀ h', prepr tok h' LOC (fupd r (BArr (take idx vs ++ drop (S idx) vs)) CONT) →
         Q (VRef l) h') →
  wp (mutable_splice1 idx (VRef l)) h Q.
Proof.
  intros Hc HQ. unfold mutable_splice1. apply wp_bind.
  eapply wp_read_arr; [done..|]. apply wp_bind.
  eapply wp_write_body; [done..|]. intros h' Hh'. apply wp_ret. auto.
Qed.

Lemma wp_mutable_set k v m (Q : val → heap → Prop) :
  CONT r = BObj m →
  (∀ h', prepr tok h' LOC (fupd r (BObj (<[k := v]> m)) CONT) → Q (VRef l) h') →
  wp (mutable_set k v (VRef l)) h Q.
Proof.
  intros Hc HQ. unfold mutable_set. apply wp_bind.
  eapply wp_read_obj; [done..|]. apply wp_bind.
  eapply wp_write_body; [done..|]. intros h' Hh'. apply wp_ret. auto.
Qed.

Lemma wp_mutable_merge mo m (Q : val → heap → Prop) :
  CONT r = BObj m →
  (∀ h', prepr tok h' LOC (fupd r (BObj (merged m mo)) CONT) → Q (VRef l) h') →
  wp (mutable_merge mo (VRef l)) h Q.
Proof.
  intros Hc HQ. unfold mutable_merge. apply wp_bind.
  eapply wp_read_obj; [done..|]. apply wp_bind.
  eapply wp_write_body; [done..|]. intros h' Hh'. apply wp_ret. auto.
Qed.

Lemma wp_mutable_omit ks m (Q : val → heap → Prop) :
  CONT r = BObj m →
  (∀ h', prepr tok h' LOC (fupd r (BObj (omitted m ks)) CONT) → Q (VRef l) h') →
  wp (mutable_omit ks (VRef l)) h Q.
Proof.
  intros Hc HQ. unfold mutable_omit. apply wp_bind.
  eapply wp_read_obj; [done..|]. apply wp_bind.
  eapply wp_write_body; [done..|]. intros h' Hh'. apply wp_ret. auto.
Qed.

(** The store as it is satisfies the postcondition of a write that
    changes nothing. *)
Lemma prepr_same b (l' : nat) :
  CONT r = b → prepr tok h (fupd r (Some l) LOC) (fupd r b CONT).
Proof.
  intros Hb. eapply prepr_ext; [done|..].
  - intros r'. unfold fupd. case_decide; by subst.
  - intros r' _. unfold fupd. case_decide; by subst.
Qed.

Lemma prepr_inplace h' b :
  prepr tok h' LOC (fupd r b CONT) → prepr tok h' (fupd r (Some l) LOC) (fupd r b CONT).
Proof.
  intros H. eapply prepr_ext; [done|..].
  - intros r'. unfold fupd. case_decide; by subst.
  - done.
Qed.

(** The copy-on-write operations: the object with the new contents is the
    old object or a new one. *)
Lemma wp_batch_push x vs (Q : val → heap → Prop) :
  ¬ is_tmp r →
  CONT r = BArr vs →
  (∀ l' h', prepr tok h' (fupd r (Some l') LOC) (fupd r (BArr (vs ++ [x])) CONT) →
            Q (VRef l') h') →
  wp (batch_push tok x (VRef l)) h Q.
Proof.
  intros Hnt Hc HQ. unfold batch_push. apply wp_bind.
  eapply wp_canMutate; [done..|]. intros [] _.
  - eapply wp_mutable_push; [done|]. intros h' Hh'. apply HQ.
    by apply prepr_inplace.
  - apply wp_bind. eapply wp_read_arr; [done..|].
    eapply wp_alloc; [done|done|]. done.
Qed.

Lemma wp_batch_filter f vs (Q : val → heap → Prop) :
  ¬ is_tmp r →
  CONT r = BArr vs →
  (∀ l' h', prepr tok h' (fupd r (Some l') LOC)
              (fupd r (BArr (List.filter f vs)) CONT) → Q (VRef l') h') →
  wp (batch_filter tok f (VRef l)) h Q.
Proof.
  intros Hnt Hc HQ. unfold batch_filter. apply wp_bind.
  eapply wp_canMutate; [done..|]. intros [] _.
  - eapply wp_mutable_filter; [done|]. intros h' Hh'. apply HQ.
    by apply prepr_inplace.
  - apply wp_bind. eapply wp_read_arr; [done..|].
    destruct (_ =? _)%nat eqn:E.
    + apply wp_ret. apply HQ. apply Nat.eqb_eq in E.
      rewrite (filter_length_same _ _ E). by apply prepr_same.
    + eapply wp_alloc; [done|done|]. done.
Qed.

Lemma wp_batch_set k v m (Q : val → heap → Prop) :
  ¬ is_tmp r →
  CONT r = BObj m →
  (strict_eq (default VUndef (m !! k)) v = true → m !! k = Some v) →
  (∀ l' h', prepr tok h' (fupd r (Some l') LOC) (fupd r (BObj (<[k := v]> m)) CONT) →
            Q (VRef l') h') →
  wp (batch_set tok k v (VRef l)) h Q.
Proof.
  intros Hnt Hc Hv HQ. unfold batch_set. apply wp_bind.
  eapply wp_canMutate; [done..|]. intros [] _.
  - eapply wp_mutable_set; [done|]. intros h' Hh'. apply HQ.
    by apply prepr_inplace.
  - apply wp_bind. eapply wp_read_obj; [done..|].
    destruct (strict_eq _ _) eqn:E.
    + apply wp_ret. apply HQ. rewrite insert_id; [|by apply Hv].
      by apply prepr_same.
    + eapply wp_alloc; [done|done|]. done.
Qed.

Lemma wp_batch_merge_cow mo m (Q : val → heap → Prop) :
  ¬ is_tmp r →
  CONT r = BObj m →
  (∀ l' h' m', m' = merged m mo ∨ m' = merged_cow m mo →
      prepr tok h' (fupd r (Some l') LOC) (fupd r (BObj m') CONT) →
      Q (VRef l') h') →
  wp (batch_merge tok mo (VRef l)) h Q.
Proof.
  intros Hnt Hc HQ. unfold batch_merge. apply wp_bind.
  eapply wp_canMutate; [done..|]. intros [] _.
  - eapply wp_mutable_merge; [done|]. intros h' Hh'.
    apply (HQ l h' (merged m mo)); [by left|]. by apply prepr_inplace.
  - apply wp_bind. eapply wp_read_obj; [done..|].
    destruct (foldl merge_step (false, m) mo) as [chg nxt] eqn:E.
    assert (merged_cow m mo = nxt) as Hn by (unfold merged_cow; by rewrite E).
    destruct chg.
    + eapply wp_alloc; [done|done|]. intros l' h' Hh'.
      apply (HQ l' h' nxt); [by right|done].
    + apply wp_ret. apply (HQ l h nxt); [by right|].
      apply prepr_same; [done|]. rewrite Hc. f_equal.
      pose proof (merge_step_unchanged m mo) as Hu. rewrite E in Hu.
      symmetry. by apply Hu.
Qed.

Lemma merged_cow_defined m mo :
  Forall (λ kv : string * val, kv.2 ≠ VUndef) mo → merged_cow m mo = merged m mo.
Proof.
  unfold merged_cow, merged.
  assert (∀ b, Forall (λ kv : string * val, kv.2 ≠ VUndef) mo →
    (foldl merge_step (b, m) mo).2 = foldl (λ acc kv, <[kv.1 := kv.2]> acc) m mo) as H.
  { revert m. induction mo as [|kv mo IH]; intros m b Hall; simpl; [done|].
    inversion Hall as [|? ? Hkv Hmo]; subst. unfold merge_step at 2. simpl.
    destruct (strict_eq _ _) eqn:E.
    - rewrite insert_id; [by apply IH|].
      unfold strict_eq in E. destruct kv as [k v]. simpl in *.
      destruct v; try done; apply bool_decide_eq_true in E;
        destruct (m !! k); simpl in *; congruence.
    - by apply IH. }
  apply H.
Qed.

Lemma wp_batch_merge mo m (Q : val → heap → Prop) :
  ¬ is_tmp r →
  CONT r = BObj m →
  Forall (λ kv : string * val, kv.2 ≠ VUndef) mo →
  (∀ l' h', prepr tok h' (fupd r (Some l') LOC) (fupd r (BObj (merged m mo)) CONT) →
            Q (VRef l') h') →
  wp (batch_merge tok mo (VRef l)) h Q.
Proof.
  intros Hnt Hc Hmo HQ. eapply wp_batch_merge_cow; [done|done|].
  intros l' h' m' [->| ->] Hh'; [by apply HQ|].
  rewrite merged_cow_defined in Hh' by done. by apply HQ.
Qed.

Lemma wp_batch_omit ks m (Q : val → heap → Prop) :
  ¬ is_tmp r →
  CONT r = BObj m →
  (∀ l' h', prepr tok h' (fupd r (Some l') LOC) (fupd r (BObj (omitted m ks)) CONT) →
            Q (VRef l') h') →
  wp (batch_omit tok ks (VRef l)) h Q.
Proof.
  intros Hnt Hc HQ. unfold batch_omit. apply wp_bind.
  eapply wp_canMutate; [done..|]. intros [] _.
  - eapply wp_mutable_omit; [done|]. intros h' Hh'. apply HQ.
    by apply prepr_inplace.
  - apply wp_bind. eapply wp_read_obj; [done..|].
    destruct (List.filter _ ks) as [|k0 ks0] eqn:E.
    + apply wp_ret. apply HQ. rewrite (omitted_absent _ _ E).
      by apply prepr_same.
    + eapply wp_alloc; [done|done|]. intros l' h' Hh'. apply HQ.
      rewrite <- (omitted_filter m ks). rewrite E. done.
Qed.

Lemma wp_own_copy (Q : val → heap → Prop) :
  ¬ is_tmp r →
  (∀ l' h', prepr tok h' (fupd r (Some l') LOC) CONT → Q (VRef l') h') →
  wp (own_copy tok (VRef l)) h Q.
Proof.
  intros Hnt HQ. unfold own_copy. apply wp_bind.
  eapply wp_canMutate; [done..|]. intros [] _.
  - apply wp_ret. apply HQ. eapply prepr_ext; [done|..].
    + intros r'. unfold fupd. case_decide; by subst.
    + done.
  - apply wp_bind. eapply wp_read_cell; [done..|]. intros o. simpl.
    eapply wp_alloc; [done|done|]. intros l' h' Hh'. apply HQ.
    eapply prepr_ext; [done|done|].
    intros r' _. unfold fupd. case_decide; by subst.
Qed.

(** A temporary is never updated in place by the batch: the result is the
    object itself when nothing changes and a new object otherwise. *)
Lemma wp_batch_set_tmp r2 k v m (Q : val → heap → Prop) :
  is_tmp r → ¬ is_tmp r2 →
  CONT r = BObj m →
  strict_eq (default VUndef (m !! k)) v = false →
  (∀ l' h', prepr tok h' (fupd r2 (Some l') LOC)
              (fupd r2 (BObj (<[k := v]> m)) CONT) → Q (VRef l') h') →
  wp (batch_set tok k v (VRef l)) h Q.
Proof.
  intros Ht Hnt Hc Hv HQ. unfold batch_set. apply wp_bind.
  eapply wp_canMutate; [done..|]. intros b Hb. rewrite (Hb Ht).
  apply wp_bind. eapply wp_read_obj; [done..|]. rewrite Hv.
  eapply wp_alloc; [done|done|]. done.
Qed.

Lemma wp_batch_merge_tmp r2 mo m (Q : val → heap → Prop) :
  is_tmp r → ¬ is_tmp r2 →
  CONT r = BObj m →
  ((foldl merge_step (false, m) mo).1 = false → Q (VRef l) h) →
  (∀ l' h', (foldl merge_step (false, m) mo).1 = true →
            prepr tok h' (fupd r2 (Some l') LOC)
              (fupd r2 (BObj (merged_cow m mo)) CONT) → Q (VRef l') h') →
  wp (batch_merge tok mo (VRef l)) h Q.
Proof.
  intros Ht Hnt Hc HQ1 HQ2. unfold batch_merge. apply wp_bind.
  eapply wp_canMutate; [done..|]. intros b Hb. rewrite (Hb Ht).
  apply wp_bind. eapply wp_read_obj; [done..|].
  unfold merged_cow in HQ2.
  destruct (foldl merge_step (false, m) mo) as [[] nxt] eqn:E; simpl in *.
  - eapply wp_alloc; [done|done|]. intros l' h' Hh'. by apply HQ2.
  - apply wp_ret. by apply HQ1.
Qed.

End Rules.

End OpsRules.

Import OpsRules.

Module SetIn.

(** Rewrites the layout and contents at a given role. *)
Ltac fupd_simpl :=
  repeat first
    [ rewrite fupd_eq
    | rewrite fupd_ne by (first [assumption | discriminate | congruence]) ].

Lemma undefined_or_self (x : val) :
  (if is_undefined x then ret VUndef else ret x) = ret x.
Proof. by destruct x. Qed.

Lemma strict_eq_true a b : strict_eq a b = true → a = b.
Proof. unfold strict_eq. destruct a; try done; by intros ?%bool_decide_eq_true. Qed.

Section Meta.

Variable t : Table.
Hypothesis Hok : table_ok t.
Variable tmp : role → body.

Lemma covers_setMeta key v ps LOC LOC' :
  covers ps LOC →
  (∀ r, r ≠ RRoot → r ≠ RMeta → LOC' r = LOC r) →
  is_Some (LOC' RRoot) → is_Some (LOC' RMeta) →
  covers (p_setMeta key v ps) LOC'.
Proof.
  intros (Hroot & Harr & Hmap & Hmeta & Hidx & Hf & Hbk & Hrow) HL ? ?.
  unfold covers. rewrite (HL RArr), (HL RMap), (HL RIdx) by done.
  split_and!; try done.
  - intros f. rewrite HL by done. apply Hf.
  - intros f k. rewrite HL by done. apply Hbk.
  - intros k. rewrite HL by done. apply Hrow.
Qed.

Lemma content_setMeta key v ps LOC LOC' r :
  (∀ r, r ≠ RRoot → r ≠ RMeta → LOC' r = LOC r) →
  r ≠ RRoot → r ≠ RMeta →
  content_of t (p_setMeta key v ps) tmp LOC' r = content_of t ps tmp LOC r.
Proof.
  intros HL H1 H2. destruct r; try done; simpl; f_equal.
  - apply map_eq. intros k. unfold map_props. rewrite !map_lookup_imap. simpl.
    destruct (p_rows ps !! k); simpl; [|done]. unfold ref_of. by rewrite HL.
  - apply map_eq. intros k. unfold idx_props. rewrite !map_lookup_imap. simpl.
    destruct (p_idx ps !! k); simpl; [|done]. unfold ref_of. by rewrite HL.
  - apply map_eq. intros k. unfold field_props. rewrite !map_lookup_imap.
    unfold p_field. simpl.
    destruct (_ !! k); simpl; [|done]. unfold ref_of. by rewrite HL.
Qed.

Lemma setMeta_refines x branch key v h LOC ps (Q : val → heap → Prop) :
  v ≠ VUndef →
  repr_with t (batchToken x) tmp h branch LOC ps →
  (∀ branch' h' LOC',
     repr_with t (batchToken x) tmp h' branch' LOC' (p_setMeta key v ps) →
     (∀ r, r ≠ RRoot → r ≠ RMeta → LOC' r = LOC r) →
     Q branch' h') →
  wp (setMeta x branch key v) h Q.
Proof.
  intros Hv (Hb & Hcov & Hrep) HQ.
  pose proof Hcov as (Hroot & Harr & Hmap & Hmeta & Hidx & Hf & Hbk & Hrow).
  destruct Hroot as [lb Hlb]. destruct Hmeta as [lm Hlm].
  unfold ref_of in Hb. rewrite Hlb in Hb. subst branch.
  assert (ref_of LOC RMeta = VRef lm) as Hrm by (unfold ref_of; by rewrite Hlm).
  unfold setMeta. destruct (withMutations x).
  - unfold mutable_setIn. apply wp_bind. simpl.
    apply wp_bind. eapply wp_get_prop; [done|done|reflexivity|].
    rewrite (root_lookup_meta t), Hrm. simpl.
    apply wp_bind. apply wp_ret. apply wp_bind.
    eapply wp_mutable_set; [done|done|reflexivity|].
    intros h' Hh'. apply wp_ret. apply wp_ret.
    apply (HQ (VRef lb) h' LOC); [|done].
    split_and!.
    + unfold ref_of. by rewrite Hlb.
    + apply (covers_setMeta key v ps LOC LOC); [done|done|by eexists|by eexists].
    + eapply prepr_ext; [done|done|].
      intros r _. unfold fupd. case_decide; subst; [done|].
      destruct (decide (r = RRoot)) as [->|]; [done|].
      by apply content_setMeta.
  - unfold batch_setIn. apply wp_bind. simpl.
    apply wp_bind. eapply wp_get_prop; [done|done|reflexivity|].
    rewrite (root_lookup_meta t), Hrm. simpl.
    apply wp_bind. eapply wp_get_prop; [done|done|reflexivity|].
    rewrite undefined_or_self. apply wp_ret.
    destruct (strict_eq v _) eqn:Heq.
    + apply wp_ret. apply (HQ (VRef lb) h LOC); [|done].
      split_and!.
      * unfold ref_of. by rewrite Hlb.
      * apply (covers_setMeta key v ps LOC LOC); [done|done|by eexists|by eexists].
      * eapply prepr_ext; [done|done|].
        intros r _. destruct (decide (r = RMeta)) as [->|].
        { simpl. f_equal. apply insert_id.
          apply strict_eq_true in Heq. destruct (p_meta ps !! key); simpl in *; congruence. }
        destruct (decide (r = RRoot)) as [->|]; [done|].
        by apply content_setMeta.
    + apply wp_bind. eapply wp_own_copy; [done|done|by intros []|]. intros lb' h1 H1.
      apply wp_bind. apply wp_bind.
      eapply wp_get_prop; [done|by fupd_simpl|reflexivity|].
      rewrite (root_lookup_meta t), Hrm. simpl. apply wp_bind.
      apply wp_bind. eapply wp_canMutate with (r := RMeta); [done|by fupd_simpl|].
      intros [] _.
      * apply wp_ret. apply wp_bind.
        eapply (wp_mutable_set _ _ _ _ H1 RMeta); [by fupd_simpl|reflexivity|].
        intros h2 H2. apply wp_ret. apply wp_ret.
        apply (HQ (VRef lb') h2 (fupd RRoot (Some lb') LOC)).
        2:{ intros r ? ?. by fupd_simpl. }
        split_and!.
        -- unfold ref_of. by fupd_simpl.
        -- apply (covers_setMeta key v ps LOC); [done| |by fupd_simpl|by fupd_simpl].
           intros r ? ?. by fupd_simpl.
        -- eapply prepr_ext; [done|done|].
           intros r _. destruct (decide (r = RMeta)) as [->|]; [by fupd_simpl|].
           fupd_simpl.
           destruct (decide (r = RRoot)) as [->|].
           { simpl. f_equal; try (apply (root_props_ext t); by fupd_simpl). }
           apply content_setMeta; [|done..]. intros r' ? ?. by fupd_simpl.
      * apply wp_bind. eapply (wp_own_copy _ _ _ _ H1 RMeta); [by fupd_simpl|by intros []|].
        intros lm' h2 H2. apply wp_bind.
        eapply (wp_mutable_set _ _ _ _ H2 RRoot); [by fupd_simpl|reflexivity|].
        intros h3 H3. apply wp_ret. apply wp_bind.
        eapply (wp_mutable_set _ _ _ _ H3 RMeta); [by fupd_simpl|reflexivity|].
        intros h4 H4. apply wp_ret. apply wp_ret.
        apply (HQ (VRef lb') h4 (fupd RMeta (Some lm') (fupd RRoot (Some lb') LOC))).
        2:{ intros r ? ?. by fupd_simpl. }
        split_and!.
        -- unfold ref_of. by fupd_simpl.
        -- apply (covers_setMeta key v ps LOC); [done| |by fupd_simpl|by fupd_simpl].
           intros r ? ?. by fupd_simpl.
        -- eapply prepr_ext; [done|done|].
           intros r _. destruct (decide (r = RMeta)) as [->|]; [by fupd_simpl|].
           fupd_simpl.
           destruct (decide (r = RRoot)) as [->|].
           { fupd_simpl. simpl. f_equal. rewrite (root_set_meta t).
             apply (root_props_ext t); by fupd_simpl. }
           fupd_simpl.
           apply content_setMeta; [|done..]. intros r' ? ?. by fupd_simpl.
Qed.

End Meta.
End SetIn.

Import SetIn.

Module IndexShape.

Section Shape.

Variable t : Table.
Hypothesis Hok : table_ok t.
Variable tmp : role → body.

Lemma p_field_set_bucket_eq f k nb ps :
  p_field (p_set_bucket f k nb ps) f = <[k := nb]> (p_field ps f).
Proof. unfold p_field, p_set_bucket. simpl. by rewrite lookup_insert_eq. Qed.

Lemma p_field_set_bucket_ne f f' k nb ps :
  f' ≠ f → p_field (p_set_bucket f k nb ps) f' = p_field ps f'.
Proof. intros. unfold p_field, p_set_bucket. simpl. by rewrite lookup_insert_ne. Qed.

Lemma repr_set_bucket tok h LOC ps LOC2 CONT2 f k nb lb' li' lf' la' :
  covers ps LOC →
  prepr tok h LOC2 CONT2 →
  LOC2 RRoot = Some lb' → LOC2 RIdx = Some li' →
  LOC2 (RField f) = Some lf' → LOC2 (RBucket f k) = Some la' →
  (∀ r, r ≠ RRoot → r ≠ RIdx → r ≠ RField f → r ≠ RBucket f k →
        LOC2 r = LOC r) →
  CONT2 RRoot = BObj (<["__indexes" := VRef li']> (root_props t LOC)) →
  CONT2 RIdx = BObj (<[f := VRef lf']> (idx_props ps LOC)) →
  CONT2 (RField f) = BObj (<[k := VRef la']> (field_props ps LOC f)) →
  CONT2 (RBucket f k) = BArr nb →
  (∀ r, r ≠ RRoot → r ≠ RIdx → r ≠ RField f → r ≠ RBucket f k →
        CONT2 r = content_of t ps tmp LOC r) →
  repr_with t tok tmp h (VRef lb') LOC2 (p_set_bucket f k nb ps).
Proof.
  intros Hcov Hrep Hlb Hli Hlf Hla HL Croot Cidx Cfield Cbucket Cother.
  destruct Hcov as (Hroot & Harr & Hmap & Hmeta & Hidx & Hf & Hbk & Hrow).
  split_and!.
  - unfold ref_of. by rewrite Hlb.
  - unfold covers. rewrite (HL RArr), (HL RMap), (HL RMeta) by done.
    split_and!; try done.
    + intros f'. simpl. destruct (decide (f' = f)) as [->|Hne].
      * rewrite Hlf, lookup_insert_eq. split; by eexists.
      * rewrite HL by congruence. rewrite lookup_insert_ne by done. apply Hf.
    + intros f' k'. destruct (decide (f' = f)) as [->|Hne].
      * rewrite p_field_set_bucket_eq.
        destruct (decide (k' = k)) as [->|Hnk].
        -- rewrite Hla, lookup_insert_eq. split; by eexists.
        -- rewrite HL by congruence. rewrite lookup_insert_ne by done. apply Hbk.
      * rewrite p_field_set_bucket_ne by done. rewrite HL by congruence. apply Hbk.
    + intros k'. rewrite HL by done. apply Hrow.
  - eapply prepr_ext; [done|done|]. intros r _.
    destruct (decide (r = RRoot)) as [->|]; [|
    destruct (decide (r = RIdx)) as [->|]; [|
    destruct (decide (r = RField f)) as [->|]; [|
    destruct (decide (r = RBucket f k)) as [->|]]]].
    + rewrite Croot. simpl. f_equal. rewrite (root_set_idx t).
      apply (root_props_ext t); try (by fupd_simpl); by rewrite HL.
    + rewrite Cidx. simpl. f_equal. apply map_eq. intros f'.
      unfold idx_props. rewrite lookup_insert, !map_lookup_imap. simpl.
      rewrite lookup_insert. case_decide; subst.
      * simpl. unfold ref_of. by rewrite Hlf.
      * destruct (p_idx ps !! f'); simpl; [|done]. unfold ref_of.
        by rewrite HL by congruence.
    + rewrite Cfield. simpl. f_equal. apply map_eq. intros k'.
      unfold field_props. rewrite p_field_set_bucket_eq.
      rewrite lookup_insert, !map_lookup_imap. rewrite lookup_insert.
      case_decide; subst.
      * simpl. unfold ref_of. by rewrite Hla.
      * destruct (p_field ps f !! k'); simpl; [|done]. unfold ref_of.
        by rewrite HL by congruence.
    + rewrite Cbucket. simpl. f_equal. unfold p_bucket.
      by rewrite p_field_set_bucket_eq, lookup_insert_eq.
    + rewrite Cother by done. destruct r; try done; simpl; f_equal.
      * apply map_eq. intros k'. unfold map_props. rewrite !map_lookup_imap. simpl.
        destruct (p_rows ps !! k'); simpl; [|done]. unfold ref_of. by rewrite HL.
      * assert (f0 ≠ f) by congruence. apply map_eq. intros k'.
        unfold field_props. rewrite p_field_set_bucket_ne by done.
        rewrite !map_lookup_imap.
        destruct (p_field ps f0 !! k'); simpl; [|done]. unfold ref_of.
        by rewrite HL by congruence.
      * unfold p_bucket. destruct (decide (f0 = f)) as [->|].
        -- rewrite p_field_set_bucket_eq. rewrite lookup_insert_ne; [done|].
           congruence.
        -- by rewrite p_field_set_bucket_ne.
Qed.

Lemma p_field_del_bucket_eq f k ps :
  p_field (p_del_bucket f k ps) f = base.delete k (p_field ps f).
Proof. unfold p_field, p_del_bucket. simpl. by rewrite lookup_insert_eq. Qed.

Lemma p_field_del_bucket_ne f f' k ps :
  f' ≠ f → p_field (p_del_bucket f k ps) f' = p_field ps f'.
Proof. intros. unfold p_field, p_del_bucket. simpl. by rewrite lookup_insert_ne. Qed.

Lemma repr_del_bucket tok h LOC ps LOC2 CONT2 f k lb' li' lf' :
  covers ps LOC →
  prepr tok h LOC2 CONT2 →
  LOC2 RRoot = Some lb' → LOC2 RIdx = Some li' →
  LOC2 (RField f) = Some lf' → LOC2 (RBucket f k) = None →
  (∀ r, r ≠ RRoot → r ≠ RIdx → r ≠ RField f → r ≠ RBucket f k →
        LOC2 r = LOC r) →
  CONT2 RRoot = BObj (<["__indexes" := VRef li']> (root_props t LOC)) →
  CONT2 RIdx = BObj (<[f := VRef lf']> (idx_props ps LOC)) →
  CONT2 (RField f) = BObj (base.delete k (field_props ps LOC f)) →
  (∀ r, r ≠ RRoot → r ≠ RIdx → r ≠ RField f → r ≠ RBucket f k →
        CONT2 r = content_of t ps tmp LOC r) →
  repr_with t tok tmp h (VRef lb') LOC2 (p_del_bucket f k ps).
Proof.
  intros Hcov Hrep Hlb Hli Hlf Hla HL Croot Cidx Cfield Cother.
  destruct Hcov as (Hroot & Harr & Hmap & Hmeta & Hidx & Hf & Hbk & Hrow).
  split_and!.
  - unfold ref_of. by rewrite Hlb.
  - unfold covers. rewrite (HL RArr), (HL RMap), (HL RMeta) by done.
    split_and!; try done.
    + intros f'. simpl. destruct (decide (f' = f)) as [->|Hne].
      * rewrite Hlf, lookup_insert_eq. split; by eexists.
      * rewrite HL by congruence. rewrite lookup_insert_ne by done. apply Hf.
    + intros f' k'. destruct (decide (f' = f)) as [->|Hne].
      * rewrite p_field_del_bucket_eq.
        destruct (decide (k' = k)) as [->|Hnk].
        -- rewrite Hla, lookup_delete_eq. split; by intros [? ?].
        -- rewrite HL by congruence. rewrite lookup_delete_ne by done. apply Hbk.
      * rewrite p_field_del_bucket_ne by done. rewrite HL by congruence. apply Hbk.
    + intros k'. rewrite HL by done. apply Hrow.
  - eapply prepr_ext; [done|done|]. intros r Hr.
    destruct (decide (r = RRoot)) as [->|]; [|
    destruct (decide (r = RIdx)) as [->|]; [|
    destruct (decide (r = RField f)) as [->|]; [|
    destruct (decide (r = RBucket f k)) as [->|]]]].
    + rewrite Croot. simpl. f_equal. rewrite (root_set_idx t).
      apply (root_props_ext t); try (by fupd_simpl); by rewrite HL.
    + rewrite Cidx. simpl. f_equal. apply map_eq. intros f'.
      unfold idx_props. rewrite lookup_insert, !map_lookup_imap. simpl.
      rewrite lookup_insert. case_decide; subst.
      * simpl. unfold ref_of. by rewrite Hlf.
      * destruct (p_idx ps !! f'); simpl; [|done]. unfold ref_of.
        by rewrite HL by congruence.
    + rewrite Cfield. simpl. f_equal. apply map_eq. intros k'.
      unfold field_props. rewrite p_field_del_bucket_eq.
      rewrite lookup_delete, !map_lookup_imap. rewrite lookup_delete.
      case_decide; subst; [done|].
      destruct (p_field ps f !! k'); simpl; [|done]. unfold ref_of.
      by rewrite HL by congruence.
    + rewrite Hla in Hr. by destruct Hr.
    + rewrite Cother by done. destruct r; try done; simpl; f_equal.
      * apply map_eq. intros k'. unfold map_props. rewrite !map_lookup_imap. simpl.
        destruct (p_rows ps !! k'); simpl; [|done]. unfold ref_of. by rewrite HL.
      * assert (f0 ≠ f) by congruence. apply map_eq. intros k'.
        unfold field_props. rewrite p_field_del_bucket_ne by done.
        rewrite !map_lookup_imap.
        destruct (p_field ps f0 !! k'); simpl; [|done]. unfold ref_of.
        by rewrite HL by congruence.
      * unfold p_bucket. destruct (decide (f0 = f)) as [->|].
        -- rewrite p_field_del_bucket_eq. rewrite lookup_delete_ne; [done|].
           congruence.
        -- by rewrite p_field_del_bucket_ne.
Qed.

End Shape.
End IndexShape.

Import IndexShape.

Module PathWrite.

(** One step down of [immutableSetIn]: the child is made writable and
    linked to its parent. *)
Lemma wp_own_child tok h LOC CONT rp lp mp curr rc lc (Q : val → heap → Prop) :
  prepr tok h LOC CONT → ¬ is_tmp rc →
  LOC rp = Some lp → CONT rp = BObj mp → mp !! curr = Some (VRef lc) →
  LOC rc = Some lc → rc ≠ rp →
  (∀ lc' h', prepr tok h' (fupd rc (Some lc') LOC)
               (fupd rp (BObj (<[curr := VRef lc']> mp)) CONT) →
             Q (VRef lc') h') →
  wp (let* own := canMutate (VRef lc) tok in
      if own then ret (VRef lc)
      else
        let* newObj := own_copy tok (VRef lc) in
        mutable_set curr newObj (VRef lp);;;
        ret newObj) h Q.
Proof.
  intros Hrep Hnt Hlp Hcp Hmp Hlc Hne HQ. apply wp_bind.
  eapply wp_canMutate; [done..|]. intros [] _.
  - apply wp_ret. apply HQ. eapply prepr_ext; [done|..].
    + intros r. unfold fupd. case_decide; by subst.
    + intros r _. unfold fupd. case_decide; subst; [|done].
      rewrite Hcp. f_equal. by apply insert_id.
  - apply wp_bind. eapply wp_own_copy; [done..|]. intros lc' h1 H1.
    apply wp_bind. eapply (wp_mutable_set _ _ _ _ H1 rp); [by fupd_simpl|done|].
    intros h2 H2. apply wp_ret. by apply HQ.
Qed.

Section Index.

Variable x : tx.
Variable f k : string.
Variable la : nat.

Local Abbreviation index_path_post LOC1 CONT1 mroot mi mf Q :=
  (∀ lb' li' lf' h2 LOC2 CONT2,
    prepr (batchToken x) h2 LOC2 CONT2 →
    LOC2 RRoot = Some lb' → LOC2 RIdx = Some li' → LOC2 (RField f) = Some lf' →
    (∀ r, r ≠ RRoot → r ≠ RIdx → r ≠ RField f → LOC2 r = LOC1 r) →
    CONT2 RRoot = BObj (<["__indexes" := VRef li']> mroot) →
    CONT2 RIdx = BObj (<[f := VRef lf']> mi) →
    CONT2 (RField f) = BObj (<[k := VRef la]> mf) →
    (∀ r, r ≠ RRoot → r ≠ RIdx → r ≠ RField f → CONT2 r = CONT1 r) →
    Q (VRef lb') h2).

(** Closes a use of [index_path_post] from the state reached. *)
Ltac path_done HQ Hrep :=
  eapply HQ; [exact Hrep | try (by fupd_simpl) ..];
  try (intros; by fupd_simpl);
  fupd_simpl;
  repeat match goal with
         | H : ?C ?r = BObj _ |- ?C ?r = BObj _ => rewrite H
         end;
  try (f_equal; symmetry; by apply insert_id);
  try done.

Lemma index_setIn h1 LOC1 CONT1 lb li mroot mi mf (Q : val → heap → Prop) :
  prepr (batchToken x) h1 LOC1 CONT1 →
  LOC1 RRoot = Some lb → CONT1 RRoot = BObj mroot →
  mroot !! "__indexes" = Some (VRef li) →
  LOC1 RIdx = Some li → CONT1 RIdx = BObj mi →
  ((∃ lf, mi !! f = Some (VRef lf) ∧ LOC1 (RField f) = Some lf ∧
          CONT1 (RField f) = BObj mf) ∨
   (mi !! f = None ∧ mf = ∅)) →
  index_path_post LOC1 CONT1 mroot mi mf Q →
  wp (if withMutations x then
        mutable_setIn ["__indexes"; f; k] (VRef la) (VRef lb)
      else
        batch_setIn (batchToken x) ["__indexes"; f; k] (VRef la) (VRef lb))
     h1 Q.
Proof.
  intros Hrep Hlb Croot Hmroot Hli Cidx Hfield HQ.
  destruct (withMutations x).
  - unfold mutable_setIn. apply wp_bind. simpl.
    apply wp_bind. eapply wp_get_prop; [done..|]. rewrite Hmroot. simpl.
    apply wp_bind. apply wp_ret. apply wp_bind.
    eapply wp_get_prop; [done..|].
    destruct Hfield as [(lf & Hmf & Hlf & Cf)|[Hmf ->]]; rewrite Hmf; simpl.
    + apply wp_bind. apply wp_ret. apply wp_bind.
      eapply (wp_mutable_set _ _ _ _ Hrep (RField f)); [done..|].
      intros h2 H2. apply wp_ret. apply wp_ret.
      path_done HQ H2.
    + apply wp_bind. apply wp_bind.
      eapply (wp_alloc _ _ _ _ Hrep (RField f)); [done|]. intros lf h2 H2.
      apply wp_bind.
      eapply (wp_mutable_set _ _ _ _ H2 RIdx); [by fupd_simpl|by fupd_simpl|].
      intros h3 H3. apply wp_ret. apply wp_bind.
      eapply (wp_mutable_set _ _ _ _ H3 (RField f)); [by fupd_simpl|by fupd_simpl|].
      intros h4 H4. apply wp_ret. apply wp_ret.
      path_done HQ H4.
  - unfold batch_setIn. apply wp_bind. simpl.
    apply wp_bind. eapply wp_get_prop; [done..|]. rewrite Hmroot. simpl.
    apply wp_bind. eapply wp_get_prop; [done..|].
    assert (
      wp (let* root := own_copy (batchToken x) (VRef lb) in
          batch_setIn_from (batchToken x) ["__indexes"; f; k] (VRef la) root;;;
          ret root) h1 Q) as Hwalk.
    { apply wp_bind. eapply wp_own_copy; [done|done|by intros []|].
      intros lb' h2 H2. apply wp_bind. simpl. apply wp_bind.
      eapply (wp_get_prop _ _ _ _ H2 RRoot); [by fupd_simpl|done|].
      rewrite Hmroot. simpl. apply wp_bind.
      eapply (wp_own_child _ _ _ _ RRoot lb' mroot "__indexes" RIdx li);
        [exact H2|by intros []|by fupd_simpl|done|done|by fupd_simpl|done|].
      intros li' h3 H3. apply wp_bind.
      eapply (wp_get_prop _ _ _ _ H3 RIdx); [by fupd_simpl|by fupd_simpl|].
      destruct Hfield as [(lf & Hmf & Hlf & Cf)|[Hmf ->]]; rewrite Hmf; simpl.
      - apply wp_bind.
        eapply (wp_own_child _ _ _ _ RIdx li' mi f (RField f) lf);
          [exact H3|by intros []|by fupd_simpl|by fupd_simpl|done|by fupd_simpl|done|].
        intros lf' h4 H4. apply wp_bind.
        eapply (wp_mutable_set _ _ _ _ H4 (RField f)); [by fupd_simpl|by fupd_simpl|].
        intros h5 H5. apply wp_ret. apply wp_ret.
        path_done HQ H5.
      - apply wp_bind. apply wp_bind.
        eapply (wp_alloc _ _ _ _ H3 (RField f)); [done|]. intros lf' h4 H4.
        apply wp_bind.
        eapply (wp_mutable_set _ _ _ _ H4 RIdx); [by fupd_simpl|by fupd_simpl|].
        intros h5 H5. apply wp_ret. apply wp_bind.
        eapply (wp_mutable_set _ _ _ _ H5 (RField f)); [by fupd_simpl|by fupd_simpl|].
        intros h6 H6. apply wp_ret. apply wp_ret.
        path_done HQ H6. }
    destruct Hfield as [(lf & Hmf & Hlf & Cf)|[Hmf ->]]; rewrite Hmf; simpl.
    + apply wp_bind. eapply wp_get_prop; [done..|].
      rewrite undefined_or_self. apply wp_ret. cbv beta.
      case_bool_decide as E; [|exact Hwalk].
      apply wp_ret.
      assert (mf !! k = Some (VRef la)) as Hk.
      { destruct (mf !! k); simpl in *; congruence. }
      path_done HQ Hrep.
    + apply wp_ret. simpl. exact Hwalk.
Qed.

End Index.
End PathWrite.

Import PathWrite.

Module InsertIndex.

Section Refine.

Variable t : Table.
Hypothesis Hok : table_ok t.
Variable tmp : role → body.

Lemma insertToIndex_refines x branch id opts f value h LOC ps
    (Q : val → heap → Prop) :
  repr_with t (batchToken x) tmp h branch LOC ps →
  (∀ branch' h' LOC',
     repr_with t (batchToken x) tmp h' branch' LOC' (p_insertToIndex id opts f value ps) →
     (∀ r, r ≠ RRoot → r ≠ RIdx → r ≠ RField f →
           r ≠ RBucket f (to_key value) → LOC' r = LOC r) →
     Q branch' h') →
  wp (insertToIndex x branch id opts f value) h Q.
Proof.
  intros (Hb & Hcov & Hrep) HQ.
  pose proof Hcov as (Hroot & Harr & Hmap & Hmeta & Hidx & Hf & Hbk & Hrow).
  destruct Hroot as [lb Hlb]. destruct Hidx as [li Hli].
  unfold ref_of in Hb. rewrite Hlb in Hb. subst branch.
  assert (ref_of LOC RIdx = VRef li) as Hri by (unfold ref_of; by rewrite Hli).
  set (k := to_key value) in *.
  set (nb := if isUnique opts && negb (is_null value) then [id]
             else p_bucket ps f k ++ [id]).
  (* what remains once the bucket has its new contents *)
  assert (∀ la' h1 LOC1 CONT1,
    prepr (batchToken x) h1 LOC1 CONT1 →
    LOC1 (RBucket f k) = Some la' →
    (∀ r, r ≠ RBucket f k → LOC1 r = LOC r) →
    CONT1 (RBucket f k) = BArr nb →
    (∀ r, r ≠ RBucket f k → CONT1 r = content_of t ps tmp LOC r) →
    wp (if withMutations x then
          mutable_setIn ["__indexes"; f; k] (VRef la') (VRef lb)
        else
          batch_setIn (batchToken x) ["__indexes"; f; k] (VRef la') (VRef lb))
       h1 Q) as Hrest.
  { intros la' h1 LOC1 CONT1 H1 Hla' HL1 Cb C1.
    eapply (index_setIn x f k la' h1 LOC1 CONT1 lb li (root_props t LOC)
              (idx_props ps LOC) (field_props ps LOC f)).
    - done.
    - by rewrite HL1.
    - by rewrite C1.
    - by rewrite (root_lookup_idx t), Hri.
    - by rewrite HL1.
    - by rewrite C1.
    - destruct (idx_props_lookup ps LOC f Hf) as [(lf & E1 & E2 & E3)|(E1 & E2 & E3)].
      + left. exists lf. rewrite HL1, C1 by done. done.
      + right. split; [done|]. by apply field_props_empty.
    - intros lb' li' lf' h2 LOC2 CONT2 H2 L2b L2i L2f L2o C2b C2i C2f C2o.
      apply (HQ (VRef lb') h2 LOC2).
      + eapply (repr_set_bucket t tmp (batchToken x) h2 LOC ps LOC2 CONT2 f k nb lb' li' lf' la');
          try done.
        * rewrite L2o by done. done.
        * intros r ? ? ? ?. rewrite L2o by done. by apply HL1.
        * rewrite C2o by done. done.
        * intros r ? ? ? ?. rewrite C2o by done. by apply C1.
      + intros r ? ? ? ?. rewrite L2o by done. by apply HL1. }
  unfold insertToIndex. apply wp_bind.
  eapply wp_get_prop; [done..|]. simpl. rewrite (root_lookup_idx t), Hri. simpl.
  apply wp_bind. eapply wp_get_prop; [done..|]. simpl.
  apply wp_bind.
  (* the bucket as it is read *)
  eapply (wp_mono _ _ (λ vi h', h' = h ∧
     ((∃ la, vi = VRef la ∧ LOC (RBucket f k) = Some la) ∨
      (vi = VUndef ∧ p_field ps f !! k = None)))).
  { destruct (idx_props_lookup ps LOC f Hf) as [(lf & E1 & E2 & E3)|(E1 & E2 & E3)];
      rewrite E1; simpl.
    - eapply wp_get_prop; [done..|]. simpl. split; [done|].
      destruct (field_props_lookup ps LOC f k Hbk) as [(la & F1 & F2 & F3)|(F1 & F2 & F3)];
        fold k; rewrite F1; simpl; eauto.
    - apply wp_ret. split; [done|]. right. split; [done|].
      unfold p_field. by rewrite E2. }
  intros vi h' [-> Hvi]. apply wp_bind.
  destruct (isUnique opts && negb (is_null value)) eqn:Hu.
  - eapply (wp_alloc _ _ _ _ Hrep (RBucket f k)); [done|]. intros la' h1 H1.
    eapply Hrest; [exact H1|by fupd_simpl| |by fupd_simpl|];
      intros r ?; by fupd_simpl.
  - assert (∀ la h0 LOC0 CONT0,
      prepr (batchToken x) h0 LOC0 CONT0 → LOC0 (RBucket f k) = Some la →
      (∀ r, r ≠ RBucket f k → LOC0 r = LOC r) →
      CONT0 (RBucket f k) = BArr (p_bucket ps f k) →
      (∀ r, r ≠ RBucket f k → CONT0 r = content_of t ps tmp LOC r) →
      wp (if withMutations x then mutable_push id (VRef la);;; ret (VRef la)
          else batch_push (batchToken x) id (VRef la)) h0
        (λ a h1,
           wp (if withMutations x then
                 mutable_setIn ["__indexes"; f; k] a (VRef lb)
               else
                 batch_setIn (batchToken x) ["__indexes"; f; k] a (VRef lb))
              h1 Q)) as Hpush.
    { intros la h0 LOC0 CONT0 H0 L0 L0o C0 C0o. destruct (withMutations x).
      - apply wp_bind. eapply (wp_mutable_push _ _ _ _ H0 (RBucket f k)); [done..|].
        intros h1 H1. apply wp_ret.
        eapply Hrest; [exact H1|done|done|by fupd_simpl|].
        intros r ?. fupd_simpl. by apply C0o.
      - eapply (wp_batch_push _ _ _ _ H0 (RBucket f k)); [done|by intros []|done|].
        intros la' h1 H1.
        eapply Hrest; [exact H1|by fupd_simpl| |by fupd_simpl|].
        + intros r ?. fupd_simpl. by apply L0o.
        + intros r ?. fupd_simpl. by apply C0o. }
    apply wp_bind.
    destruct Hvi as [(la & -> & Hla)|[-> Hnone]]; simpl.
    + apply wp_ret. eapply Hpush; [exact Hrep|done|done|done|done].
    + eapply (wp_alloc _ _ _ _ Hrep (RBucket f k)); [done|]. intros la h0 H0.
      eapply Hpush; [exact H0|by fupd_simpl| | |];
        try (intros r ?; by fupd_simpl).
      fupd_simpl. unfold p_bucket. by rewrite Hnone.
Qed.

End Refine.
End InsertIndex.

Import InsertIndex.

Module DeleteIndex.

(** Discharges the side conditions of a shape lemma from nested updates. *)
Ltac shape_side :=
  first
    [ by fupd_simpl
    | intros; by fupd_simpl
    | fupd_simpl; simpl; f_equal; symmetry; by apply insert_id
    | fupd_simpl; simpl; done ].

Section Refine.

Variable t : Table.
Hypothesis Hok : table_ok t.
Variable tmp : role → body.

Lemma deleteFromIndex_refines x branch id opts f value h LOC ps
    (Q : val → heap → Prop) :
  repr_with t (batchToken x) tmp h branch LOC ps →
  (if isUnique opts && negb (is_null value) then is_Some (p_idx ps !! f)
   else is_Some (p_field ps f !! to_key value)) →
  (∀ branch' h' LOC',
     repr_with t (batchToken x) tmp h' branch' LOC' (p_deleteFromIndex id opts f value ps) →
     (∀ r, r ≠ RRoot → r ≠ RIdx → r ≠ RField f →
           r ≠ RBucket f (to_key value) → LOC' r = LOC r) →
     Q branch' h') →
  wp (deleteFromIndex x branch id opts f value) h Q.
Proof.
  intros (Hb & Hcov & Hrep) Hpre HQ.
  pose proof Hcov as (Hroot & Harr & Hmap & Hmeta & Hidx & Hf & Hbk & Hrow).
  destruct Hroot as [lb Hlb]. destruct Hidx as [li Hli].
  unfold ref_of in Hb. rewrite Hlb in Hb. subst branch.
  assert (ref_of LOC RIdx = VRef li) as Hri by (unfold ref_of; by rewrite Hli).
  assert (root_props t LOC !! "__indexes" = Some (VRef li)) as Hrl
    by (by rewrite (root_lookup_idx t), Hri).
  set (k := to_key value) in *.
  assert (is_Some (p_idx ps !! f)) as Hfe.
  { destruct (isUnique opts && negb (is_null value)); [done|].
    unfold p_field in Hpre. destruct (p_idx ps !! f); [by eexists|].
    simpl in Hpre. rewrite lookup_empty in Hpre. by destruct Hpre. }
  destruct (idx_props_lookup ps LOC f Hf) as [(lf & E1 & E2 & E3)|(E1 & E2 & E3)];
    [|rewrite E2 in Hfe; by destruct Hfe].
  unfold deleteFromIndex, p_deleteFromIndex in *. fold k. apply wp_bind.
  eapply wp_get_prop; [done..|]. simpl. rewrite Hrl. simpl.
  apply wp_bind. eapply wp_get_prop; [done..|]. simpl. rewrite E1. simpl.
  destruct (isUnique opts && negb (is_null value)) eqn:Hu.
  - destruct (withMutations x).
    + apply wp_bind. eapply (wp_mutable_omit _ _ _ _ Hrep (RField f)); [done..|].
      intros h1 H1. apply wp_ret.
      apply (prepr_drop _ _ _ _ (RBucket f k) (BObj ∅)) in H1.
      apply (HQ (VRef lb) h1 (fupd (RBucket f k) None LOC)); [|intros; by fupd_simpl].
      match type of H1 with prepr _ _ ?L ?C =>
        eapply (repr_del_bucket t tmp (batchToken x) h1 LOC ps L C f k lb li lf);
          [done|exact H1|shape_side..]
      end.
    + apply wp_bind. eapply (wp_batch_omit _ _ _ _ Hrep (RField f)); [done|by intros []|done|].
      intros lf' h1 H1. apply wp_bind.
      eapply (wp_batch_merge _ _ _ _ H1 RIdx); [by fupd_simpl|by intros []|by fupd_simpl
        |by repeat constructor|].
      intros li' h2 H2.
      eapply (wp_batch_merge _ _ _ _ H2 RRoot); [by fupd_simpl|by intros []|by fupd_simpl
        |by repeat constructor|].
      intros lb' h3 H3.
      apply (prepr_drop _ _ _ _ (RBucket f k) (BObj ∅)) in H3.
      match type of H3 with prepr _ _ ?L ?C =>
        apply (HQ (VRef lb') h3 L); [|intros; by fupd_simpl];
        eapply (repr_del_bucket t tmp (batchToken x) h3 LOC ps L C f k lb' li' lf');
          [done|exact H3|shape_side..]
      end.
  - destruct (field_props_lookup ps LOC f k Hbk) as [(la & F1 & F2 & F3)|(F1 & F2 & F3)];
      [|rewrite F2 in Hpre; by destruct Hpre].
    apply wp_bind. eapply wp_get_prop; [done..|]. simpl. rewrite F1. simpl.
    destruct (withMutations x).
    + apply wp_bind. eapply (wp_mutable_filter _ _ _ _ Hrep (RBucket f k)); [done..|].
      intros h1 H1. apply wp_ret.
      apply (HQ (VRef lb) h1 LOC); [|done].
      match type of H1 with prepr _ _ ?L ?C =>
        eapply (repr_set_bucket t tmp (batchToken x) h1 LOC ps L C f k _ lb li lf la);
          [done|exact H1|shape_side..]
      end.
    + apply wp_bind. eapply (wp_batch_filter _ _ _ _ Hrep (RBucket f k)); [done|by intros []|done|].
      intros la' h1 H1. apply wp_bind.
      eapply (wp_batch_merge _ _ _ _ H1 (RField f)); [by fupd_simpl|by intros []|by fupd_simpl
        |by repeat constructor|].
      intros lf' h2 H2. apply wp_bind.
      eapply (wp_batch_merge _ _ _ _ H2 RIdx); [by fupd_simpl|by intros []|by fupd_simpl
        |by repeat constructor|].
      intros li' h3 H3.
      eapply (wp_batch_merge _ _ _ _ H3 RRoot); [by fupd_simpl|by intros []|by fupd_simpl
        |by repeat constructor|].
      intros lb' h4 H4.
      match type of H4 with prepr _ _ ?L ?C =>
        apply (HQ (VRef lb') h4 L); [|intros; by fupd_simpl];
        eapply (repr_set_bucket t tmp (batchToken x) h4 LOC ps L C f k _ lb' li' lf' la');
          [done|exact H4|shape_side..]
      end.
Qed.

End Refine.
End DeleteIndex.

Import DeleteIndex.

Module RowShape.

Section Shape.

Variable t : Table.
Hypothesis Hok : table_ok t.

(** The contents of a role of the branch do not depend on the auxiliary
    objects. *)
Lemma content_of_aux ps tmp tmp' LOC LOC' r :
  (∀ r, ¬ is_aux r → LOC' r = LOC r) → ¬ is_aux r →
  content_of t ps tmp' LOC' r = content_of t ps tmp LOC r.
Proof.
  intros HL Hr. destruct r; try (by destruct Hr); simpl; try done; f_equal.
  - apply (root_props_ext t); by apply HL.
  - apply map_eq. intros k'. unfold map_props. rewrite !map_lookup_imap.
    destruct (p_rows ps !! k'); simpl; [|done]. unfold ref_of. by rewrite HL.
  - apply map_eq. intros k'. unfold idx_props. rewrite !map_lookup_imap.
    destruct (p_idx ps !! k'); simpl; [|done]. unfold ref_of. by rewrite HL.
  - apply map_eq. intros k'. unfold field_props. rewrite !map_lookup_imap.
    destruct (p_field ps f !! k'); simpl; [|done]. unfold ref_of. by rewrite HL.
Qed.

Lemma covers_aux ps LOC LOC' :
  (∀ r, ¬ is_aux r → LOC' r = LOC r) → covers ps LOC → covers ps LOC'.
Proof.
  intros HL (Hroot & Harr & Hmap & Hmeta & Hidx & Hf & Hbk & Hrow).
  unfold covers. rewrite !HL by (by intros []). split_and!; try done.
  - intros f. by rewrite HL by (by intros []).
  - intros f k. by rewrite HL by (by intros []).
  - intros k. by rewrite HL by (by intros []).
Qed.

Lemma repr_add_row tok tmp tmp' h LOC ps LOC2 CONT2 id row lb' la' lm' lr :
  covers ps LOC →
  prepr tok h LOC2 CONT2 →
  LOC2 RRoot = Some lb' → LOC2 RArr = Some la' → LOC2 RMap = Some lm' →
  LOC2 (RRow (to_key id)) = Some lr →
  (∀ r, is_aux r → LOC2 r = None) →
  (∀ r, r ≠ RRoot → r ≠ RArr → r ≠ RMap → r ≠ RRow (to_key id) →
        ¬ is_aux r → LOC2 r = LOC r) →
  CONT2 RRoot = BObj (<[mapName t := VRef lm']>
                        (<[arrName t := VRef la']> (root_props t LOC))) →
  CONT2 RArr = BArr (p_ids ps ++ [id]) →
  CONT2 RMap = BObj (<[to_key id := VRef lr]> (map_props ps LOC)) →
  CONT2 (RRow (to_key id)) = BObj row →
  (∀ r, r ≠ RRoot → r ≠ RArr → r ≠ RMap → r ≠ RRow (to_key id) →
        ¬ is_aux r → CONT2 r = content_of t ps tmp LOC r) →
  repr_with t tok tmp' h (VRef lb') LOC2 (p_add_row id row ps).
Proof.
  intros Hcov Hrep Hlb Hla Hlm Hlr Haux HL Croot Carr Cmap Crow Cother.
  destruct Hcov as (Hroot & Harr & Hmap & Hmeta & Hidx & Hf & Hbk & Hrow).
  split_and!.
  - unfold ref_of. by rewrite Hlb.
  - unfold covers. rewrite (HL RMeta), (HL RIdx) by (done || by intros []).
    split_and!; try done.
    + intros f. rewrite HL by (done || by intros []). apply Hf.
    + intros f k'. rewrite HL by (done || by intros []). apply Hbk.
    + intros k'. simpl. destruct (decide (k' = to_key id)) as [->|Hne].
      * rewrite Hlr, lookup_insert_eq. split; by eexists.
      * rewrite HL by (congruence || by intros []).
        rewrite lookup_insert_ne by done. apply Hrow.
  - eapply prepr_ext; [done|done|]. intros r Hr.
    destruct (decide (r = RRoot)) as [->|]; [|
    destruct (decide (r = RArr)) as [->|]; [|
    destruct (decide (r = RMap)) as [->|]; [|
    destruct (decide (r = RRow (to_key id))) as [->|]]]].
    + rewrite Croot. simpl. f_equal. rewrite (root_set_arr_map t Hok).
      apply (root_props_ext t); try (by fupd_simpl);
        by rewrite HL by (done || by intros []).
    + rewrite Carr. done.
    + rewrite Cmap. simpl. f_equal. apply map_eq. intros k'.
      unfold map_props. rewrite lookup_insert, !map_lookup_imap. simpl.
      rewrite lookup_insert. case_decide; subst.
      * simpl. unfold ref_of. by rewrite Hlr.
      * destruct (p_rows ps !! k'); simpl; [|done]. unfold ref_of.
        by rewrite HL by (congruence || by intros []).
    + rewrite Crow. simpl. unfold p_row. simpl. by rewrite lookup_insert_eq.
    + assert (¬ is_aux r) as Hna.
      { intros Ha. rewrite (Haux r Ha) in Hr. by destruct Hr. }
      rewrite Cother by done. destruct r; try done; simpl; f_equal.
      * apply map_eq. intros k'. unfold idx_props. rewrite !map_lookup_imap. simpl.
        destruct (p_idx ps !! k'); simpl; [|done]. unfold ref_of.
        by rewrite HL by (done || by intros []).
      * apply map_eq. intros k'. unfold field_props. rewrite !map_lookup_imap.
        unfold p_field. simpl.
        destruct (_ !! k'); simpl; [|done]. unfold ref_of.
        by rewrite HL by (done || by intros []).
      * unfold p_row. simpl. rewrite lookup_insert_ne; [done|]. congruence.
Qed.

(** A branch without auxiliary objects, whatever the tag. *)
Lemma repr_clean tok tmp h branch LOC ps :
  repr_with t tok tmp h branch LOC ps → (∀ r, is_aux r → LOC r = None) →
  repr t h branch LOC ps.
Proof.
  intros (Hb & Hcov & Hrep) Haux. split; [|done]. split_and!; [done..|].
  eapply prepr_ext; [by eapply prepr_tok|done|].
  intros r Hr. apply content_of_aux; [done|].
  intros Ha. rewrite (Haux r Ha) in Hr. by destruct Hr.
Qed.

Lemma repr_unclean tok tmp h branch LOC ps :
  repr t h branch LOC ps → repr_with t tok tmp h branch LOC ps.
Proof.
  intros [(Hb & Hcov & Hrep) Haux]. split_and!; [done..|].
  eapply prepr_ext; [by eapply prepr_tok|done|].
  intros r Hr. apply content_of_aux; [done|].
  intros Ha. rewrite (Haux r Ha) in Hr. by destruct Hr.
Qed.

End Shape.
End RowShape.

Import RowShape.

Module InsertOp.

Section Refine.

Variable str_to_number : string → option Z.
Variable t : Table.
Hypothesis Hok : table_ok t.

Lemma plus_one_defined v : plus_one v ≠ VUndef.
Proof. by destruct v. Qed.

Lemma idSequencer_defined a b :
  (idSequencer str_to_number a b).1 ≠ VUndef ∧
  (idSequencer str_to_number a b).2 ≠ VUndef.
Proof.
  unfold idSequencer. destruct (is_undefined b) eqn:E; simpl.
  - split; apply plus_one_defined.
  - split; [|by destruct b]. unfold math_max.
    destruct (to_number str_to_number (plus_one _)); [|done].
    by destruct (to_number str_to_number b).
Qed.

Section Loop.

Variable x : tx.
Variable le : nat.
Variable e : gmap string val.
Variable id : val.

(** The loop of [insert] over the indexed fields. *)
Lemma insert_index_loop (fs : list string) tmp ws h LOC ps
    (Q : val → heap → Prop) :
  repr_with t (batchToken x) tmp h ws LOC ps →
  LOC (RTmp 0) = Some le → tmp (RTmp 0) = BObj e →
  (∀ ws' h' LOC',
     repr_with t (batchToken x) tmp h' ws' LOC'
       (foldl (λ ps f, p_insertToIndex id (field_opts t f) f
                         (default VUndef (e !! f)) ps) ps fs) →
     (∀ r, ¬ index_role r → LOC' r = LOC r) →
     Q ws' h') →
  wp (foldM (λ workingState fieldName,
               let opts := field_opts t fieldName in
               let* value := get_prop (VRef le) fieldName in
               insertToIndex x workingState id opts fieldName value)
        ws fs) h Q.
Proof.
  revert ws h LOC ps. induction fs as [|f fs IH]; intros ws h LOC ps Hrep Hle He HQ.
  - simpl. apply wp_ret. by apply (HQ ws h LOC).
  - simpl. apply wp_bind. apply wp_bind.
    pose proof Hrep as (Hb & Hcov & Hrep').
    eapply wp_get_prop; [done|done|simpl; by rewrite He|].
    eapply insertToIndex_refines; [exact Hrep|].
    intros ws1 h1 LOC1 H1 HL1.
    eapply IH; [exact H1| |done|].
    + by rewrite HL1.
    + intros ws2 h2 LOC2 H2 HL2. apply (HQ ws2 h2 LOC2); [done|].
      intros r Hr. rewrite HL2 by done.
      apply HL1; intros ->; by apply Hr.
Qed.

End Loop.

(** The end of [insert]: the identity and the row join the branch. *)
Lemma insert_final x tmp ws h LOC ps id rfin lfin final
    (Q : val * val → heap → Prop) :
  repr_with t (batchToken x) tmp h ws LOC ps →
  is_aux rfin → LOC rfin = Some lfin → tmp rfin = BObj final →
  (∀ ws' h' LOC',
     repr t h' ws' LOC' (p_add_row id final ps) →
     LOC' (RRow (to_key id)) = Some lfin →
     Q (ws', VRef lfin) h') →
  wp (if withMutations x then
        let* arr := get_prop ws (arrName t) in
        mutable_push id arr;;;
        let* map := get_prop ws (mapName t) in
        mutable_set (to_key id) (VRef lfin) map;;;
        ret (ws, VRef lfin)
      else
        let* arr := get_prop ws (arrName t) in
        let* newArr := batch_push (batchToken x) id arr in
        let* map := get_prop ws (mapName t) in
        let* newMap := batch_merge (batchToken x) [(to_key id, VRef lfin)] map in
        let* nextState :=
          batch_merge (batchToken x)
            [(arrName t, newArr); (mapName t, newMap)] ws in
        ret (nextState, VRef lfin)) h Q.
Proof.
  intros (Hb & Hcov & Hrep) Hfin Hlfin Hfinal HQ.
  pose proof Hcov as (Hroot & Harr & Hmap & Hmeta & Hidx & Hf & Hbk & Hrow).
  destruct Hroot as [lb Hlb]. destruct Harr as [la Hla]. destruct Hmap as [lm Hlm].
  unfold ref_of in Hb. rewrite Hlb in Hb. subst ws.
  assert (ref_of LOC RArr = VRef la) as Hra by (unfold ref_of; by rewrite Hla).
  assert (ref_of LOC RMap = VRef lm) as Hrm by (unfold ref_of; by rewrite Hlm).
  assert (content_of t ps tmp LOC rfin = BObj final) as Cfin.
  { destruct rfin; try (by destruct Hfin); simpl; done. }
  assert (rfin ≠ RRoot ∧ rfin ≠ RArr ∧ rfin ≠ RMap) as (Nf1 & Nf2 & Nf3).
  { split_and!; intros ->; by destruct Hfin. }
  assert (¬ is_aux (RRow (to_key id))) as Hnr by (by intros []).
  (* the state once the four objects are written *)
  assert (∀ lb' la' lm' h2 LOC2 CONT2,
    prepr (batchToken x) h2 LOC2 CONT2 →
    LOC2 RRoot = Some lb' → LOC2 RArr = Some la' → LOC2 RMap = Some lm' →
    LOC2 rfin = Some lfin →
    (∀ r, r ≠ RRoot → r ≠ RArr → r ≠ RMap → LOC2 r = LOC r) →
    CONT2 RRoot = BObj (<[mapName t := VRef lm']>
                          (<[arrName t := VRef la']> (root_props t LOC))) →
    CONT2 RArr = BArr (p_ids ps ++ [id]) →
    CONT2 RMap = BObj (<[to_key id := VRef lfin]> (map_props ps LOC)) →
    (∀ r, r ≠ RRoot → r ≠ RArr → r ≠ RMap →
          CONT2 r = content_of t ps tmp LOC r) →
    Q (VRef lb', VRef lfin) h2) as Hdone.
  { intros lb' la' lm' h2 LOC2 CONT2 H2 L2b L2a L2m L2f L2o C2b C2a C2m C2o.
    apply (HQ (VRef lb') h2 (adopt (RRow (to_key id)) lfin LOC2)).
    2:{ apply adopt_eq. }
    eapply (repr_clean t (batchToken x) tmp).
    2:{ intros r Hr. by apply adopt_aux. }
    eapply (repr_add_row t Hok (batchToken x) tmp tmp h2 LOC ps
              (adopt (RRow (to_key id)) lfin LOC2)
              (fupd (RRow (to_key id)) (CONT2 rfin) CONT2)
              id final lb' la' lm' lfin).
    - done.
    - by eapply prepr_adopt.
    - by rewrite adopt_ne by (done || by intros []).
    - by rewrite adopt_ne by (done || by intros []).
    - by rewrite adopt_ne by (done || by intros []).
    - apply adopt_eq.
    - intros r Hr. by apply adopt_aux.
    - intros r ? ? ? ? ?. rewrite adopt_ne by done. by apply L2o.
    - by fupd_simpl.
    - by fupd_simpl.
    - by fupd_simpl.
    - fupd_simpl. rewrite C2o by done. done.
    - intros r ? ? ? ? ?. fupd_simpl. by apply C2o. }
  destruct (withMutations x).
  - apply wp_bind. eapply wp_get_prop; [done..|]. simpl.
    rewrite (root_lookup_arr t Hok), Hra. simpl. apply wp_bind.
    eapply (wp_mutable_push _ _ _ _ Hrep RArr); [done..|]. intros h1 P1.
    apply wp_bind. eapply (wp_get_prop _ _ _ _ P1 RRoot); [done|by fupd_simpl|].
    simpl. rewrite (root_lookup_map t Hok), Hrm. simpl. apply wp_bind.
    eapply (wp_mutable_set _ _ _ _ P1 RMap); [done|by fupd_simpl|].
    intros h2 P2. apply wp_ret.
    eapply (Hdone lb la lm); [exact P2|try done; try (by fupd_simpl)..].
    + fupd_simpl. simpl. f_equal. symmetry.
      rewrite insert_id; [apply insert_id|].
      * by rewrite (root_lookup_arr t Hok), Hra.
      * rewrite lookup_insert_ne by (destruct Hok; done).
        by rewrite (root_lookup_map t Hok), Hrm.
    + intros r ? ? ?. by fupd_simpl.
  - apply wp_bind. eapply wp_get_prop; [done..|]. simpl.
    rewrite (root_lookup_arr t Hok), Hra. simpl. apply wp_bind.
    eapply (wp_batch_push _ _ _ _ Hrep RArr); [done|by intros []|done|].
    intros la' h1 P1.
    apply wp_bind. eapply (wp_get_prop _ _ _ _ P1 RRoot); [by fupd_simpl|by fupd_simpl|].
    simpl. rewrite (root_lookup_map t Hok), Hrm. simpl. apply wp_bind.
    eapply (wp_batch_merge _ _ _ _ P1 RMap);
      [by fupd_simpl|by intros []|by fupd_simpl|by repeat constructor|].
    intros lm' h2 P2. apply wp_bind.
    eapply (wp_batch_merge _ _ _ _ P2 RRoot);
      [by fupd_simpl|by intros []|by fupd_simpl|by repeat constructor|].
    intros lb' h3 P3. apply wp_ret.
    eapply (Hdone lb' la' lm'); [exact P3|try (by fupd_simpl)..].
    + intros r ? ? ?. by fupd_simpl.
    + intros r ? ? ?. by fupd_simpl.
Qed.

Lemma repr_with_aux tok tmp h ws LOC ps raux l' :
  ref_of LOC RRoot = ws → covers ps LOC → is_aux raux →
  prepr tok h (fupd raux (Some l') LOC)
    (fupd raux (tmp raux) (content_of t ps tmp LOC)) →
  repr_with t tok tmp h ws (fupd raux (Some l') LOC) ps.
Proof.
  intros Hb Hcov Haux Hp.
  assert (∀ r, ¬ is_aux r → fupd raux (Some l') LOC r = LOC r) as Hsame.
  { intros r Hr. apply fupd_ne. intros ->. done. }
  split_and!.
  - unfold ref_of. rewrite Hsame by (by intros []). done.
  - by eapply covers_aux.
  - eapply prepr_ext; [exact Hp|done|]. intros r _.
    destruct (decide (r = raux)) as [->|Hne].
    + rewrite fupd_eq. by destruct raux.
    + rewrite fupd_ne by done.
      destruct (decide (is_auxb r = true)) as [Ha|Ha].
      * by destruct r.
      * apply content_of_aux; [done|]. intros Hr. apply Ha. by destruct r.
Qed.

Lemma strict_eq_undefined v : v ≠ VUndef → strict_eq VUndef v = false.
Proof. intros Hv. by destruct v. Qed.

(** [insert] refines [p_insert]. *)
Lemma insert_refines x branch le e h LOC ps (Q : val * val → heap → Prop) :
  repr_with t (batchToken x)
    (insert_tmp t e (p_insert_id str_to_number t e ps)) h branch LOC ps →
  LOC (RTmp 0) = Some le →
  (∀ branch' h' LOC' lfin,
     repr t h' branch' LOC' (p_insert str_to_number t e ps) →
     LOC' (RRow (to_key (p_insert_id str_to_number t e ps))) = Some lfin →
     Q (branch', VRef lfin) h') →
  wp (insert str_to_number t x branch (VRef le)) h Q.
Proof.
  intros Hrep Hle HQ. unfold insert.
  pose proof Hrep as (Hb & Hcov & Hp).
  pose proof Hcov as (Hroot & _ & _ & Hmeta & _).
  destruct Hroot as [lb Hlb]. destruct Hmeta as [lmeta Hlmeta].
  unfold ref_of in Hb. rewrite Hlb in Hb. subst branch.
  assert (ref_of LOC RMeta = VRef lmeta) as Hrmeta by (unfold ref_of; by rewrite Hlmeta).
  apply wp_bind. eapply wp_has_own; [exact Hp|exact Hle|reflexivity|].
  apply wp_bind. unfold getMaxId, getMeta. apply wp_bind.
  eapply wp_get_prop; [exact Hp|exact Hlb|reflexivity|].
  rewrite (root_lookup_meta t), Hrmeta. simpl.
  eapply wp_get_prop; [exact Hp|exact Hlmeta|reflexivity|].
  apply wp_bind. eapply wp_get_prop; [exact Hp|exact Hle|reflexivity|].
  pose proof (idSequencer_defined (default VUndef (p_meta ps !! "maxId"))
                (default VUndef (e !! idAttribute t))) as [Hmax Hid].
  unfold p_insert, p_created in HQ. unfold p_insert_id in *.
  destruct (idSequencer str_to_number (default VUndef (p_meta ps !! "maxId"))
              (default VUndef (e !! idAttribute t))) as [newMaxId id] eqn:E.
  simpl in Hmax, Hid, HQ, Hrep |- *.
  apply wp_bind. unfold setMaxId.
  eapply setMeta_refines; [exact Hmax|exact Hrep|].
  intros ws1 h1 LOC1 H1 HL1.
  assert (LOC1 (RTmp 0) = Some le) as Hle1 by (by rewrite HL1).
  apply wp_bind.
  destruct (bool_decide (is_Some (e !! idAttribute t))) eqn:Ehas.
  - apply wp_ret. apply wp_bind.
    eapply insert_index_loop; [exact H1|exact Hle1|reflexivity|].
    intros ws2 h2 LOC2 H2 HL2.
    eapply (insert_final x _ ws2 h2 LOC2 _ id (RTmp 0) le e); [exact H2|..].
    + exact I.
    + rewrite HL2 by (by intros []). exact Hle1.
    + reflexivity.
    + intros ws3 h3 LOC3 H3 HL3. by apply (HQ ws3 h3 LOC3 le).
  - apply bool_decide_eq_false in Ehas.
    assert (e !! idAttribute t = None) as Enone.
    { destruct (e !! idAttribute t); [|done]. by destruct Ehas. }
    pose proof H1 as (Hb1 & Hcov1 & Hp1).
    eapply (wp_batch_set_tmp _ _ _ _ Hp1 (RTmp 0) le Hle1 (RNew 0));
      [exact I|by intros []|reflexivity| |].
    { rewrite Enone. simpl. by apply strict_eq_undefined. }
    intros lnew h2 Hp2.
    apply (repr_with_aux (batchToken x) (insert_tmp t e id) h2 ws1 LOC1
             (p_setMeta "maxId" newMaxId ps) (RNew 0) lnew Hb1 Hcov1 I) in Hp2.
    apply wp_bind.
    eapply insert_index_loop; [exact Hp2|by rewrite fupd_ne|reflexivity|].
    intros ws3 h3 LOC3 H3 HL3.
    eapply (insert_final x _ ws3 h3 LOC3 _ id (RNew 0) lnew
              (<[idAttribute t := id]> e)); [exact H3|..].
    + exact I.
    + rewrite HL3 by (by intros []). apply fupd_eq.
    + reflexivity.
    + intros ws4 h4 LOC4 H4 HL4. by apply (HQ ws4 h4 LOC4 lnew).
Qed.

End Refine.
End InsertOp.

Import InsertOp.

Module RunFacts.

Section Refine.

Variable str_to_number : string → option Z.
Variable t : Table.
Hypothesis Hok : table_ok t.

Lemma prepr_nothing tok h CONT : prepr tok h (λ _, None) CONT.
Proof. split; intros; done. Qed.

(** [getEmptyState] makes a branch with the value [p_empty]. *)
Lemma getEmptyState_repr h (Q : val → heap → Prop) :
  (∀ b h' LOC, repr t h' b LOC p_empty → Q b h') →
  wp (getEmptyState t) h Q.
Proof.
  intros HQ. unfold getEmptyState.
  pose proof (prepr_nothing None h (λ _, BObj ∅)) as H0.
  apply wp_bind. eapply (wp_alloc _ _ _ _ H0 RArr); [by intros []|].
  intros la h1 H1.
  apply wp_bind. eapply (wp_alloc _ _ _ _ H1 RMap); [by intros []|].
  intros lm h2 H2.
  apply wp_bind. eapply (wp_alloc _ _ _ _ H2 RMeta); [by intros []|].
  intros lmeta h3 H3.
  apply wp_bind. eapply (wp_alloc _ _ _ _ H3 RIdx); [by intros []|].
  intros li h4 H4.
  eapply (wp_alloc _ _ _ _ H4 RRoot); [by intros []|].
  intros lb h5 H5.
  match type of H5 with prepr _ _ ?L _ => apply (HQ (VRef lb) h5 L) end.
  split; [split_and!|].
  - unfold ref_of. by rewrite fupd_eq.
  - split_and!; try (by fupd_simpl; eexists).
    + intros f. fupd_simpl. simpl. rewrite lookup_empty. done.
    + intros f k. rewrite !fupd_ne by done. unfold p_field. simpl.
      rewrite lookup_empty. simpl. rewrite lookup_empty. done.
    + intros k. rewrite !fupd_ne by done. simpl. rewrite lookup_empty. done.
  - eapply prepr_ext; [exact H5|done|]. intros r Hr.
    destruct r; fupd_simpl; try done; try (by destruct Hr as [? Hr]; revert Hr; fupd_simpl).
  - intros r Hr. destruct r; try done; by fupd_simpl.
Qed.

End Refine.
End RunFacts.

Import RunFacts.

Module ListFacts.

Lemma strict_eq_sym a b : strict_eq a b = strict_eq b a.
Proof.
  unfold strict_eq. destruct a, b; try done;
    apply bool_decide_ext; split; congruence.
Qed.

Lemma filter_all {A} (f : A → bool) (l : list A) :
  Forall (λ a, f a = true) l → List.filter f l = l.
Proof.
  induction 1 as [|a l Ha _ IH]; simpl; [done|]. by rewrite Ha, IH.
Qed.

Lemma filter_filter_and {A} (f g : A → bool) (l : list A) :
  List.filter f (List.filter g l) = List.filter (λ a, g a && f a) l.
Proof.
  induction l as [|a l IH]; simpl; [done|].
  destruct (g a); simpl; [|done]. destruct (f a); simpl; by rewrite IH.
Qed.

Lemma NoDup_list_filter {A} (f : A → bool) (l : list A) :
  NoDup l → NoDup (List.filter f l).
Proof.
  induction 1 as [|a l Ha _ IH]; simpl; [constructor|].
  destruct (f a); [|done]. constructor; [|done].
  intros Hin. apply Ha. apply list_elem_of_In in Hin.
  apply List.filter_In in Hin as [Hin _]. by apply list_elem_of_In.
Qed.

Lemma remove_first_filter (l : list val) id :
  NoDup l →
  remove_first l id = List.filter (λ y, negb (strict_eq y id)) l.
Proof.
  unfold remove_first. induction 1 as [|y l Hy Hnd IH]; simpl; [done|].
  destruct (strict_eq y id) eqn:E; simpl.
  - apply strict_eq_true in E. subst y. symmetry. apply filter_all.
    apply Forall_forall. intros z Hz.
    destruct (strict_eq z id) eqn:E'; [|done].
    apply strict_eq_true in E'. by subst.
  - destruct (indexOf id l) as [i|]; simpl; by rewrite <- IH.
Qed.

Lemma includes_cons id ids y :
  includes (id :: ids) y = strict_eq id y || includes ids y.
Proof.
  unfold includes. simpl. destruct (strict_eq id y); simpl; [done|].
  apply bool_decide_ext. by rewrite fmap_is_Some.
Qed.

(** Taking the identities out one at a time, or all at once. *)
Lemma remove_each_filter (ids l : list val) :
  NoDup l →
  foldl remove_first l ids = List.filter (λ y, negb (includes ids y)) l.
Proof.
  revert l. induction ids as [|id ids IH]; intros l Hnd; simpl.
  - symmetry. apply filter_all. by apply Forall_forall.
  - rewrite remove_first_filter by done.
    rewrite IH by (by apply NoDup_list_filter).
    rewrite filter_filter_and.
    apply List.filter_ext. intros y. rewrite includes_cons, (strict_eq_sym id y).
    by destruct (strict_eq y id), (includes ids y).
Qed.

Lemma omitted_app {V} (m : gmap string V) ks1 ks2 :
  omitted (omitted m ks1) ks2 = omitted m (ks1 ++ ks2).
Proof. unfold omitted. by rewrite foldl_app. Qed.

Lemma lookup_omitted {V} (m : gmap string V) ks k :
  omitted m ks !! k = if bool_decide (k ∈ ks) then None else m !! k.
Proof.
  revert m. induction ks as [|k' ks IH]; intros m.
  - case_bool_decide as H; [by apply elem_of_nil in H|done].
  - change (omitted m (k' :: ks)) with (omitted (base.delete k' m) ks).
    rewrite IH. rewrite lookup_delete.
    destruct (decide (k = k')) as [->|Hne].
    + rewrite decide_True by done.
      rewrite (bool_decide_eq_true_2 (k' ∈ k' :: ks)) by (apply elem_of_cons; by left).
      by destruct (bool_decide (k' ∈ ks)).
    + rewrite decide_False by done.
      rewrite (bool_decide_ext (k ∈ k' :: ks) (k ∈ ks)); [done|].
      rewrite elem_of_cons. tauto.
Qed.

End ListFacts.

Import ListFacts.

Module DeleteOp.

Section Refine.

Variable t : Table.
Hypothesis Hok : table_ok t.
Variable x : tx.
Variable tmp : role → body.

Lemma p_deleteFromIndex_rows id opts f value ps :
  p_rows (p_deleteFromIndex id opts f value ps) = p_rows ps.
Proof. unfold p_deleteFromIndex. by destruct (isUnique opts && negb (is_null value)). Qed.

Lemma p_deleteFromIndex_ids id opts f value ps :
  p_ids (p_deleteFromIndex id opts f value ps) = p_ids ps.
Proof. unfold p_deleteFromIndex. by destruct (isUnique opts && negb (is_null value)). Qed.

Lemma p_unindex_row_rows f ps k ps' :
  p_unindex_row t f ps k = Some ps' → p_rows ps' = p_rows ps ∧ p_ids ps' = p_ids ps.
Proof.
  unfold p_unindex_row. destruct (index_ready _ _ _ _); [|done].
  intros [= <-]. by rewrite p_deleteFromIndex_rows, p_deleteFromIndex_ids.
Qed.

Lemma index_ready_spec opts f value ps :
  index_ready opts f value ps = true →
  if isUnique opts && negb (is_null value) then is_Some (p_idx ps !! f)
  else is_Some (p_field ps f !! to_key value).
Proof.
  unfold index_ready. destruct (isUnique opts && negb (is_null value));
    intros H; by apply bool_decide_eq_true in H.
Qed.

(** The loop of [delete] and [update] over the rows, for one field. *)
Lemma delete_index_rows f LOC0 (ks : list string) ws h LOC ps ps'
    (Q : val → heap → Prop) :
  repr_with t (batchToken x) tmp h ws LOC ps →
  (∀ r, ¬ index_role r → LOC r = LOC0 r) →
  Forall (λ k, is_Some (p_rows ps !! k)) ks →
  fold_opt (p_unindex_row t f) ps ks = Some ps' →
  (∀ ws' h' LOC',
     repr_with t (batchToken x) tmp h' ws' LOC' ps' →
     (∀ r, ¬ index_role r → LOC' r = LOC0 r) →
     Q ws' h') →
  wp (foldM (λ branch row,
               let* rowId := get_prop row (idAttribute t) in
               let* rowValue := get_prop row f in
               deleteFromIndex x branch rowId (field_opts t f) f rowValue)
        ws ((λ k, ref_of LOC0 (RRow k)) <$> ks)) h Q.
Proof.
  revert ws h LOC ps.
  induction ks as [|k ks IH]; intros ws h LOC ps Hrep HL Hks Hfold HQ; simpl in *.
  - injection Hfold as <-. apply wp_ret. by apply (HQ ws h LOC).
  - destruct (p_unindex_row t f ps k) as [ps1|] eqn:E1; [|done].
    pose proof (p_unindex_row_rows _ _ _ _ E1) as [Hrows1 _].
    unfold p_unindex_row in E1.
    destruct (index_ready _ _ _ _) eqn:Eready; [|done]. injection E1 as <-.
    apply index_ready_spec in Eready.
    apply Forall_cons in Hks as [Hk Hks].
    pose proof Hrep as (Hb & Hcov & Hp).
    destruct (proj2 (proj2 (proj2 (proj2 (proj2 (proj2 (proj2 Hcov)))))) k)
      as [_ Hrow].
    destruct (Hrow Hk) as [lr Hlr].
    assert (ref_of LOC0 (RRow k) = VRef lr) as ->.
    { unfold ref_of. rewrite <- HL by (by intros []). by rewrite Hlr. }
    apply wp_bind. apply wp_bind.
    eapply wp_get_prop; [exact Hp|exact Hlr|reflexivity|].
    apply wp_bind.
    eapply wp_get_prop; [exact Hp|exact Hlr|reflexivity|].
    eapply deleteFromIndex_refines; [exact Hrep|exact Eready|].
    intros ws1 h1 LOC1 H1 HL1.
    eapply (IH ws1 h1 LOC1); [exact H1| | |exact Hfold|exact HQ].
    + intros r Hr. rewrite <- HL by done. apply HL1; intros ->; by apply Hr.
    + eapply Forall_impl; [exact Hks|]. intros k' Hk'. simpl.
      by rewrite p_deleteFromIndex_rows.
Qed.

Lemma fold_unindex_row_rows f ks ps ps' :
  fold_opt (p_unindex_row t f) ps ks = Some ps' →
  p_rows ps' = p_rows ps ∧ p_ids ps' = p_ids ps.
Proof.
  revert ps. induction ks as [|k ks IH]; intros ps; simpl.
  - by intros [= <-].
  - destruct (p_unindex_row t f ps k) as [ps1|] eqn:E; [|done].
    intros Hf. apply IH in Hf as [-> ->]. by eapply p_unindex_row_rows.
Qed.

(** The loops of [delete] over the indexed fields and the rows. *)
Lemma delete_index_fields (fs : list string) LOC0 ks ws h LOC ps ps'
    (Q : val → heap → Prop) :
  repr_with t (batchToken x) tmp h ws LOC ps →
  (∀ r, ¬ index_role r → LOC r = LOC0 r) →
  Forall (λ k, is_Some (p_rows ps !! k)) ks →
  fold_opt (λ ps f, fold_opt (p_unindex_row t f) ps ks) ps fs = Some ps' →
  (∀ ws' h' LOC',
     repr_with t (batchToken x) tmp h' ws' LOC' ps' →
     (∀ r, ¬ index_role r → LOC' r = LOC0 r) →
     Q ws' h') →
  wp (foldM (λ branch fieldName,
               let opts := field_opts t fieldName in
               foldM (λ branch row,
                        let* rowId := get_prop row (idAttribute t) in
                        let* rowValue := get_prop row fieldName in
                        deleteFromIndex x branch rowId opts fieldName rowValue)
                     branch ((λ k, ref_of LOC0 (RRow k)) <$> ks))
        ws fs) h Q.
Proof.
  revert ws h LOC ps.
  induction fs as [|f fs IH]; intros ws h LOC ps Hrep HL Hks Hfold HQ; simpl in *.
  - injection Hfold as <-. apply wp_ret. by apply (HQ ws h LOC).
  - destruct (fold_opt (p_unindex_row t f) ps ks) as [ps1|] eqn:E1; [|done].
    apply wp_bind.
    eapply delete_index_rows; [exact Hrep|exact HL|exact Hks|exact E1|].
    intros ws1 h1 LOC1 H1 HL1.
    eapply (IH ws1 h1 LOC1); [exact H1|exact HL1| |exact Hfold|exact HQ].
    apply fold_unindex_row_rows in E1 as [E1 _].
    eapply Forall_impl; [exact Hks|]. intros k' Hk'. simpl. by rewrite E1.
Qed.

Lemma p_unindex_rows ks ps ps' :
  p_unindex t ks ps = Some ps' →
  p_rows ps' = p_rows ps ∧ p_ids ps' = p_ids ps ∧ p_meta ps' = p_meta ps.
Proof.
  unfold p_unindex. generalize (getIndexedFields t). intros fs. revert ps.
  induction fs as [|f fs IH]; intros ps; simpl.
  - by intros [= <-].
  - destruct (fold_opt (p_unindex_row t f) ps ks) as [ps1|] eqn:E; [|done].
    intros Hf. apply IH in Hf as (-> & -> & ->).
    clear IH. revert ps E. induction ks as [|k ks IH]; intros ps; simpl.
    + by intros [= <-].
    + destruct (p_unindex_row t f ps k) as [ps2|] eqn:E2; [|done].
      intros Hf. apply IH in Hf as (-> & -> & ->).
      unfold p_unindex_row in E2. destruct (index_ready _ _ _ _); [|done].
      injection E2 as <-. unfold p_deleteFromIndex.
      by destruct (isUnique _ && negb (is_null _)).
Qed.

(** Reading the identities of the rows. *)
Lemma read_row_ids LOC0 ks h ws LOC ps (Q : list val → heap → Prop) :
  repr_with t (batchToken x) tmp h ws LOC ps →
  (∀ r, ¬ index_role r → LOC r = LOC0 r) →
  Forall (λ k, is_Some (p_rows ps !! k)) ks →
  Q ((λ k, p_prop (p_row ps k) (idAttribute t)) <$> ks) h →
  wp (mapM (λ row, get_prop row (idAttribute t))
        ((λ k, ref_of LOC0 (RRow k)) <$> ks)) h Q.
Proof.
  intros Hrep HL. revert Q. induction ks as [|k ks IH]; intros Q Hks HQ; simpl.
  - by apply wp_ret.
  - apply Forall_cons in Hks as [Hk Hks].
    pose proof Hrep as (Hb & Hcov & Hp).
    destruct (proj2 (proj2 (proj2 (proj2 (proj2 (proj2 (proj2 Hcov)))))) k)
      as [_ Hrow].
    destruct (Hrow Hk) as [lr Hlr].
    assert (ref_of LOC0 (RRow k) = VRef lr) as ->.
    { unfold ref_of. rewrite <- HL by (by intros []). by rewrite Hlr. }
    apply wp_bind. eapply wp_get_prop; [exact Hp|exact Hlr|reflexivity|].
    apply wp_bind. apply IH; [done|]. by apply wp_ret.
Qed.

(** The branch without the rows of the keys [ks]. *)
Lemma repr_del_rows tok h LOC ps LOC2 CONT2 ids' ks lb' la' lm' :
  covers ps LOC →
  prepr tok h LOC2 CONT2 →
  LOC2 RRoot = Some lb' → LOC2 RArr = Some la' → LOC2 RMap = Some lm' →
  (∀ r, r ≠ RRoot → r ≠ RArr → r ≠ RMap → LOC2 r = LOC r) →
  CONT2 RRoot = BObj (<[mapName t := VRef lm']>
                        (<[arrName t := VRef la']> (root_props t LOC))) →
  CONT2 RArr = BArr ids' →
  CONT2 RMap = BObj (omitted (map_props ps LOC) ks) →
  (∀ r, r ≠ RRoot → r ≠ RArr → r ≠ RMap → CONT2 r = content_of t ps tmp LOC r) →
  repr_with t tok tmp h (VRef lb') (drop_rows ks LOC2)
    (PState ids' (omitted (p_rows ps) ks) (p_meta ps) (p_idx ps)).
Proof.
  intros Hcov Hrep Hlb Hla Hlm HL Croot Carr Cmap Cother.
  destruct Hcov as (Hroot & Harr & Hmap & Hmeta & Hidx & Hf & Hbk & Hrow).
  assert (∀ r l, drop_rows ks LOC2 r = Some l → LOC2 r = Some l) as Hsub.
  { intros r l. destruct r; simpl; try done. by case_bool_decide. }
  assert (∀ k, k ∉ ks → drop_rows ks LOC2 (RRow k) = LOC (RRow k)) as Hkeep.
  { intros k Hk. simpl. rewrite bool_decide_eq_false_2 by done. by apply HL. }
  split_and!.
  - unfold ref_of. simpl. by rewrite Hlb.
  - unfold covers. simpl. rewrite Hlb, Hla, Hlm.
    rewrite (HL RMeta), (HL RIdx) by done.
    split_and!; try done.
    + intros f. rewrite HL by done. apply Hf.
    + intros f k'. rewrite HL by done. apply Hbk.
    + intros k'. rewrite lookup_omitted. case_bool_decide.
      * split; by intros [? ?].
      * rewrite HL by done. apply Hrow.
  - eapply prepr_relabel; [exact Hrep|..].
    + destruct Hrep as [Hinj _]. intros r1 r2 l H1 H2.
      apply Hsub in H1, H2. by eapply Hinj.
    + intros r l Hl. exists r. split; [by apply Hsub|]. split; [|by left].
      destruct (decide (r = RRoot)) as [->|]; [|
      destruct (decide (r = RArr)) as [->|]; [|
      destruct (decide (r = RMap)) as [->|]]].
      * rewrite Croot. simpl. f_equal. rewrite (root_set_arr_map t Hok).
        apply (root_props_ext t); simpl; try (by fupd_simpl);
          by rewrite HL by done.
      * by rewrite Carr.
      * rewrite Cmap. simpl. f_equal. apply map_eq. intros k'.
        rewrite lookup_omitted. unfold map_props. rewrite !map_lookup_imap.
        simpl. rewrite lookup_omitted. case_bool_decide; [done|].
        destruct (p_rows ps !! k'); simpl; [|done].
        unfold ref_of. by rewrite Hkeep.
      * rewrite Cother by done. destruct r; try done; simpl; f_equal.
        -- apply map_eq. intros k'. unfold idx_props. rewrite !map_lookup_imap.
           simpl. destruct (p_idx ps !! k'); simpl; [|done]. unfold ref_of.
           simpl. by rewrite HL by done.
        -- apply map_eq. intros k'. unfold field_props. rewrite !map_lookup_imap.
           unfold p_field. simpl.
           destruct (_ !! k'); simpl; [|done]. unfold ref_of. simpl.
           by rewrite HL by done.
        -- unfold p_row. simpl. rewrite lookup_omitted.
           simpl in Hl. by case_bool_decide.
Qed.

(** The loop of [delete] over the identities, when it mutates. *)
Lemma delete_mutable_loop (ids : list val) C0 LOC lb la lm h l m
    (Q : unit → heap → Prop) :
  prepr (batchToken x) h LOC
    (fupd RMap (BObj m) (fupd RArr (BArr l) (fupd RRoot (BObj (root_props t LOC)) C0))) →
  LOC RRoot = Some lb → LOC RArr = Some la → LOC RMap = Some lm →
  (∀ h', prepr (batchToken x) h' LOC
           (fupd RMap (BObj (omitted m (to_key <$> ids)))
              (fupd RArr (BArr (foldl remove_first l ids))
                 (fupd RRoot (BObj (root_props t LOC)) C0))) →
         Q tt h') →
  wp (foldM (λ _ id,
               let* l := read_arr (VRef la) in
               match indexOf id l with
               | Some idx => mutable_splice1 idx (VRef la);;; ret tt
               | None => ret tt
               end;;;
               let* map := get_prop (VRef lb) (mapName t) in
               mutable_omit [to_key id] map;;;
               ret tt)
        tt ids) h Q.
Proof.
  revert h l m. induction ids as [|id ids IH]; intros h l m Hp Hlb Hla Hlm HQ; simpl.
  - apply wp_ret. by apply HQ.
  - apply wp_bind. apply wp_bind.
    eapply wp_read_arr; [exact Hp|exact Hla|by fupd_simpl|].
    apply wp_bind.
    assert (wp (match indexOf id l with
                | Some idx => mutable_splice1 idx (VRef la);;; ret tt
                | None => ret tt
                end) h
              (λ _ h1, prepr (batchToken x) h1 LOC
                 (fupd RMap (BObj m) (fupd RArr (BArr (remove_first l id))
                    (fupd RRoot (BObj (root_props t LOC)) C0))))) as Hsplice.
    { unfold remove_first. destruct (indexOf id l) as [idx|].
      - apply wp_bind.
        eapply (wp_mutable_splice1 _ _ _ _ Hp RArr); [exact Hla|by fupd_simpl|].
        intros h1 H1. apply wp_ret. eapply prepr_ext; [exact H1|done|].
        intros r _. unfold fupd. repeat case_decide; congruence.
      - by apply wp_ret. }
    eapply wp_mono; [exact Hsplice|]. clear Hsplice. intros u h1 H1. simpl in H1. simpl.
    apply wp_bind.
    eapply wp_get_prop; [exact H1|exact Hlb|by fupd_simpl|].
    rewrite (root_lookup_map t Hok). unfold ref_of. rewrite Hlm. simpl.
    apply wp_bind.
    eapply (wp_mutable_omit _ _ _ _ H1 RMap); [exact Hlm|by fupd_simpl|].
    intros h2 H2. apply wp_ret.
    eapply (IH h2 (remove_first l id) (omitted m [to_key id])); [|done..].
    eapply prepr_ext; [exact H2|done|].
    intros r _. unfold fupd. repeat case_decide; congruence.
Qed.

(** What [delete] does once the index is updated. *)
Lemma delete_final ks la h1 ws1 LOC0 LOC1 ps1 (Q : val → heap → Prop) :
  repr_with t (batchToken x) tmp h1 ws1 LOC1 ps1 →
  (∀ r, ¬ index_role r → LOC1 r = LOC0 r) →
  LOC0 RArr = Some la →
  Forall (λ k, is_Some (p_rows ps1 !! k)) ks →
  (∀ branch' h' LOC' ids',
     ids' = (if withMutations x
             then foldl remove_first (p_ids ps1)
                    ((λ k, p_prop (p_row ps1 k) (idAttribute t)) <$> ks)
             else List.filter
                    (λ id, negb (includes
                       ((λ k, p_prop (p_row ps1 k) (idAttribute t)) <$> ks)
                       id))
                    (p_ids ps1)) →
     repr_with t (batchToken x) tmp h' branch' LOC'
       (PState ids'
          (omitted (p_rows ps1)
             (to_key <$> ((λ k, p_prop (p_row ps1 k) (idAttribute t)) <$> ks)))
          (p_meta ps1) (p_idx ps1)) →
     (∀ r, is_aux r → LOC' r = LOC0 r) →
     Q branch' h') →
  wp (let* idsToDelete :=
        mapM (λ row, get_prop row (idAttribute t))
          ((λ k, ref_of LOC0 (RRow k)) <$> ks) in
      if withMutations x then
        foldM (λ _ id,
                 let* l := read_arr (VRef la) in
                 match indexOf id l with
                 | Some idx => mutable_splice1 idx (VRef la);;; ret tt
                 | None => ret tt
                 end;;;
                 let* map := get_prop ws1 (mapName t) in
                 mutable_omit [to_key id] map;;;
                 ret tt)
              tt idsToDelete;;;
        ret ws1
      else
        let* ids := get_prop ws1 (arrName t) in
        let* newArr :=
          batch_filter (batchToken x) (λ id, negb (includes idsToDelete id))
            ids in
        let* map := get_prop ws1 (mapName t) in
        let* newMap :=
          batch_omit (batchToken x) (to_key <$> idsToDelete) map in
        batch_merge (batchToken x)
          [(arrName t, newArr); (mapName t, newMap)] ws1) h1 Q.
Proof.
  intros H1 HL1 Hla Hks1 HQ.
  apply wp_bind. eapply read_row_ids; [exact H1|exact HL1|exact Hks1|].
  set (idsToDelete := (λ k, p_prop (p_row ps1 k) (idAttribute t)) <$> ks) in *.
  pose proof H1 as (Hb1 & Hcov1 & Hp1).
  pose proof Hcov1 as (_ & _ & Hmap1 & _).
  destruct Hmap1 as [lm Hlm].
  assert (LOC1 RArr = Some la) as Hla1 by (by rewrite HL1 by (by intros [])).
  assert (∃ lb1, LOC1 RRoot = Some lb1) as [lb1 Hlb1] by (by destruct Hcov1 as [[? ?] _]; eexists).
  unfold ref_of in Hb1. rewrite Hlb1 in Hb1. subst ws1.
  assert (ref_of LOC1 RArr = VRef la) as Hra by (unfold ref_of; by rewrite Hla1).
  assert (ref_of LOC1 RMap = VRef lm) as Hrm by (unfold ref_of; by rewrite Hlm).
  (* the state once the three objects are written *)
  assert (∀ lb' la' lm' h2 LOC2 CONT2 ids',
    ids' = (if withMutations x then foldl remove_first (p_ids ps1) idsToDelete
            else List.filter (λ id, negb (includes idsToDelete id))
                   (p_ids ps1)) →
    prepr (batchToken x) h2 LOC2 CONT2 →
    LOC2 RRoot = Some lb' → LOC2 RArr = Some la' → LOC2 RMap = Some lm' →
    (∀ r, r ≠ RRoot → r ≠ RArr → r ≠ RMap → LOC2 r = LOC1 r) →
    CONT2 RRoot = BObj (<[mapName t := VRef lm']>
                          (<[arrName t := VRef la']> (root_props t LOC1))) →
    CONT2 RArr = BArr ids' →
    CONT2 RMap = BObj (omitted (map_props ps1 LOC1) (to_key <$> idsToDelete)) →
    (∀ r, r ≠ RRoot → r ≠ RArr → r ≠ RMap →
          CONT2 r = content_of t ps1 tmp LOC1 r) →
    Q (VRef lb') h2) as Hdone.
  { intros lb' la' lm' h2 LOC2 CONT2 ids' Eids H2 L2b L2a L2m L2o C2b C2a C2m
      C2o.
    apply (HQ (VRef lb') h2 (drop_rows (to_key <$> idsToDelete) LOC2) ids').
    - exact Eids.
    - by eapply (repr_del_rows _ h2 LOC1 ps1 LOC2 CONT2).
    - intros r Hr. destruct r; try (by destruct Hr); simpl.
      + rewrite L2o by done. by apply HL1; intros [].
      + rewrite L2o by done. by apply HL1; intros []. }
  destruct (withMutations x) eqn:Emode.
  - apply wp_bind.
    eapply (delete_mutable_loop idsToDelete (content_of t ps1 tmp LOC1) LOC1
              lb1 la lm h1 (p_ids ps1) (map_props ps1 LOC1));
      [|exact Hlb1|exact Hla1|exact Hlm|].
    { eapply prepr_ext; [exact Hp1|done|]. intros r _.
      unfold fupd. by repeat case_decide; subst. }
    intros h2 H2. apply wp_ret.
    eapply (Hdone lb1 la lm); [reflexivity|exact H2|try done; try (by fupd_simpl)..].
    + fupd_simpl. f_equal. symmetry.
      rewrite insert_id; [apply insert_id|].
      * by rewrite (root_lookup_arr t Hok), Hra.
      * rewrite lookup_insert_ne by (destruct Hok; done).
        by rewrite (root_lookup_map t Hok), Hrm.
    + intros r ? ? ?. by fupd_simpl.
  - apply wp_bind. eapply wp_get_prop; [exact Hp1|exact Hlb1|reflexivity|].
    rewrite (root_lookup_arr t Hok), Hra. simpl. apply wp_bind.
    eapply (wp_batch_filter _ _ _ _ Hp1 RArr); [exact Hla1|by intros []|reflexivity|].
    intros la' h2 P2.
    apply wp_bind. eapply (wp_get_prop _ _ _ _ P2 RRoot); [by fupd_simpl|by fupd_simpl|].
    simpl. rewrite (root_lookup_map t Hok), Hrm. simpl. apply wp_bind.
    eapply (wp_batch_omit _ _ _ _ P2 RMap);
      [by fupd_simpl|by intros []|by fupd_simpl|].
    intros lm' h3 P3.
    eapply (wp_batch_merge _ _ _ _ P3 RRoot);
      [by fupd_simpl|by intros []|by fupd_simpl|by repeat constructor|].
    intros lb' h4 P4.
    eapply (Hdone lb' la' lm'); [reflexivity|exact P4|try (by fupd_simpl)..].
    + intros r ? ? ?. by fupd_simpl.
    + intros r ? ? ?. by fupd_simpl.
Qed.

(** [delete] refines [p_delete]; the rows are those of the keys [ks]. *)
Lemma delete_refines ks h branch LOC ps ps1 (Q : val → heap → Prop) :
  repr_with t (batchToken x) tmp h branch LOC ps →
  Forall (λ k, is_Some (p_rows ps !! k)) ks →
  p_unindex t ks ps = Some ps1 →
  (withMutations x = true → NoDup (p_ids ps)) →
  (∀ branch' h' LOC',
     repr_with t (batchToken x) tmp h' branch' LOC'
       (PState
          (List.filter
             (λ id, negb (includes
                ((λ k, p_prop (p_row ps k) (idAttribute t)) <$> ks) id))
             (p_ids ps1))
          (omitted (p_rows ps1)
             (to_key <$> ((λ k, p_prop (p_row ps k) (idAttribute t)) <$> ks)))
          (p_meta ps1) (p_idx ps1)) →
     (∀ r, is_aux r → LOC' r = LOC r) →
     Q branch' h') →
  wp (delete t x branch ((λ k, ref_of LOC (RRow k)) <$> ks)) h Q.
Proof.
  intros Hrep Hks Hun Hnd HQ. unfold delete.
  pose proof Hrep as (Hb & Hcov & Hp).
  pose proof Hcov as (Hroot & Harr & _).
  destruct Hroot as [lb Hlb]. destruct Harr as [la Hla].
  unfold ref_of in Hb. rewrite Hlb in Hb. subst branch.
  apply wp_bind. eapply wp_get_prop; [exact Hp|exact Hlb|reflexivity|].
  assert (ref_of LOC RArr = VRef la) as Hra0 by (unfold ref_of; by rewrite Hla).
  rewrite (root_lookup_arr t Hok), Hra0. simpl.
  apply wp_bind.
  eapply (delete_index_fields _ LOC); [exact Hrep|done|exact Hks|exact Hun|].
  intros ws1 h1 LOC1 H1 HL1.
  pose proof (p_unindex_rows _ _ _ Hun) as (Erows & Eids & Emeta).
  assert (Forall (λ k, is_Some (p_rows ps1 !! k)) ks) as Hks1.
  { eapply Forall_impl; [exact Hks|]. intros k Hk. simpl. by rewrite Erows. }
  eapply delete_final; [exact H1|exact HL1|exact Hla|exact Hks1|].
  assert ((λ k, p_prop (p_row ps1 k) (idAttribute t)) <$> ks
          = (λ k, p_prop (p_row ps k) (idAttribute t)) <$> ks) as ->.
  { apply list_fmap_ext. intros _ k _. unfold p_row. by rewrite Erows. }
  intros b' h' LOC' ids' Eids' H' HL'. apply (HQ b' h' LOC'); [|done].
  rewrite Eids' in H'. destruct (withMutations x); [|done].
  rewrite remove_each_filter in H'; [done|]. rewrite Eids. by apply Hnd.
Qed.

End Refine.
End DeleteOp.

Import DeleteOp.

Module RunOps.

Section Refine.

Variable str_to_number : string → option Z.
Variable t : Table.
Hypothesis Hok : table_ok t.

(** A client's insert refines [p_insert]. *)
Lemma run_insert_refines x entry branch h LOC ps (Q : val → heap → Prop) :
  repr t h branch LOC ps →
  (∀ branch' h' LOC',
     repr t h' branch' LOC' (p_insert str_to_number t entry ps) → Q branch' h') →
  wp (run_op str_to_number t branch (OpInsert x entry)) h Q.
Proof.
  intros Hrep HQ. simpl. unfold new_object.
  pose proof (repr_unclean t (batchToken x)
                (insert_tmp t entry (p_insert_id str_to_number t entry ps))
                _ _ _ _ Hrep) as Hw.
  pose proof Hw as (Hb & Hcov & Hp).
  apply wp_bind. eapply (wp_alloc _ _ _ _ Hp (RTmp 0)).
  { intros _. by destruct (batchToken x). }
  intros le h1 H1.
  apply (repr_with_aux t (batchToken x)
           (insert_tmp t entry (p_insert_id str_to_number t entry ps))
           h1 branch LOC ps (RTmp 0) le Hb Hcov I) in H1.
  apply wp_bind.
  eapply (insert_refines str_to_number t Hok); [exact H1|by rewrite fupd_eq|].
  intros b' h' LOC' lfin H' _. apply wp_ret. simpl. by eapply HQ.
Qed.

(** Looking up the rows of the identities [ids]. *)
Lemma accessId_rows tok tmp ids h branch LOC ps (Q : list val → heap → Prop) :
  repr_with t tok tmp h branch LOC ps →
  Forall (λ k, is_Some (p_rows ps !! k)) (to_key <$> ids) →
  Q ((λ k, ref_of LOC (RRow k)) <$> (to_key <$> ids)) h →
  wp (mapM (accessId t branch) ids) h Q.
Proof.
  intros Hrep. revert Q. induction ids as [|id ids IH]; intros Q Hks HQ; simpl.
  - by apply wp_ret.
  - simpl in Hks. apply Forall_cons in Hks as [Hk Hks].
    pose proof Hrep as (Hb & Hcov & Hp).
    pose proof Hcov as (Hroot & _ & Hmap & _ & _ & _ & _ & Hrow).
    destruct Hroot as [lb Hlb]. destruct Hmap as [lm Hlm].
    unfold ref_of in Hb. rewrite Hlb in Hb. subst branch.
    apply wp_bind. unfold accessId at 1. apply wp_bind.
    eapply wp_get_prop; [exact Hp|exact Hlb|reflexivity|].
    rewrite (root_lookup_map t Hok). unfold ref_of at 1. rewrite Hlm. simpl.
    eapply wp_get_prop; [exact Hp|exact Hlm|reflexivity|].
    destruct (map_props_lookup ps LOC (to_key id) Hrow)
      as [(l & Hl1 & Hl2 & _)|(_ & Hnone & _)].
    2:{ rewrite Hnone in Hk. by destruct Hk. }
    rewrite Hl1. simpl.
    apply wp_bind. apply IH; [done|]. apply wp_ret.
    simpl in HQ. unfold ref_of at 1 in HQ. by rewrite Hl2 in HQ.
Qed.

(** A client's delete refines [p_delete]. *)
Lemma run_delete_refines x ids branch h LOC ps ps' (Q : val → heap → Prop) :
  repr t h branch LOC ps →
  NoDup (p_ids ps) →
  p_delete t ids ps = Some ps' →
  (∀ branch' h' LOC', repr t h' branch' LOC' ps' → Q branch' h') →
  wp (run_op str_to_number t branch (OpDelete x ids)) h Q.
Proof.
  intros Hrep Hnd Hdel HQ. simpl.
  pose proof (repr_unclean t (batchToken x) (λ _, BObj ∅) _ _ _ _ Hrep) as Hw.
  destruct Hrep as [_ Haux].
  unfold p_delete in Hdel.
  destruct (forallb _ _) eqn:Hall; [|done].
  destruct (p_unindex t (to_key <$> ids) ps) as [ps1|] eqn:Hun; [|done].
  injection Hdel as <-.
  assert (Forall (λ k, is_Some (p_rows ps !! k)) (to_key <$> ids)) as Hks.
  { apply Forall_forall. intros k Hk.
    rewrite forallb_forall in Hall. apply list_elem_of_In in Hk.
    specialize (Hall k Hk). by apply bool_decide_eq_true in Hall. }
  apply wp_bind. eapply accessId_rows; [exact Hw|exact Hks|].
  eapply (delete_refines t Hok); [exact Hw|exact Hks|exact Hun|done|].
  intros b' h' LOC' H' HL'. apply (HQ b' h' LOC').
  eapply repr_clean; [exact H'|]. intros r Hr. rewrite HL' by done. by apply Haux.
Qed.

End Refine.
End RunOps.

Import RunOps.

Module PureFacts.

Section Facts.

Variable str_to_number : string → option Z.
Variable t : Table.

Lemma fold_insertToIndex_parts id (e : gmap string val) fs ps :
  let ps' := foldl (λ ps f, p_insertToIndex id (field_opts t f) f
                              (default VUndef (e !! f)) ps) ps fs in
  p_ids ps' = p_ids ps ∧ p_rows ps' = p_rows ps ∧ p_meta ps' = p_meta ps.
Proof.
  revert ps. induction fs as [|f fs IH]; intros ps; simpl; [done|].
  destruct (IH (p_insertToIndex id (field_opts t f) f
                  (default VUndef (e !! f)) ps)) as (-> & -> & ->).
  done.
Qed.

Lemma p_insert_ids e ps :
  p_ids (p_insert str_to_number t e ps)
  = p_ids ps ++ [p_insert_id str_to_number t e ps].
Proof.
  unfold p_insert. simpl. f_equal.
  by destruct (fold_insertToIndex_parts (p_insert_id str_to_number t e ps) e
                 (getIndexedFields t)
                 (p_setMeta "maxId"
                    (idSequencer str_to_number
                       (default VUndef (p_meta ps !! "maxId"))
                       (default VUndef (e !! idAttribute t))).1 ps))
    as (-> & _ & _).
Qed.

Lemma p_insert_rows e ps :
  p_rows (p_insert str_to_number t e ps)
  = <[to_key (p_insert_id str_to_number t e ps) :=
        p_created str_to_number t e ps]> (p_rows ps).
Proof.
  unfold p_insert. simpl. f_equal.
  by destruct (fold_insertToIndex_parts (p_insert_id str_to_number t e ps) e
                 (getIndexedFields t)
                 (p_setMeta "maxId"
                    (idSequencer str_to_number
                       (default VUndef (p_meta ps !! "maxId"))
                       (default VUndef (e !! idAttribute t))).1 ps))
    as (_ & -> & _).
Qed.

Lemma p_insert_meta e ps :
  p_meta (p_insert str_to_number t e ps)
  = <["maxId" := (idSequencer str_to_number
                    (default VUndef (p_meta ps !! "maxId"))
                    (default VUndef (e !! idAttribute t))).1]> (p_meta ps).
Proof.
  unfold p_insert. simpl.
  by destruct (fold_insertToIndex_parts (p_insert_id str_to_number t e ps) e
                 (getIndexedFields t)
                 (p_setMeta "maxId"
                    (idSequencer str_to_number
                       (default VUndef (p_meta ps !! "maxId"))
                       (default VUndef (e !! idAttribute t))).1 ps))
    as (_ & _ & ->).
Qed.

Lemma to_double_safe z : safe_integer z = true → to_double z = z.
Proof. unfold safe_integer, to_double. by intros ->. Qed.

(** The identity and the maximum [idSequencer] gives a numeric
    collection. *)
Lemma idSequencer_numeric (cur : option Z) (given : option Z) :
  idSequencer str_to_number
    (from_option VNum VUndef cur) (from_option VNum VUndef given)
  = match given with
    | None => (VNum (to_double (default (-1) cur + 1)),
               VNum (to_double (default (-1) cur + 1)))
    | Some s => (VNum (Z.max (to_double (default (-1) cur + 1)) s), VNum s)
    end%Z.
Proof. by destruct cur, given. Qed.

Lemma p_inv_empty : p_inv p_empty.
Proof.
  split_and!; simpl.
  - constructor.
  - intros id Hid. by apply elem_of_nil in Hid.
  - by left.
Qed.

Lemma p_inv_insert e ps :
  p_inv ps → explicit_ok t e ps = true →
  p_inv (p_insert str_to_number t e ps).
Proof.
  intros (Hnd & Hbound & Hmeta) Hex.
  unfold explicit_ok in Hex. apply andb_true_iff in Hex as [Hsafe Hex].
  assert (∃ cur, default VUndef (p_meta ps !! "maxId") = from_option VNum VUndef cur
                 ∧ to_double (default (-1) cur + 1)%Z = (default (-1) cur + 1)%Z
                 ∧ ∀ id, id ∈ p_ids ps → ∃ n, id = VNum n ∧ (n ≤ default (-1) cur)%Z)
    as (cur & Ecur & Hd & Hle).
  { unfold safe_max in Hsafe. destruct Hmeta as [Hm|[m Hm]].
    - exists None. rewrite Hm. split_and!; [done|done|]. intros id Hid.
      destruct (Hbound id Hid) as (n & m & _ & Hm' & _). congruence.
    - exists (Some m). rewrite Hm in Hsafe |- *.
      split_and!; [done|by apply to_double_safe|]. intros id Hid.
      destruct (Hbound id Hid) as (n & m' & -> & Hm' & Hn).
      exists n. split; [done|]. simpl. congruence. }
  assert (∃ given, default VUndef (e !! idAttribute t) = from_option VNum VUndef given
                   ∧ ∀ s, given = Some s → VNum s ∉ p_ids ps)
    as (given & Egiven & Hfresh).
  { destruct (e !! idAttribute t) as [v|]; [destruct v as [| |b|s| |str|l]|];
      try done.
    - exists (Some s). split; [done|]. intros s' [= <-].
      apply andb_true_iff in Hex as [Hex _].
      by apply bool_decide_eq_true in Hex.
    - by exists None. }
  unfold p_inv. rewrite p_insert_ids, p_insert_meta. unfold p_insert_id.
  rewrite Ecur, Egiven, idSequencer_numeric, Hd.
  destruct given as [s|]; simpl.
  - split_and!.
    + apply NoDup_app. split_and!; [done| |apply NoDup_singleton].
      intros id Hid ->%list_elem_of_singleton. by apply (Hfresh s).
    + intros id [Hid| ->%list_elem_of_singleton]%elem_of_app.
      * destruct (Hle id Hid) as (n & -> & Hn). eexists n, _.
        rewrite lookup_insert_eq. split_and!; [done|done|lia].
      * eexists s, _. rewrite lookup_insert_eq. split_and!; [done|done|lia].
    + right. eexists. by rewrite lookup_insert_eq.
  - split_and!.
    + apply NoDup_app. split_and!; [done| |apply NoDup_singleton].
      intros id Hid ->%list_elem_of_singleton.
      destruct (Hle _ Hid) as (n & [= <-] & Hn). lia.
    + intros id [Hid| ->%list_elem_of_singleton]%elem_of_app.
      * destruct (Hle id Hid) as (n & -> & Hn). eexists n, _.
        rewrite lookup_insert_eq. split_and!; [done|done|lia].
      * eexists _, _. rewrite lookup_insert_eq. split_and!; [done|done|lia].
    + right. eexists. by rewrite lookup_insert_eq.
Qed.

Lemma p_inv_delete ids ps ps' :
  p_inv ps → p_delete t ids ps = Some ps' → p_inv ps'.
Proof.
  intros (Hnd & Hbound & Hmeta). unfold p_delete.
  destruct (forallb _ _); [|done].
  destruct (p_unindex t (to_key <$> ids) ps) as [ps1|] eqn:Hun; [|done].
  intros [= <-]. apply p_unindex_rows in Hun as (Erows & Eids & Emeta).
  unfold p_inv. simpl. rewrite Eids, Emeta. split_and!; [|
    |done].
  - by apply NoDup_list_filter.
  - intros id Hid. apply Hbound. apply list_elem_of_In in Hid.
    apply List.filter_In in Hid as [Hid _]. by apply list_elem_of_In.
Qed.

Lemma to_double_unsafe z :
  (0 ≤ z)%Z → safe_integer z = false → (2 ^ 53 ≤ to_double z)%Z.
Proof.
  intros Hz Hs. unfold safe_integer in Hs. apply Z.ltb_ge in Hs.
  rewrite Z.abs_eq in Hs by done.
  unfold to_double. rewrite Z.abs_eq by done.
  destruct (z <? 2 ^ 53)%Z eqn:E; [apply Z.ltb_lt in E; lia|].
  assert (53 ≤ Z.log2 z)%Z as Hlog.
  { apply Z.log2_le_pow2; lia. }
  set (q := (2 ^ (Z.log2 z - 52))%Z).
  assert (2 ≤ q)%Z as Hq.
  { unfold q. change 2%Z with (2 ^ 1)%Z at 1.
    apply Z.pow_le_mono_r; lia. }
  assert (2 ^ 52 * q ≤ z)%Z as Hlow.
  { unfold q. rewrite <- Z.pow_add_r by lia.
    replace (52 + (Z.log2 z - 52))%Z with (Z.log2 z) by lia.
    apply Z.log2_spec. lia. }
  assert (2 ^ 52 ≤ z / q)%Z as Hm.
  { apply Z.div_le_lower_bound; lia. }
  rewrite Z.sgn_pos by lia.
  assert (∀ m', (z / q ≤ m')%Z → (2 ^ 53 ≤ 1 * (m' * q))%Z) as Hres.
  { intros m' Hm'. nia. }
  repeat case_match; apply Hres; lia.
Qed.

Lemma p_fresh_empty : p_fresh p_empty.
Proof.
  split_and!; simpl.
  - constructor.
  - by left.
  - intros m _ _ n Hn. by apply elem_of_nil in Hn.
Qed.

Lemma p_fresh_insert e ps :
  p_fresh ps → fresh_ok t e ps = true →
  p_fresh (p_insert str_to_number t e ps).
Proof.
  intros (Hnd & Hmeta & Hbound) Hex.
  unfold p_cur in Hbound. unfold p_fresh, p_cur.
  rewrite p_insert_ids, p_insert_meta. unfold p_insert_id.
  unfold fresh_ok in Hex.
  set (given := default VUndef (e !! idAttribute t)) in *.
  destruct (decide (given = VUndef)) as [Eg|Eg].
  - (* an identity is assigned *)
    rewrite Eg in Hex |- *. unfold safe_max in Hex.
    assert (∃ c, default VUndef (p_meta ps !! "maxId")
                 = from_option VNum VUndef c ∧
                 (-1 ≤ default (-1) c)%Z ∧
                 safe_integer (default (-1) c + 1)%Z = true ∧
                 ∀ n, VNum n ∈ p_ids ps → (n ≤ default (-1) c)%Z)
      as (c & Ec & Hc & Hsafe & Hle).
    { destruct Hmeta as [Hm|[Hm|(m & Hm & Hpos)]]; rewrite Hm in Hex, Hbound.
      - exists None. split_and!; [by rewrite Hm|done|done|].
        intros n Hn. by apply (Hbound (-1)%Z).
      - done.
      - exists (Some m). split_and!; [by rewrite Hm|simpl; lia|done|].
        intros n Hn. by apply (Hbound m). }
    rewrite Ec.
    pose proof (idSequencer_numeric c None) as E.
    cbn [from_option] in E. rewrite E. clear E.
    rewrite to_double_safe by done. cbn [fst snd].
    split_and!.
    + apply NoDup_app. split_and!; [done| |apply NoDup_singleton].
      intros id Hid ->%list_elem_of_singleton. apply Hle in Hid. lia.
    + right. right. eexists. rewrite lookup_insert_eq. split; [done|lia].
    + intros m. rewrite lookup_insert_eq. intros [= <-] _ n.
      intros [Hn| [= ->]%list_elem_of_singleton]%elem_of_app; [|lia].
      apply Hle in Hn. lia.
  - (* the entry names its identity *)
    assert (given ∉ p_ids ps) as Hfresh.
    { destruct given; try done; by apply bool_decide_eq_true in Hex. }
    assert (NoDup (p_ids ps ++ [given])) as Hnd'.
    { apply NoDup_app. split_and!; [done| |apply NoDup_singleton].
      by intros id Hid ->%list_elem_of_singleton. }
    assert (idSequencer str_to_number (default VUndef (p_meta ps !! "maxId"))
              given
            = (math_max str_to_number
                 (plus_one (from_option id (VNum (-1))
                              (p_meta ps !! "maxId"))) given, given)) as E.
    { unfold idSequencer. destruct given; try done;
        destruct Hmeta as [Hm|[Hm|(m & Hm & _)]]; by rewrite Hm. }
    rewrite E. clear E. cbn [fst snd].
    destruct Hmeta as [Hm|[Hm|(m & Hm & Hpos)]]; rewrite Hm in Hbound |- *;
      cbn [from_option id plus_one].
    + (* no maximum yet *)
      unfold math_max. cbn [to_number].
      change (to_double (-1 + 1)) with 0%Z.
      destruct (to_number str_to_number given) as [y|] eqn:Ey.
      * split_and!; [done| |].
        -- right. right. eexists. rewrite lookup_insert_eq. split; [done|lia].
        -- intros m. rewrite lookup_insert_eq. intros [= <-] _ n.
           intros [Hn|Hn%list_elem_of_singleton]%elem_of_app.
           ++ specialize (Hbound (-1)%Z eq_refl eq_refl n Hn). lia.
           ++ rewrite <- Hn in Ey. simpl in Ey. injection Ey as <-. lia.
      * split_and!; [done| |].
        -- right. left. by rewrite lookup_insert_eq.
        -- intros m. by rewrite lookup_insert_eq.
    + (* the maximum is NaN *)
      unfold math_max. cbn [to_number plus_one]. split_and!; [done| |].
      * right. left. by rewrite lookup_insert_eq.
      * intros m. by rewrite lookup_insert_eq.
    + unfold math_max. cbn [to_number].
      destruct (to_number str_to_number given) as [y|] eqn:Ey.
      * assert ((0 ≤ to_double (m + 1))%Z ∧
                (safe_integer (m + 1) = true →
                 to_double (m + 1) = m + 1)%Z ∧
                (safe_integer (m + 1) = false →
                 2 ^ 53 ≤ to_double (m + 1))%Z) as (Hup & Hsame & Hbig).
        { destruct (safe_integer (m + 1)) eqn:Es.
          - rewrite to_double_safe by done. split_and!; [lia|done|done].
          - pose proof (to_double_unsafe (m + 1) ltac:(lia) Es) as Hb.
            split_and!; [lia|done|done]. }
        split_and!; [done| |].
        -- right. right. eexists. rewrite lookup_insert_eq. split; [done|lia].
        -- intros M. rewrite lookup_insert_eq. intros [= <-] HsM n.
           assert (safe_integer (m + 1) = true) as Es.
           { destruct (safe_integer (m + 1)) eqn:Es; [done|].
             specialize (Hbig eq_refl). unfold safe_integer in HsM.
             apply Z.ltb_lt in HsM. lia. }
           intros [Hn|Hn%list_elem_of_singleton]%elem_of_app.
           ++ specialize (Hbound m eq_refl Es n Hn). specialize (Hsame Es). lia.
           ++ rewrite <- Hn in Ey. simpl in Ey. injection Ey as <-. lia.
      * split_and!; [done| |].
        -- right. left. by rewrite lookup_insert_eq.
        -- intros M. by rewrite lookup_insert_eq.
Qed.

Lemma p_keys_empty : p_keys p_empty.
Proof.
  intros k. simpl. rewrite lookup_empty. split; [by intros [? ?]|].
  intros H. by apply elem_of_nil in H.
Qed.

Lemma p_keys_insert e ps :
  p_keys ps → p_keys (p_insert str_to_number t e ps).
Proof.
  intros Hk k. rewrite p_insert_ids, p_insert_rows, fmap_app, elem_of_app.
  destruct (decide (k = to_key (p_insert_id str_to_number t e ps))) as [->|Hne].
  - rewrite lookup_insert_eq. split; [|by eexists].
    intros _. right. apply list_elem_of_singleton. done.
  - rewrite lookup_insert_ne by done. split.
    + intros H. left. by apply Hk.
    + intros [H|H]; [by apply Hk|].
      apply list_elem_of_singleton in H. done.
Qed.

End Facts.
End PureFacts.

Import PureFacts.

Module ReadBack.

Lemma wp_result {A} (c : M A) h (a : A) :
  wp c h (λ r h', r = a ∧ h' = h) → c h = Some (a, h).
Proof. by intros (r & h' & -> & -> & ->). Qed.

Section Reads.

Variable str_to_number : string → option Z.
Variable t : Table.
Hypothesis Hok : table_ok t.
Variable tok : option token.
Variable tmp : role → body.
Variable h : heap.
Variable branch : val.
Variable LOC : role → option nat.
Variable ps : pstate.
Hypothesis Hrep : repr_with t tok tmp h branch LOC ps.

Lemma accessIdList_repr : accessIdList t branch h = Some (p_ids ps, h).
Proof.
  apply wp_result. destruct Hrep as (Hb & Hcov & Hp).
  pose proof Hcov as (Hroot & Harr & _).
  destruct Hroot as [lb Hlb]. destruct Harr as [la Hla].
  unfold ref_of in Hb. rewrite Hlb in Hb. subst branch.
  unfold accessIdList. apply wp_bind.
  eapply wp_get_prop; [exact Hp|exact Hlb|reflexivity|].
  rewrite (root_lookup_arr t Hok). unfold ref_of. rewrite Hla. simpl.
  eapply wp_read_arr; [exact Hp|exact Hla|reflexivity|done].
Qed.

Lemma idExists_repr id :
  idExists t branch id h
  = Some (bool_decide (is_Some (p_rows ps !! to_key id)), h).
Proof.
  apply wp_result. destruct Hrep as (Hb & Hcov & Hp).
  pose proof Hcov as (Hroot & _ & Hmap & _ & _ & _ & _ & Hrow).
  destruct Hroot as [lb Hlb]. destruct Hmap as [lm Hlm].
  unfold ref_of in Hb. rewrite Hlb in Hb. subst branch.
  unfold idExists. apply wp_bind.
  eapply wp_get_prop; [exact Hp|exact Hlb|reflexivity|].
  rewrite (root_lookup_map t Hok). unfold ref_of. rewrite Hlm. simpl.
  eapply wp_has_own; [exact Hp|exact Hlm|reflexivity|].
  split; [|done]. apply bool_decide_ext.
  unfold map_props. rewrite map_lookup_imap.
  destruct (p_rows ps !! to_key id) as [row|]; simpl.
  - split; intros _; by eexists.
  - split; intros [? ?]; done.
Qed.

Lemma accessId_repr id :
  accessId t branch id h = Some (ref_of LOC (RRow (to_key id)), h).
Proof.
  apply wp_result. destruct Hrep as (Hb & Hcov & Hp).
  pose proof Hcov as (Hroot & _ & Hmap & _ & _ & _ & _ & Hrow).
  destruct Hroot as [lb Hlb]. destruct Hmap as [lm Hlm].
  unfold ref_of in Hb. rewrite Hlb in Hb. subst branch.
  unfold accessId. apply wp_bind.
  eapply wp_get_prop; [exact Hp|exact Hlb|reflexivity|].
  rewrite (root_lookup_map t Hok). unfold ref_of at 1. rewrite Hlm. simpl.
  eapply wp_get_prop; [exact Hp|exact Hlm|reflexivity|].
  split; [|done].
  destruct (map_props_lookup ps LOC (to_key id) Hrow)
    as [(l & -> & Hl2 & _)|(-> & _ & Hnone)]; simpl; unfold ref_of.
  - by rewrite Hl2.
  - by rewrite Hnone.
Qed.

Lemma getMaxId_repr :
  getMaxId branch h = Some (default VUndef (p_meta ps !! "maxId"), h).
Proof.
  apply wp_result. destruct Hrep as (Hb & Hcov & Hp).
  pose proof Hcov as (Hroot & _ & _ & Hmeta & _).
  destruct Hroot as [lb Hlb]. destruct Hmeta as [lm Hlm].
  unfold ref_of in Hb. rewrite Hlb in Hb. subst branch.
  unfold getMaxId, getMeta. apply wp_bind.
  eapply wp_get_prop; [exact Hp|exact Hlb|reflexivity|].
  rewrite (root_lookup_meta t). unfold ref_of. rewrite Hlm. simpl.
  eapply wp_get_prop; [exact Hp|exact Hlm|reflexivity|done].
Qed.

Lemma getIdListByIndex_repr f v :
  getIdListByIndex branch f v h = Some (p_bucket ps f (to_key v), h).
Proof.
  apply wp_result. destruct Hrep as (Hb & Hcov & Hp).
  pose proof Hcov as (Hroot & _ & _ & _ & Hidx & Hf & Hbk & _).
  destruct Hroot as [lb Hlb]. destruct Hidx as [li Hli].
  unfold ref_of in Hb. rewrite Hlb in Hb. subst branch.
  unfold getIdListByIndex. apply wp_bind.
  eapply wp_get_prop; [exact Hp|exact Hlb|reflexivity|].
  rewrite (root_lookup_idx t). unfold ref_of. rewrite Hli. simpl.
  apply wp_bind. eapply wp_get_prop; [exact Hp|exact Hli|reflexivity|].
  destruct (idx_props_lookup ps LOC f Hf)
    as [(lf & -> & Hlf & _)|(-> & Hnone & _)]; simpl.
  - apply wp_bind. eapply wp_get_prop; [exact Hp|exact Hlf|reflexivity|].
    destruct (field_props_lookup ps LOC f (to_key v) Hbk)
      as [(la & -> & Hla & _)|(-> & Hnone & _)]; simpl.
    + eapply wp_read_arr; [exact Hp|exact Hla|reflexivity|done].
    + apply wp_ret. unfold p_bucket. by rewrite Hnone.
  - apply wp_ret. unfold p_bucket, p_field. rewrite Hnone. simpl.
    by rewrite lookup_empty.
Qed.

End Reads.
End ReadBack.

Import ReadBack.

Module ReadFacts.

Lemma bind_eq {A B} (c : M A) (k : A → M B) h a h1 :
  c h = Some (a, h1) → bind c k h = k a h1.
Proof. intros H. unfold bind. by rewrite H. Qed.

Lemma get_prop_at tok h LOC CONT r l m k :
  prepr tok h LOC CONT → LOC r = Some l → CONT r = BObj m →
  get_prop (VRef l) k h = Some (default VUndef (m !! k), h).
Proof.
  intros Hp Hl Hm. apply wp_result.
  eapply wp_get_prop; [exact Hp|exact Hl|exact Hm|done].
Qed.

Section Facts.

Variable t : Table.
Hypothesis Hok : table_ok t.

Lemma row_read tok tmp h branch LOC ps k l :
  repr_with t tok tmp h branch LOC ps → LOC (RRow k) = Some l →
  read_obj (VRef l) h = Some (p_row ps k, h).
Proof.
  intros (_ & _ & Hp) Hl. apply wp_result.
  eapply wp_read_obj; [exact Hp|exact Hl|reflexivity|done].
Qed.

Lemma getMeta_repr tok tmp h b LOC ps key :
  repr_with t tok tmp h b LOC ps →
  getMeta b key h = Some (default VUndef (p_meta ps !! key), h).
Proof.
  intros (Hb & Hcov & Hp). apply wp_result.
  pose proof Hcov as (Hroot & _ & _ & Hmeta & _).
  destruct Hroot as [lb Hlb]. destruct Hmeta as [lm Hlm].
  unfold ref_of in Hb. rewrite Hlb in Hb. subst b.
  unfold getMeta. apply wp_bind.
  eapply wp_get_prop; [exact Hp|exact Hlb|reflexivity|].
  rewrite (root_lookup_meta t). unfold ref_of. rewrite Hlm. simpl.
  eapply wp_get_prop; [exact Hp|exact Hlm|reflexivity|done].
Qed.

(** The rows of the identities [ids], [undefined] where there is none. *)
Lemma accessId_all tok tmp h b LOC ps ids :
  repr_with t tok tmp h b LOC ps →
  mapM (accessId t b) ids h
  = Some ((λ id, ref_of LOC (RRow (to_key id))) <$> ids, h).
Proof.
  intros Hrep. induction ids as [|id ids IH]; [done|].
  cbn [mapM fmap list_fmap].
  rewrite (bind_eq _ _ _ _ _ (accessId_repr t Hok _ _ _ _ _ _ Hrep id)).
  by rewrite (bind_eq _ _ _ _ _ IH).
Qed.

Lemma accessList_repr tok tmp h b LOC ps :
  repr_with t tok tmp h b LOC ps →
  accessList t b h
  = Some ((λ id, ref_of LOC (RRow (to_key id))) <$> p_ids ps, h).
Proof.
  intros Hrep. unfold accessList.
  rewrite (bind_eq _ _ _ _ _ (accessIdList_repr t Hok _ _ _ _ _ _ Hrep)).
  by apply (accessId_all tok tmp _ _ _ ps).
Qed.

End Facts.
End ReadFacts.

Import ReadFacts.

Module LookupFacts.

Section Facts.

Variable str_to_number : string → option Z.
Variable t : Table.
Hypothesis Hok : table_ok t.

(** A client's insert refines [p_insert]; the created row is the row of
    the new identity. *)
Lemma insert_entry_refines x entry branch h LOC ps
    (Q : val * val → heap → Prop) :
  repr t h branch LOC ps →
  (∀ branch' h' LOC' l,
     repr t h' branch' LOC' (p_insert str_to_number t entry ps) →
     LOC' (RRow (to_key (p_insert_id str_to_number t entry ps))) = Some l →
     Q (branch', VRef l) h') →
  wp (insert_entry str_to_number t x branch entry) h Q.
Proof.
  intros Hrep HQ. unfold insert_entry, new_object.
  pose proof (repr_unclean t (batchToken x)
                (insert_tmp t entry (p_insert_id str_to_number t entry ps))
                _ _ _ _ Hrep) as Hw.
  pose proof Hw as (Hb & Hcov & Hp).
  apply wp_bind. eapply (wp_alloc _ _ _ _ Hp (RTmp 0)).
  { intros _. by destruct (batchToken x). }
  intros le h1 H1.
  apply (repr_with_aux t (batchToken x)
           (insert_tmp t entry (p_insert_id str_to_number t entry ps))
           h1 branch LOC ps (RTmp 0) le Hb Hcov I) in H1.
  eapply (insert_refines str_to_number t Hok); [exact H1|by rewrite fupd_eq|].
  intros b' h' LOC' lfin H' Hl. by eapply HQ.
Qed.

Lemma row_of_repr tok tmp h branch LOC ps id :
  repr_with t tok tmp h branch LOC ps →
  row_of t branch id h = Some (p_rows ps !! to_key id, h).
Proof.
  intros Hrep. unfold row_of, bind.
  rewrite (accessId_repr t Hok _ _ _ _ _ _ Hrep).
  pose proof Hrep as (_ & Hcov & _).
  destruct Hcov as (_ & _ & _ & _ & _ & _ & _ & Hrow).
  unfold ref_of. destruct (LOC (RRow (to_key id))) as [l|] eqn:El.
  - rewrite (row_read t _ _ _ _ _ _ _ _ Hrep El). unfold ret, p_row.
    destruct (proj1 (Hrow (to_key id))) as [row ->]; [by eexists|]. done.
  - unfold ret. destruct (p_rows ps !! to_key id) eqn:E; [|done].
    destruct (proj2 (Hrow (to_key id))) as [l Hl]; [by eexists|]. congruence.
Qed.

(** What [insert] of a new entry makes of a well-formed branch: the
    maximum and the identity of [idSequencer], the created row kept under
    the key of the identity, which ends the list. *)
Lemma insert_entry_reads x entry b h LOC ps :
  repr t h b LOC ps →
  let r := idSequencer str_to_number (default VUndef (p_meta ps !! "maxId"))
             (default VUndef (entry !! idAttribute t)) in
  ∃ b' created h',
    insert_entry str_to_number t x b entry h = Some ((b', created), h') ∧
    read_obj created h'
    = Some (if bool_decide (is_Some (entry !! idAttribute t)) then entry
            else <[idAttribute t := r.2]> entry, h') ∧
    accessId t b' r.2 h' = Some (created, h') ∧
    idExists t b' r.2 h' = Some (true, h') ∧
    accessIdList t b' h' = Some (p_ids ps ++ [r.2], h') ∧
    getMaxId b' h' = Some (r.1, h') ∧
    (∀ id', to_key id' ≠ to_key r.2 →
       fst <$> row_of t b' id' h' = fst <$> row_of t b id' h).
Proof.
  intros Hrep r.
  pose proof (repr_unclean t None (λ _, BObj ∅) _ _ _ _ Hrep) as Hw.
  destruct (insert_entry_refines x entry b h LOC ps
              (λ r h', ∃ LOC' l,
                 repr t h' r.1 LOC' (p_insert str_to_number t entry ps) ∧
                 LOC' (RRow (to_key (p_insert_id str_to_number t entry ps)))
                 = Some l ∧
                 r.2 = VRef l) Hrep)
    as ([b' created] & h' & Hrun & LOC' & l & Hrep' & Hl & Hc).
  { intros b' h' LOC' l H' Hl. by exists LOC', l. }
  simpl in Hrep', Hc. subst created.
  pose proof (repr_unclean t None (λ _, BObj ∅) _ _ _ _ Hrep') as Hw'.
  assert (r.2 = p_insert_id str_to_number t entry ps) as Er2 by done.
  exists b', (VRef l), h'. split_and!; [done|..].
  - rewrite (row_read t _ _ _ _ _ _ _ _ Hw' Hl). do 2 f_equal.
    unfold p_row. rewrite p_insert_rows, lookup_insert_eq. simpl.
    unfold p_created. by rewrite Er2.
  - rewrite (accessId_repr t Hok _ _ _ _ _ _ Hw'). rewrite Er2.
    unfold ref_of. by rewrite Hl.
  - rewrite (idExists_repr t Hok _ _ _ _ _ _ Hw'). do 2 f_equal.
    apply bool_decide_eq_true_2. rewrite p_insert_rows, Er2, lookup_insert_eq.
    by eexists.
  - rewrite (accessIdList_repr t Hok _ _ _ _ _ _ Hw').
    by rewrite p_insert_ids, Er2.
  - rewrite (getMaxId_repr t _ _ _ _ _ _ Hw').
    by rewrite p_insert_meta, lookup_insert_eq.
  - intros id' Hne.
    rewrite (row_of_repr _ _ _ _ _ _ id' Hw').
    rewrite (row_of_repr _ _ _ _ _ _ id' Hw).
    rewrite p_insert_rows, lookup_insert_ne; [done|]. by rewrite <- Er2.
Qed.

End Facts.
End LookupFacts.

Import LookupFacts.

Module PartialFacts.

Lemma wpf_ret {A} (a : A) h Q : Q a h → wpf (ret a) h Q.
Proof. intros HQ r h' [= <- <-]. done. Qed.

Lemma wpf_bind {A B} (c : M A) (k : A → M B) h Q :
  wpf c h (λ a h1, wpf (k a) h1 Q) → wpf (bind c k) h Q.
Proof.
  intros Hc r h'. unfold bind. destruct (c h) as [[a h1]|] eqn:E; [|done].
  by apply (Hc a h1).
Qed.

Lemma wp_wpf {A} (c : M A) h Q : wp c h Q → wpf c h Q.
Proof. intros (r & h' & Hc & HQ) r2 h2. rewrite Hc. by intros [= <- <-]. Qed.

Lemma wpf_bind_wp {A B} (c : M A) (k : A → M B) h Q :
  wp c h (λ a h1, wpf (k a) h1 Q) → wpf (bind c k) h Q.
Proof. intros H. apply wpf_bind. by apply wp_wpf. Qed.

Lemma wpf_fail {A} (c : M A) h Q : c h = None → wpf c h Q.
Proof. intros E r h'. by rewrite E. Qed.

Lemma wpf_mono {A} (c : M A) h (Q Q' : A → heap → Prop) :
  wpf c h Q → (∀ a h', Q a h' → Q' a h') → wpf c h Q'.
Proof. intros H HQ r h' E. apply HQ. by apply H. Qed.

Lemma wpf_result {A} (c : M A) h Q r h' :
  wpf c h Q → c h = Some (r, h') → Q r h'.
Proof. intros H. apply H. Qed.

(** A loop fails when one of its steps does. *)
Lemma foldM_fail {A B} (f : A → B → M A) (b : B) (l : list B) a h :
  (∀ a h, f a b h = None) → b ∈ l → foldM f a l h = None.
Proof.
  intros Hf Hb. revert a h. induction l as [|b' l IH]; intros a h.
  - by apply elem_of_nil in Hb.
  - simpl. unfold bind. apply elem_of_cons in Hb as [<-|Hb].
    + by rewrite Hf.
    + destruct (f a b' h) as [[a' h1]|]; [by apply IH|done].
Qed.

Lemma mapM_fail {A B} (f : A → M B) (a : A) (l : list A) h :
  (∀ h, f a h = None) → a ∈ l → mapM f l h = None.
Proof.
  intros Hf Ha. revert h. induction l as [|a' l IH]; intros h.
  - by apply elem_of_nil in Ha.
  - simpl. unfold bind. apply elem_of_cons in Ha as [<-|Ha].
    + by rewrite Hf.
    + destruct (f a' h) as [[b h1]|]; [|done]. by rewrite IH.
Qed.

Lemma get_prop_undefined k h : get_prop VUndef k h = None.
Proof. done. Qed.

Lemma merge_undefined x mo h :
  (if withMutations x then mutable_merge mo VUndef
   else batch_merge (batchToken x) mo VUndef) h = None.
Proof. by destruct (withMutations x), (batchToken x). Qed.

(** The properties a merge leaves alone. *)
Lemma merged_other m (mo : list (string * val)) k :
  Forall (λ kv : string * val, kv.1 ≠ k) mo → merged m mo !! k = m !! k.
Proof.
  unfold merged. revert m. induction mo as [|kv mo IH]; intros m Hmo; [done|].
  apply Forall_cons in Hmo as [Hkv Hmo]. simpl. rewrite IH by done.
  by rewrite lookup_insert_ne.
Qed.

Lemma merged_cow_other m (mo : list (string * val)) k :
  Forall (λ kv : string * val, kv.1 ≠ k) mo → merged_cow m mo !! k = m !! k.
Proof.
  unfold merged_cow.
  assert (∀ b, Forall (λ kv : string * val, kv.1 ≠ k) mo →
               (foldl merge_step (b, m) mo).2 !! k = m !! k) as H.
  { revert m. induction mo as [|kv mo IH]; intros m b Hmo; [done|].
    apply Forall_cons in Hmo as [Hkv Hmo]. simpl. unfold merge_step at 2.
    simpl. destruct (strict_eq _ _); [by apply IH|].
    rewrite IH by done. by rewrite lookup_insert_ne. }
  apply H.
Qed.

Lemma swap_roles_same r LOC r' : swap_roles r r LOC r' = LOC r'.
Proof. unfold swap_roles. repeat case_decide; by subst. Qed.

Lemma swap_roles_other r1 r2 LOC r :
  r ≠ r1 → r ≠ r2 → swap_roles r1 r2 LOC r = LOC r.
Proof. intros. unfold swap_roles. by rewrite !decide_False. Qed.

Lemma swap_roles_inv r1 r2 LOC r l :
  swap_roles r1 r2 LOC r = Some l →
  ∃ r0, LOC r0 = Some l ∧
        (r = r1 ∧ r0 = r2 ∨ r ≠ r1 ∧ r = r2 ∧ r0 = r1 ∨
         r ≠ r1 ∧ r ≠ r2 ∧ r0 = r).
Proof.
  unfold swap_roles. repeat case_decide; subst; intros Hs; eauto 10.
Qed.

Section Rules.

Variable x : tx.
Variable h : heap.
Variable LOC : role → option nat.
Variable CONT : role → body.
Hypothesis Hrep : prepr (batchToken x) h LOC CONT.
Variable r : role.
Variable l : nat.
Hypothesis Hl : LOC r = Some l.
Hypothesis Hr : ¬ is_tmp r.

(** [mapFunction] of [update]: the row is merged in place, or left as it
    is, or copied. *)
Lemma wp_merge_cases mo m r2 (Q : val → heap → Prop) :
  ¬ is_tmp r2 → CONT r = BObj m →
  (∀ h', prepr (batchToken x) h' LOC (fupd r (BObj (merged m mo)) CONT) →
         Q (VRef l) h') →
  Q (VRef l) h →
  (∀ l' h', prepr (batchToken x) h' (fupd r2 (Some l') LOC)
              (fupd r2 (BObj (merged_cow m mo)) CONT) → Q (VRef l') h') →
  wp (if withMutations x then mutable_merge mo (VRef l)
      else batch_merge (batchToken x) mo (VRef l)) h Q.
Proof.
  intros Hr2 Hc Ha Hb Hcopy. destruct (withMutations x).
  - by eapply wp_mutable_merge.
  - unfold batch_merge. apply wp_bind.
    eapply wp_canMutate; [done..|]. intros [] _.
    + by eapply wp_mutable_merge.
    + apply wp_bind. eapply wp_read_obj; [done..|].
      unfold merged_cow in Hcopy.
      destruct (foldl merge_step (false, m) mo) as [[] nxt] eqn:E; simpl in *.
      * eapply wp_alloc; [done|done|]. done.
      * by apply wp_ret.
Qed.

(** [set] of [update] *)
Lemma wp_set_cases k v m (Q : val → heap → Prop) :
  CONT r = BObj m →
  (strict_eq (default VUndef (m !! k)) v = true → m !! k = Some v) →
  (∀ l' h', prepr (batchToken x) h' (fupd r (Some l') LOC)
              (fupd r (BObj (<[k := v]> m)) CONT) → Q (VRef l') h') →
  wp (if withMutations x then mutable_set k v (VRef l)
      else batch_set (batchToken x) k v (VRef l)) h Q.
Proof.
  intros Hc Hv HQ. destruct (withMutations x).
  - eapply wp_mutable_set; [done..|]. intros h' H'. apply HQ.
    by apply prepr_inplace.
  - by eapply wp_batch_set.
Qed.

End Rules.

Section Shape.

Variable t : Table.
Hypothesis Hok : table_ok t.

(** Giving up the auxiliary objects. *)
Lemma repr_forget tok tmp h branch LOC ps :
  repr_with t tok tmp h branch LOC ps → repr t h branch (forget_aux LOC) ps.
Proof.
  intros (Hb & Hcov & Hp).
  assert (∀ r, ¬ is_aux r → forget_aux LOC r = LOC r) as Hsame.
  { intros r Hr. unfold forget_aux. by destruct r. }
  apply (repr_clean t tok tmp).
  - split_and!.
    + unfold ref_of. by rewrite Hsame by (by intros []).
    + by eapply covers_aux.
    + eapply prepr_relabel; [exact Hp|..].
      * destruct Hp as [Hinj _]. intros r1 r2 l. unfold forget_aux.
        destruct (is_auxb r1), (is_auxb r2); try done. apply Hinj.
      * intros r l. unfold forget_aux.
        destruct (is_auxb r) eqn:E; [done|]. intros Hl. exists r.
        split_and!; [done| |by left].
        symmetry. apply (content_of_aux t); [done|]. intros Ha. by destruct r.
  - intros r Hr. unfold forget_aux. by destruct r.
Qed.

(** The contents of an auxiliary object change. *)
Lemma repr_set_aux tok tmp h branch LOC ps raux b h' :
  repr_with t tok tmp h branch LOC ps → is_aux raux →
  prepr tok h' LOC (fupd raux b (content_of t ps tmp LOC)) →
  repr_with t tok (fupd raux b tmp) h' branch LOC ps.
Proof.
  intros (Hb & Hcov & _) Haux Hp. split_and!; [done|done|].
  eapply prepr_ext; [exact Hp|done|]. intros r _.
  destruct (decide (r = raux)) as [->|Hne].
  - rewrite fupd_eq. destruct raux; try done; simpl; by rewrite fupd_eq.
  - rewrite fupd_ne by done.
    destruct r; try done; simpl; by rewrite fupd_ne.
Qed.

(** [deleteFromIndex] throws when the part of the index it writes to is
    not there. *)
Lemma deleteFromIndex_not_ready tok tmp x b id opts f v h LOC ps :
  repr_with t tok tmp h b LOC ps → index_ready opts f v ps = false →
  deleteFromIndex x b id opts f v h = None.
Proof.
  intros (Hb & Hcov & Hp) Hready.
  pose proof Hcov as (Hroot & _ & _ & _ & Hidx & Hf & Hbk & _).
  destruct Hroot as [lb Hlb]. destruct Hidx as [li Hli].
  unfold ref_of in Hb. rewrite Hlb in Hb. subst b.
  unfold deleteFromIndex.
  rewrite (bind_eq _ _ _ _ _ (get_prop_at _ _ _ _ _ _ _ "__indexes" Hp Hlb eq_refl)).
  rewrite (root_lookup_idx t). unfold ref_of. rewrite Hli. simpl.
  rewrite (bind_eq _ _ _ _ _ (get_prop_at _ _ _ _ _ _ _ f Hp Hli eq_refl)).
  unfold index_ready in Hready.
  destruct (isUnique opts && negb (is_null v)).
  - apply bool_decide_eq_false in Hready.
    destruct (idx_props_lookup ps LOC f Hf)
      as [(lf & _ & _ & Hsome)|(-> & _ & _)]; [done|]. simpl.
    by destruct (withMutations x), (batchToken x).
  - apply bool_decide_eq_false in Hready.
    destruct (idx_props_lookup ps LOC f Hf)
      as [(lf & -> & Hlf & _)|(-> & _ & _)]; simpl; [|done].
    rewrite (bind_eq _ _ _ _ _
               (get_prop_at _ _ _ _ _ _ _ (to_key v) Hp Hlf eq_refl)).
    destruct (field_props_lookup ps LOC f (to_key v) Hbk)
      as [(la & _ & _ & Hsome)|(-> & _ & _)]; [done|]. simpl.
    by destruct (withMutations x), (batchToken x).
Qed.

Lemma p_insertToIndex_rows id opts f value ps :
  p_rows (p_insertToIndex id opts f value ps) = p_rows ps.
Proof. done. Qed.

Lemma p_keyed_rows ps ps' :
  p_rows ps' = p_rows ps → p_keyed t ps → p_keyed t ps'.
Proof. intros E Hk k row. rewrite E. apply Hk. Qed.

Lemma p_keyed_set ps k row :
  p_keyed t ps → to_key (p_prop row (idAttribute t)) = k →
  p_keyed t (PState (p_ids ps) (<[k := row]> (p_rows ps)) (p_meta ps)
               (p_idx ps)).
Proof.
  intros Hk Hrow k' row'. simpl.
  destruct (decide (k' = k)) as [->|Hne].
  - rewrite lookup_insert_eq. by intros [= <-].
  - rewrite lookup_insert_ne by done. apply Hk.
Qed.

End Shape.
End PartialFacts.

Import PartialFacts.

Module QueryFacts.

Lemma foldM_app {A B} (f : A → B → M A) (a : A) (l1 l2 : list B) h :
  foldM f a (l1 ++ l2) h = bind (foldM f a l1) (λ a', foldM f a' l2) h.
Proof.
  revert a h. induction l1 as [|b l1 IH]; intros a h; simpl.
  - unfold bind, ret. done.
  - unfold bind in *. destruct (f a b h) as [[a' h1]|]; [|done]. apply IH.
Qed.

Section Query.

Variable lodash_filter lodash_reject lodash_orderBy : heap → rows → payload → list val.
Variable t : Table.
Hypothesis Hok : table_ok t.

Local Abbreviation query_step := (query_step lodash_filter lodash_reject lodash_orderBy t).
Local Abbreviation query := (query lodash_filter lodash_reject lodash_orderBy t).

Variable h : heap.
Variable branch : val.
Variable LOC : role → option nat.
Variable ps : pstate.
Hypothesis Hrep : repr t h branch LOC ps.

Lemma repr_reads : repr_with t None (λ _, BObj ∅) h branch LOC ps.
Proof. by apply repr_unclean. Qed.

(** The first pass of [query] returns, and leaves the store as it is. *)
Lemma index_fields_total c fs acc :
  ∃ acc',
    foldM (λ acc fieldName,
             let* ids := getIdListByIndex branch fieldName
                           (payload_get (pay c) fieldName) in
             ret (Some (match acc with
                        | Some idsIntersection => intersection idsIntersection ids
                        | None => ids
                        end))) acc fs h = Some (acc', h).
Proof.
  revert acc. induction fs as [|f fs IH]; intros acc; simpl; [by eexists|].
  rewrite (bind_eq _ _ _ _ _
             (bind_eq _ _ _ _ _
                (getIdListByIndex_repr t _ _ _ _ _ _ repr_reads f _))).
  apply IH.
Qed.

Lemma index_steps_total cs acc :
  ∃ acc', foldM (index_step t branch) acc cs h = Some (acc', h).
Proof.
  revert acc. induction cs as [|c cs IH]; intros acc; simpl; [by eexists|].
  assert (∃ acc1, index_step t branch acc c h = Some (acc1, h)) as [acc1 H1].
  { unfold index_step. destruct (type c); try by eexists.
    apply index_fields_total. }
  rewrite (bind_eq _ _ _ _ _ H1). apply IH.
Qed.

Lemma query_list_total cs :
  ∃ list, query_list t branch cs h = Some (list, h).
Proof.
  unfold query_list.
  destruct (useIndex t);
    [|eexists; apply (accessList_repr t Hok _ _ _ _ _ _ repr_reads)].
  destruct (index_steps_total cs None) as [[ids|] H1];
    rewrite (bind_eq _ _ _ _ _ H1).
  - eexists. apply (accessId_all t Hok _ _ _ _ _ _ ids repr_reads).
  - eexists. apply (accessList_repr t Hok _ _ _ _ _ _ repr_reads).
Qed.

(** What the primary-key branch returns for the identity [k]. *)
Lemma lookup_total k :
  ∃ r,
    (let* found := idExists t branch k in
     if found then let* row := accessId t branch k in ret (RBare row)
     else ret (RList [])) h = Some (r, h) ∧
    match p_rows ps !! to_key k with
    | Some row =>
        ∃ l, r = RBare (VRef l) ∧ read_obj (VRef l) h = Some (row, h)
    | None => r = RList []
    end.
Proof.
  rewrite (bind_eq _ _ _ _ _ (idExists_repr t Hok _ _ _ _ _ _ repr_reads k)).
  pose proof repr_reads as (_ & Hcov & _).
  destruct Hcov as (_ & _ & _ & _ & _ & _ & _ & Hrow).
  destruct (p_rows ps !! to_key k) as [row|] eqn:Ek.
  - rewrite bool_decide_eq_true_2 by (by eexists).
    rewrite (bind_eq _ _ _ _ _ (accessId_repr t Hok _ _ _ _ _ _ repr_reads k)).
    destruct (proj2 (Hrow (to_key k))) as [l Hl]; [by eexists|].
    unfold ref_of. rewrite Hl. eexists. split; [done|].
    exists l. split; [done|].
    rewrite (row_read t _ _ _ _ _ _ _ _ repr_reads Hl). unfold p_row.
    by rewrite Ek.
  - rewrite bool_decide_eq_false_2 by (by intros [? ?]). by eexists.
Qed.

Lemma query_step_total rs c :
  clause_ok t c = true → ∃ rs', query_step branch rs c h = Some (rs', h).
Proof.
  intros Hc. unfold query_step. unfold clause_ok in Hc.
  destruct (type c); try by eexists.
  - destruct (_ && _); [|by eexists].
    destruct (lookup_total (payload_get (pay c) (idAttribute t)))
      as (r & Hr & _). by eexists.
  - rewrite Hc. by eexists.
Qed.

Lemma query_fold_total cs rs :
  forallb (clause_ok t) cs = true →
  ∃ rs', foldM (query_step branch) rs cs h = Some (rs', h).
Proof.
  revert rs. induction cs as [|c cs IH]; intros rs Hcs; simpl; [by eexists|].
  simpl in Hcs. apply andb_true_iff in Hcs as [Hc Hcs].
  destruct (query_step_total rs c Hc) as [rs' Hs].
  rewrite (bind_eq _ _ _ _ _ Hs). by apply IH.
Qed.

End Query.
End QueryFacts.

Import QueryFacts.

Module Snapshots.

Lemma deep_scalar h d v : is_ref v = false → deep h d v = TVal v.
Proof. destruct d; [done|]. by destruct v. Qed.

Lemma deep_scalar_map h d (m : gmap string val) :
  (∀ k v, m !! k = Some v → is_ref v = false) →
  deep h d <$> m = TVal <$> m.
Proof.
  intros Hm. apply map_eq. intros k. rewrite !lookup_fmap.
  destruct (m !! k) as [v|] eqn:E; simpl; [|done].
  f_equal. apply deep_scalar. by eapply Hm.
Qed.

Lemma deep_scalar_list h d (l : list val) :
  (∀ v, v ∈ l → is_ref v = false) → deep h d <$> l = TVal <$> l.
Proof.
  intros Hl. apply list_fmap_ext. intros i v Hv. apply deep_scalar.
  apply Hl. by eapply list_elem_of_lookup_2.
Qed.

Section Snap.

Variable t : Table.
Hypothesis Hok : table_ok t.

Lemma deep_role tok tmp h LOC ps r l d :
  prepr tok h LOC (content_of t ps tmp LOC) → LOC r = Some l →
  deep h (S d) (VRef l)
  = match content_of t ps tmp LOC r with
    | BObj m => TObj (deep h d <$> m)
    | BArr vs => TArr (deep h d <$> vs)
    end.
Proof.
  intros Hp Hl. destruct (prepr_lookup _ _ _ _ _ _ Hp Hl) as (o & Ho & _).
  simpl. by rewrite Ho.
Qed.

Local Arguments deep : simpl never.

Lemma snapshot_repr tok tmp h branch LOC ps :
  repr_with t tok tmp h branch LOC ps → p_scalar ps →
  snapshot h branch = p_tree t ps.
Proof.
  intros (Hb & Hcov & Hp) (Hrows & Hmeta & Hids).
  pose proof Hcov as (Hroot & Harr & Hmap & Hm & Hidx & Hf & Hbk & Hrow).
  destruct Hroot as [lb Hlb]. destruct Harr as [la Hla].
  destruct Hmap as [lm Hlm]. destruct Hm as [lmeta Hlmeta].
  destruct Hidx as [li Hli].
  unfold ref_of in Hb. rewrite Hlb in Hb. subst branch.
  assert (∀ r l d, LOC r = Some l →
            deep h (S d) (VRef l)
            = match content_of t ps tmp LOC r with
              | BObj m => TObj (deep h d <$> m)
              | BArr vs => TArr (deep h d <$> vs)
              end) as Hdeep.
  { intros r l d Hl. by eapply deep_role. }
  pose proof (Hdeep RRoot lb 3 Hlb) as Droot.
  pose proof (Hdeep RArr la 2 Hla) as Darr.
  pose proof (Hdeep RMeta lmeta 2 Hlmeta) as Dmeta.
  pose proof (Hdeep RMap lm 2 Hlm) as Dmap.
  pose proof (Hdeep RIdx li 2 Hli) as Didx.
  cbn [content_of] in Droot, Darr, Dmeta, Dmap, Didx.
  unfold snapshot, p_tree. rewrite Droot. f_equal.
  unfold root_props. rewrite !fmap_insert, fmap_empty.
  unfold ref_of. rewrite Hli, Hlmeta, Hlm, Hla.
  rewrite Darr, Dmeta, Dmap, Didx.
  rewrite (deep_scalar_list h 2 (p_ids ps)) by done.
  rewrite (deep_scalar_map h 2 (p_meta ps)) by done.
  f_equal; [|f_equal; f_equal].
  - f_equal. apply map_eq. intros f. unfold idx_props.
    rewrite !lookup_fmap, map_lookup_imap.
    destruct (p_idx ps !! f) as [fi|] eqn:Ef; simpl; [|done]. f_equal.
    destruct (proj2 (Hf f)) as [lf Hlf]; [by rewrite Ef|].
    unfold ref_of. rewrite Hlf.
    pose proof (Hdeep (RField f) lf 1 Hlf) as Dfield.
    cbn [content_of] in Dfield. rewrite Dfield.
    f_equal. apply map_eq. intros k. unfold field_props, p_field. rewrite Ef.
    simpl. rewrite !lookup_fmap, map_lookup_imap.
    destruct (fi !! k) as [bucket|] eqn:Ek; simpl; [|done]. f_equal.
    destruct (proj2 (Hbk f k)) as [lk Hlk].
    { unfold p_field. rewrite Ef. simpl. by rewrite Ek. }
    unfold ref_of. rewrite Hlk.
    pose proof (Hdeep (RBucket f k) lk 0 Hlk) as Dbucket.
    cbn [content_of] in Dbucket. rewrite Dbucket.
    unfold p_bucket, p_field. rewrite Ef. simpl. rewrite Ek. simpl.
    done.
  - f_equal. apply map_eq. intros k. unfold map_props.
    rewrite !lookup_fmap, map_lookup_imap.
    destruct (p_rows ps !! k) as [row|] eqn:Ek; simpl; [|done]. f_equal.
    destruct (proj2 (Hrow k)) as [lr Hlr]; [by rewrite Ek|].
    unfold ref_of. rewrite Hlr.
    pose proof (Hdeep (RRow k) lr 1 Hlr) as Drow.
    cbn [content_of] in Drow. rewrite Drow.
    unfold p_row. rewrite Ek. simpl. f_equal.
    apply deep_scalar_map. intros f v. by apply (Hrows k).
Qed.

End Snap.
End Snapshots.

Import Snapshots.

Module Traces.

Section Facts.

Variable str_to_number : string → option Z.
Variable t : Table.
Hypothesis Hok : table_ok t.

Lemma p_scalar_empty : p_scalar p_empty.
Proof.
  split_and!; simpl.
  - intros k row f v Hk. by rewrite lookup_empty in Hk.
  - intros k v Hk. by rewrite lookup_empty in Hk.
  - intros id Hid. by apply elem_of_nil in Hid.
Qed.

Lemma p_scalar_insert e ps :
  p_inv (p_insert str_to_number t e ps) → p_scalar ps → scalar e = true →
  p_scalar (p_insert str_to_number t e ps).
Proof.
  intros (_ & Hbound & Hmeta) (Hrows & Hm & Hids) He.
  apply bool_decide_eq_true in He.
  assert (∀ id, id ∈ p_ids (p_insert str_to_number t e ps) → is_ref id = false)
    as Hids'.
  { intros id Hid. by destruct (Hbound id Hid) as (n & m & -> & _). }
  split_and!; [| |done].
  - intros k row f v. rewrite p_insert_rows.
    destruct (decide (k = to_key (p_insert_id str_to_number t e ps))) as [->|Hne].
    + rewrite lookup_insert_eq. intros [= <-]. unfold p_created.
      case_bool_decide; [by apply He|].
      destruct (decide (f = idAttribute t)) as [->|Hf].
      * rewrite lookup_insert_eq. intros [= <-]. apply Hids'.
        rewrite p_insert_ids. apply elem_of_app. right.
        by apply list_elem_of_singleton.
      * rewrite lookup_insert_ne by done. by apply He.
    + rewrite lookup_insert_ne by done. apply Hrows.
  - intros k v. destruct (decide (k = "maxId")) as [->|Hne].
    + destruct Hmeta as [->|[m ->]]; [done|]. by intros [= <-].
    + rewrite p_insert_meta, lookup_insert_ne by done. apply Hm.
Qed.

Lemma p_scalar_delete ids ps ps' :
  p_scalar ps → p_delete t ids ps = Some ps' → p_scalar ps'.
Proof.
  intros (Hrows & Hm & Hids). unfold p_delete.
  destruct (forallb _ _); [|done].
  destruct (p_unindex t (to_key <$> ids) ps) as [ps1|] eqn:Hun; [|done].
  intros [= <-]. apply p_unindex_rows in Hun as (Erows & Eids & Emeta).
  split_and!; simpl.
  - intros k row f v. rewrite lookup_omitted, Erows.
    case_bool_decide; [done|]. apply Hrows.
  - rewrite Emeta. apply Hm.
  - intros id Hid. apply Hids. rewrite <- Eids. apply list_elem_of_In in Hid.
    apply List.filter_In in Hid as [Hid _]. by apply list_elem_of_In.
Qed.

(** The operations of a client, one after the other, refine [p_step]. *)
Lemma run_from_refines ops ps0 ps branch h LOC :
  repr t h branch LOC ps0 → p_inv ps0 → p_scalar ps0 →
  fold_opt (p_step str_to_number t) ps0 ops = Some ps →
  wp (foldM (run_op str_to_number t) branch ops) h
     (λ b h', ∃ LOC', repr t h' b LOC' ps) ∧
  p_inv ps ∧ p_scalar ps.
Proof.
  revert ps0 branch h LOC.
  induction ops as [|o ops IH]; intros ps0 branch h LOC Hrep Hinv Hsc; simpl.
  - intros [= <-]. split; [|done]. apply wp_ret. by exists LOC.
  - destruct (p_step str_to_number t ps0 o) as [ps1|] eqn:Estep; [|done].
    intros Hfold.
    assert (p_inv ps1 ∧ p_scalar ps1 ∧
            ∀ Q : val → heap → Prop,
              (∀ b' h' LOC', repr t h' b' LOC' ps1 → Q b' h') →
              wp (run_op str_to_number t branch o) h Q) as (Hinv1 & Hsc1 & Hstep).
    { destruct o as [x e|x ids mo|x ids]; simpl in Estep; [|done|].
      - destruct (explicit_ok t e ps0 && scalar e) eqn:Eok; [|done].
        apply andb_true_iff in Eok as [Eex Esc]. injection Estep as <-.
        pose proof (p_inv_insert str_to_number t e ps0 Hinv Eex) as Hinv1.
        split_and!; [done|by apply p_scalar_insert|].
        intros Q HQ. by eapply run_insert_refines.
      - split_and!; [by eapply p_inv_delete|by eapply p_scalar_delete|].
        intros Q HQ. eapply run_delete_refines; [done|done|by destruct Hinv|done|done]. }
    assert (∀ b1 h1 LOC1, repr t h1 b1 LOC1 ps1 →
              wp (foldM (run_op str_to_number t) b1 ops) h1
                 (λ b h', ∃ LOC', repr t h' b LOC' ps) ∧
              p_inv ps ∧ p_scalar ps) as Hrest.
    { intros b1 h1 LOC1 H1. by eapply IH. }
    split.
    + apply wp_bind. apply Hstep. intros b1 h1 LOC1 H1.
      by destruct (Hrest b1 h1 LOC1 H1).
    + destruct (Hstep (λ b1 h1, p_inv ps ∧ p_scalar ps)) as (b1 & h1 & _ & Hres);
        [|done].
      intros b1 h1 LOC1 H1. by destruct (Hrest b1 h1 LOC1 H1).
Qed.

Lemma run_refines ops ps h :
  p_run str_to_number t ops = Some ps →
  wp (run str_to_number t ops) h (λ b h', ∃ LOC', repr t h' b LOC' ps) ∧
  p_inv ps ∧ p_scalar ps.
Proof.
  intros Hrun. unfold run.
  assert (∀ b h1 LOC, repr t h1 b LOC p_empty →
            wp (foldM (run_op str_to_number t) b ops) h1
               (λ b h', ∃ LOC', repr t h' b LOC' ps) ∧
            p_inv ps ∧ p_scalar ps) as Hrest.
  { intros b h1 LOC H1.
    eapply run_from_refines; [exact H1|apply p_inv_empty|apply p_scalar_empty|done]. }
  split.
  - apply wp_bind. apply (getEmptyState_repr t). intros b h1 LOC H1.
    by destruct (Hrest b h1 LOC H1).
  - destruct (getEmptyState_repr t h (λ b h1, p_inv ps ∧ p_scalar ps))
      as (b1 & h1 & _ & Hres); [|done].
    intros b h1 LOC H1. by destruct (Hrest b h1 LOC H1).
Qed.

End Facts.
End Traces.

Import Traces.

Module MoreFacts.

Section Facts.

Variable str_to_number : string → option Z.
Variable t : Table.
Hypothesis Hok : table_ok t.

Lemma p_step_with_tx x ps o :
  p_step str_to_number t ps (with_tx x o) = p_step str_to_number t ps o.
Proof. by destruct o. Qed.

Lemma fold_p_step_with_tx x ops ps :
  fold_opt (p_step str_to_number t) ps (with_tx x <$> ops)
  = fold_opt (p_step str_to_number t) ps ops.
Proof.
  revert ps. induction ops as [|o ops IH]; intros ps; simpl; [done|].
  rewrite p_step_with_tx. destruct (p_step _ _ _ o); [apply IH|done].
Qed.

Lemma supplied_ok_take n entries ps :
  supplied_ok str_to_number t entries ps = true →
  supplied_ok str_to_number t (take n entries) ps = true.
Proof.
  revert n ps. induction entries as [|e es IH]; intros n ps; simpl.
  - by destruct n.
  - intros [He Hes]%andb_true_iff. destruct n as [|n]; simpl; [done|].
    rewrite He. simpl. by apply IH.
Qed.

(** A client's insert, with the row it creates. *)
Lemma new_insert_refines {B} x entry branch h LOC ps (k : val * val → M B)
    (Q : B → heap → Prop) :
  repr t h branch LOC ps →
  (∀ branch' h' LOC' lfin,
     repr t h' branch' LOC' (p_insert str_to_number t entry ps) →
     LOC' (RRow (to_key (p_insert_id str_to_number t entry ps))) = Some lfin →
     wp (k (branch', VRef lfin)) h' Q) →
  wp (let* e := new_object entry in
      let* r := insert str_to_number t x branch e in k r) h Q.
Proof.
  intros Hrep HQ. unfold new_object.
  pose proof (repr_unclean t (batchToken x)
                (insert_tmp t entry (p_insert_id str_to_number t entry ps))
                _ _ _ _ Hrep) as Hw.
  pose proof Hw as (Hb & Hcov & Hp).
  apply wp_bind. eapply (wp_alloc _ _ _ _ Hp (RTmp 0)).
  { intros _. by destruct (batchToken x). }
  intros le h1 H1.
  apply (repr_with_aux t (batchToken x)
           (insert_tmp t entry (p_insert_id str_to_number t entry ps))
           h1 branch LOC ps (RTmp 0) le Hb Hcov I) in H1.
  apply wp_bind.
  eapply (insert_refines str_to_number t Hok); [exact H1|by rewrite fupd_eq|].
  done.
Qed.

(** Inserting entries that name fresh identities, or none. *)
Lemma inserts_from x entries ps0 branch h LOC :
  repr t h branch LOC ps0 → p_fresh ps0 → p_keys ps0 →
  supplied_ok str_to_number t entries ps0 = true →
  wp (foldM (run_op str_to_number t) branch (OpInsert x <$> entries)) h
     (λ b h', ∃ LOC' ps, repr t h' b LOC' ps ∧ p_fresh ps ∧ p_keys ps).
Proof.
  revert ps0 branch h LOC.
  induction entries as [|e es IH]; intros ps0 branch h LOC Hrep Hinv Hkeys; simpl.
  - intros _. apply wp_ret. by exists LOC, ps0.
  - intros [He Hes]%andb_true_iff. apply wp_bind.
    eapply (run_insert_refines str_to_number t Hok); [exact Hrep|].
    intros b1 h1 LOC1 H1. eapply IH; [exact H1| | |exact Hes].
    + by apply p_fresh_insert.
    + by apply p_keys_insert.
Qed.

(** The identities [inserted_ids] collects. *)
Lemma inserted_from x entries ps0 branch acc h LOC (Q : val * list val → heap → Prop) :
  repr t h branch LOC ps0 →
  (∀ b h', Q (b, acc ++ next_ids str_to_number t
                         (default VUndef (p_meta ps0 !! "maxId")) entries) h') →
  wp (foldM (λ st entry,
               let* e := new_object entry in
               let* r := insert str_to_number t x st.1 e in
               let* id := get_prop r.2 (idAttribute t) in
               ret (r.1, st.2 ++ [id]))
        (branch, acc) entries) h Q.
Proof.
  revert ps0 branch acc h LOC.
  induction entries as [|e es IH]; intros ps0 branch acc h LOC Hrep HQ; simpl.
  - apply wp_ret. simpl in HQ. rewrite app_nil_r in HQ. apply HQ.
  - apply wp_bind. eapply new_insert_refines; [exact Hrep|].
    intros b1 h1 LOC1 lfin H1 Hl.
    destruct H1 as [(Hb1 & Hcov1 & Hp1) Haux1].
    apply wp_bind. simpl.
    eapply wp_get_prop; [exact Hp1|exact Hl|reflexivity|].
    apply wp_ret. simpl.
    eapply (IH (p_insert str_to_number t e ps0) b1 _ h1 LOC1).
    { split; [|done]. by split_and!. }
    intros b h'. rewrite p_insert_meta, lookup_insert_eq. simpl.
    rewrite <- app_assoc. simpl.
    unfold p_row. rewrite p_insert_rows, lookup_insert_eq. simpl.
    unfold p_created, p_insert_id.
    specialize (HQ b h'). simpl in HQ.
    case_bool_decide as Hhas.
    + exact HQ.
    + rewrite lookup_insert_eq. simpl. exact HQ.
Qed.

Lemma inserted_ids_spec x entries h :
  ∃ h', inserted_ids str_to_number t x entries h
        = Some (next_ids str_to_number t VUndef entries, h').
Proof.
  unfold inserted_ids.
  assert (wp (let* branch := getEmptyState t in
              let* r := foldM (λ st entry,
                   let* e := new_object entry in
                   let* r := insert str_to_number t x st.1 e in
                   let* id := get_prop r.2 (idAttribute t) in
                   ret (r.1, st.2 ++ [id])) (branch, []) entries in
              ret r.2) h
            (λ ids _, ids = next_ids str_to_number t VUndef entries)) as Hwp.
  { apply wp_bind. apply (getEmptyState_repr t). intros b h1 LOC H1.
    apply wp_bind. eapply inserted_from; [exact H1|].
    intros b' h'. apply wp_ret. done. }
  destruct Hwp as (ids & h' & Hrun & ->). by exists h'.
Qed.

End Facts.
End MoreFacts.

Import MoreFacts.

Module UniqueFacts.

Lemma p_bucket_set_bucket f k nb ps f' k' :
  p_bucket (p_set_bucket f k nb ps) f' k'
  = if decide (f' = f ∧ k' = k) then nb else p_bucket ps f' k'.
Proof.
  unfold p_bucket. destruct (decide (f' = f)) as [->|Hf].
  - rewrite p_field_set_bucket_eq. destruct (decide (k' = k)) as [->|Hk].
    + rewrite lookup_insert_eq. by rewrite decide_True.
    + rewrite lookup_insert_ne by done. rewrite decide_False; [done|].
      by intros [_ ?].
  - rewrite p_field_set_bucket_ne by done. rewrite decide_False; [done|].
    by intros [? _].
Qed.

Lemma p_bucket_del_bucket f k ps f' k' :
  p_bucket (p_del_bucket f k ps) f' k'
  = if decide (f' = f ∧ k' = k) then [] else p_bucket ps f' k'.
Proof.
  unfold p_bucket. destruct (decide (f' = f)) as [->|Hf].
  - rewrite p_field_del_bucket_eq. destruct (decide (k' = k)) as [->|Hk].
    + rewrite lookup_delete_eq. by rewrite decide_True.
    + rewrite lookup_delete_ne by done. rewrite decide_False; [done|].
      by intros [_ ?].
  - rewrite p_field_del_bucket_ne by done. rewrite decide_False; [done|].
    by intros [? _].
Qed.

Lemma is_null_key v : is_null v = true → to_key v = "null".
Proof. by destruct v. Qed.

Section Facts.

Variable str_to_number : string → option Z.
Variable t : Table.

Lemma uniq_ok_empty : uniq_ok t p_empty.
Proof. intros f k _ _. unfold p_bucket, p_field. simpl. rewrite lookup_empty. simpl. rewrite lookup_empty. simpl. lia. Qed.

Lemma uniq_ok_insertToIndex id f v ps :
  uniq_ok t ps → uniq_ok t (p_insertToIndex id (field_opts t f) f v ps).
Proof.
  intros Hu f' k' Hf' Hk'. unfold p_insertToIndex.
  rewrite p_bucket_set_bucket. case_decide as Hd; [|by apply Hu].
  destruct Hd as [-> ->]. rewrite Hf'. simpl.
  destruct (is_null v) eqn:En; simpl; [|lia].
  by apply is_null_key in En.
Qed.

Lemma filter_length_le_1 (g : val → bool) (l : list val) :
  (length l ≤ 1)%nat → (length (List.filter g l) ≤ 1)%nat.
Proof. intros H. pose proof (List.filter_length_le g l). lia. Qed.

Lemma uniq_ok_deleteFromIndex id f v ps :
  uniq_ok t ps → uniq_ok t (p_deleteFromIndex id (field_opts t f) f v ps).
Proof.
  intros Hu f' k' Hf' Hk'. unfold p_deleteFromIndex.
  destruct (isUnique (field_opts t f) && negb (is_null v)) eqn:E.
  - rewrite p_bucket_del_bucket. case_decide; [simpl; lia|by apply Hu].
  - rewrite p_bucket_set_bucket. case_decide as Hd; [|by apply Hu].
    destruct Hd as [-> ->]. apply filter_length_le_1. by apply Hu.
Qed.

Lemma uniq_ok_idx ps ps' : p_idx ps' = p_idx ps → uniq_ok t ps → uniq_ok t ps'.
Proof.
  intros E Hu f k Hf Hk. specialize (Hu f k Hf Hk).
  unfold p_bucket, p_field in *. by rewrite E.
Qed.

Lemma uniq_ok_fold_insert id (e : gmap string val) fs ps :
  uniq_ok t ps →
  uniq_ok t (foldl (λ ps f, p_insertToIndex id (field_opts t f) f
                              (default VUndef (e !! f)) ps) ps fs).
Proof.
  revert ps. induction fs as [|f fs IH]; intros ps Hu; simpl; [done|].
  apply IH. by apply uniq_ok_insertToIndex.
Qed.

Lemma uniq_ok_insert e ps :
  uniq_ok t ps → uniq_ok t (p_insert str_to_number t e ps).
Proof.
  intros Hu. unfold p_insert.
  eapply uniq_ok_idx; [|apply uniq_ok_fold_insert; eapply uniq_ok_idx; [|exact Hu]];
    done.
Qed.

Lemma uniq_ok_unindex ks ps ps' :
  uniq_ok t ps → p_unindex t ks ps = Some ps' → uniq_ok t ps'.
Proof.
  unfold p_unindex. generalize (getIndexedFields t). intros fs. revert ps.
  induction fs as [|f fs IH]; intros ps Hu; simpl.
  - by intros [= <-].
  - destruct (fold_opt (p_unindex_row t f) ps ks) as [ps1|] eqn:E; [|done].
    apply IH. clear IH. revert ps Hu E.
    induction ks as [|k ks IH]; intros ps Hu; simpl.
    + by intros [= <-].
    + destruct (p_unindex_row t f ps k) as [ps2|] eqn:E2; [|done].
      apply IH. unfold p_unindex_row in E2.
      destruct (index_ready _ _ _ _); [|done]. injection E2 as <-.
      by apply uniq_ok_deleteFromIndex.
Qed.

Lemma uniq_ok_delete ids ps ps' :
  uniq_ok t ps → p_delete t ids ps = Some ps' → uniq_ok t ps'.
Proof.
  intros Hu. unfold p_delete. destruct (forallb _ _); [|done].
  destruct (p_unindex t (to_key <$> ids) ps) as [ps1|] eqn:Hun; [|done].
  intros [= <-]. eapply uniq_ok_idx; [|by eapply uniq_ok_unindex]. done.
Qed.

Lemma uniq_ok_step ps o ps' :
  uniq_ok t ps → p_step str_to_number t ps o = Some ps' → uniq_ok t ps'.
Proof.
  intros Hu. destruct o as [x e|x ids mo|x ids]; simpl; [|done|].
  - destruct (_ && _); [|done]. intros [= <-]. by apply uniq_ok_insert.
  - by apply uniq_ok_delete.
Qed.

Lemma uniq_ok_run ops ps :
  p_run str_to_number t ops = Some ps → uniq_ok t ps.
Proof.
  unfold p_run. generalize uniq_ok_empty. generalize p_empty.
  induction ops as [|o ops IH]; intros ps0 Hu; simpl.
  - by intros [= <-].
  - destruct (p_step str_to_number t ps0 o) as [ps1|] eqn:E; [|done].
    apply IH. by eapply uniq_ok_step.
Qed.

(** The bucket of a unique field after an insert with the value [v]. *)
Lemma unique_bucket_after_fold id (e : gmap string val) f v fs ps :
  isUnique (field_opts t f) = true → e !! f = Some v → is_null v = false →
  f ∈ fs →
  p_bucket (foldl (λ ps f, p_insertToIndex id (field_opts t f) f
                             (default VUndef (e !! f)) ps) ps fs)
           f (to_key v) = [id].
Proof.
  intros Hf He Hv.
  assert (∀ ps, p_bucket (p_insertToIndex id (field_opts t f) f
                            (default VUndef (e !! f)) ps) f (to_key v) = [id])
    as Hset.
  { clear ps. intros ps. unfold p_insertToIndex. rewrite p_bucket_set_bucket.
    rewrite He. simpl. rewrite decide_True by done. by rewrite Hf, Hv. }
  assert (∀ f' ps, f' ≠ f →
            p_bucket (p_insertToIndex id (field_opts t f') f'
                        (default VUndef (e !! f')) ps) f (to_key v)
            = p_bucket ps f (to_key v)) as Hother.
  { intros f' ps' Hne. unfold p_insertToIndex. rewrite p_bucket_set_bucket.
    rewrite decide_False; [done|]. intros [? _]. by apply Hne. }
  assert (∀ fs ps, p_bucket ps f (to_key v) = [id] →
            p_bucket (foldl (λ ps f, p_insertToIndex id (field_opts t f) f
                               (default VUndef (e !! f)) ps) ps fs)
              f (to_key v) = [id]) as Hkeep.
  { intros fs'. induction fs' as [|f' fs' IH]; intros ps' Hb; simpl; [done|].
    apply IH. destruct (decide (f' = f)) as [->|Hne]; [apply Hset|].
    by rewrite Hother. }
  revert ps. induction fs as [|f' fs IH]; intros ps Hin; simpl.
  - by apply elem_of_nil in Hin.
  - destruct (decide (f' = f)) as [->|Hne].
    + apply Hkeep, Hset.
    + apply IH. apply elem_of_cons in Hin as [->|Hin]; done.
Qed.

Lemma unique_field_indexed f :
  isUnique (field_opts t f) = true → f ∈ getIndexedFields t.
Proof.
  unfold field_opts, getIndexedFields. intros Hu.
  destruct (List.find _ (fields t)) as [[f' o]|] eqn:E; simpl in Hu; [|done].
  apply List.find_some in E as [Hin Heq]. simpl in Heq.
  apply String.eqb_eq in Heq. subst f'.
  apply list_elem_of_fmap. exists (f, o). split; [done|].
  apply list_elem_of_In. apply List.filter_In. split; [done|].
  simpl. rewrite Hu. by rewrite orb_true_r.
Qed.

Lemma unique_bucket_after_insert e f v ps :
  isUnique (field_opts t f) = true → e !! f = Some v → is_null v = false →
  p_bucket (p_insert str_to_number t e ps) f (to_key v)
  = [p_insert_id str_to_number t e ps].
Proof.
  intros Hf He Hv. unfold p_insert.
  pose proof (unique_bucket_after_fold (p_insert_id str_to_number t e ps) e f v
                (getIndexedFields t)
                (p_setMeta "maxId"
                   (idSequencer str_to_number
                      (default VUndef (p_meta ps !! "maxId"))
                      (default VUndef (e !! idAttribute t))).1 ps)
                Hf He Hv (unique_field_indexed f Hf)) as H.
  unfold p_bucket, p_field in *. simpl. exact H.
Qed.

End Facts.
End UniqueFacts.

Import UniqueFacts.

Module UpdateOp.

Section Refine.

Variable t : Table.
Hypothesis Hok : table_ok t.
Variable x : tx.
Variable tmp : role → body.

(** The branch in which the row of [k] has the properties [new]. *)
Lemma repr_set_row h LOC ps CONT2 k new :
  covers ps LOC → is_Some (p_rows ps !! k) →
  prepr (batchToken x) h LOC CONT2 →
  CONT2 (RRow k) = BObj new →
  (∀ r, r ≠ RRow k → CONT2 r = content_of t ps tmp LOC r) →
  repr_with t (batchToken x) tmp h (ref_of LOC RRoot) LOC
    (PState (p_ids ps) (<[k := new]> (p_rows ps)) (p_meta ps) (p_idx ps)).
Proof.
  intros Hcov Hk Hp Crow Cother.
  pose proof Hcov as (Hroot & Harr & Hmap & Hmeta & Hidx & Hf & Hbk & Hrow).
  split_and!; [done| |].
  - split_and!; try done. intros k'. simpl.
    destruct (decide (k' = k)) as [->|Hne].
    + rewrite lookup_insert_eq. rewrite Hrow. split; [by eexists|done].
    + by rewrite lookup_insert_ne.
  - eapply prepr_ext; [exact Hp|done|]. intros r _.
    destruct (decide (r = RRow k)) as [->|Hne].
    + rewrite Crow. simpl. unfold p_row. simpl. by rewrite lookup_insert_eq.
    + rewrite Cother by done. destruct r; try done; simpl; f_equal.
      * apply map_eq. intros k'. unfold map_props. rewrite !map_lookup_imap.
        simpl. destruct (decide (k' = k)) as [->|Hne'].
        -- rewrite lookup_insert_eq. destruct Hk as [row ->]. done.
        -- by rewrite lookup_insert_ne.
      * unfold p_row. simpl. rewrite lookup_insert_ne; [done|]. congruence.
Qed.

Lemma content_of_root ps LOC LOC' r :
  (∀ r, r ≠ RRoot → LOC' r = LOC r) →
  content_of t ps tmp LOC' r = content_of t ps tmp LOC r.
Proof.
  intros HL. destruct r; simpl; try done; f_equal.
  - apply (root_props_ext t); by apply HL.
  - apply map_eq. intros k'. unfold map_props. rewrite !map_lookup_imap.
    destruct (p_rows ps !! k'); simpl; [|done]. unfold ref_of. by rewrite HL.
  - apply map_eq. intros k'. unfold idx_props. rewrite !map_lookup_imap.
    destruct (p_idx ps !! k'); simpl; [|done]. unfold ref_of. by rewrite HL.
  - apply map_eq. intros k'. unfold field_props. rewrite !map_lookup_imap.
    destruct (p_field ps f !! k'); simpl; [|done]. unfold ref_of. by rewrite HL.
Qed.

End Refine.
End UpdateOp.

Import UpdateOp.

Module AnyUpdate.

Lemma swap_roles_inj r1 r2 LOC :
  (∀ a b l, LOC a = Some l → LOC b = Some l → a = b) →
  ∀ a b l, swap_roles r1 r2 LOC a = Some l →
           swap_roles r1 r2 LOC b = Some l → a = b.
Proof.
  intros Hinj a b l Ha Hb.
  apply swap_roles_inv in Ha as (a0 & Ha0 & Ha).
  apply swap_roles_inv in Hb as (b0 & Hb0 & Hb).
  pose proof (Hinj _ _ _ Ha0 Hb0) as E.
  destruct Ha as [[-> ->]|[(? & -> & ->)|(? & ? & ->)]],
           Hb as [[-> ->]|[(? & -> & ->)|(? & ? & ->)]]; congruence.
Qed.

Lemma framed_refl LOC ps : framed LOC LOC ps ps.
Proof. by split_and!. Qed.

Lemma framed_trans LOC1 LOC2 LOC3 ps1 ps2 ps3 :
  framed LOC1 LOC2 ps1 ps2 → framed LOC2 LOC3 ps2 ps3 →
  framed LOC1 LOC3 ps1 ps3.
Proof.
  intros (E1 & E2 & E3 & E4) (F1 & F2 & F3 & F4). split_and!; try congruence.
  intros r Hr Hm. rewrite F4 by done. by apply E4.
Qed.

Section Shape.

Variable t : Table.
Hypothesis Hok : table_ok t.

Lemma map_props_ext ps LOC LOC' :
  (∀ k, LOC' (RRow k) = LOC (RRow k)) → map_props ps LOC' = map_props ps LOC.
Proof.
  intros HL. apply map_eq. intros k. unfold map_props.
  rewrite !map_lookup_imap. destruct (p_rows ps !! k); simpl; [|done].
  unfold ref_of. by rewrite HL.
Qed.

(** The contents of the roles below the root depend on the layout of the
    rows, the field indexes and the buckets only. *)
Lemma content_of_ext ps tmp LOC LOC' r :
  (∀ r, ¬ is_aux r → r ≠ RMap → r ≠ RRoot → LOC' r = LOC r) → r ≠ RRoot →
  content_of t ps tmp LOC' r = content_of t ps tmp LOC r.
Proof.
  intros HL Hr. destruct r; try done; simpl; f_equal.
  - apply map_props_ext. intros k. apply HL; [by intros []|done|done].
  - apply map_eq. intros k'. unfold idx_props. rewrite !map_lookup_imap.
    destruct (p_idx ps !! k'); simpl; [|done]. unfold ref_of.
    by rewrite HL by (done || by intros []).
  - apply map_eq. intros k'. unfold field_props. rewrite !map_lookup_imap.
    destruct (p_field ps f !! k'); simpl; [|done]. unfold ref_of.
    by rewrite HL by (done || by intros []).
Qed.

Lemma covers_ext ps LOC LOC' :
  (∀ r, ¬ is_aux r → r ≠ RMap → LOC' r = LOC r) → is_Some (LOC' RMap) →
  covers ps LOC → covers ps LOC'.
Proof.
  intros HL Hm (Hroot & Harr & Hmap & Hmeta & Hidx & Hf & Hbk & Hrow).
  unfold covers.
  rewrite (HL RRoot), (HL RArr), (HL RMeta), (HL RIdx) by (done || by intros []).
  split_and!; try done.
  - intros f. by rewrite HL by (done || by intros []).
  - intros f k. by rewrite HL by (done || by intros []).
  - intros k. by rewrite HL by (done || by intros []).
Qed.

Lemma root_set_map LOC lm :
  <[mapName t := VRef lm]> (root_props t LOC)
  = root_props t (fupd RMap (Some lm) LOC).
Proof.
  destruct Hok as (? & ? & ? & ? & ?). unfold root_props, ref_of.
  rewrite fupd_eq. rewrite !fupd_ne by done.
  apply map_eq. intros i. rewrite !lookup_insert.
  repeat case_decide; subst; try done.
Qed.

(** The object of the role [rr] becomes the row of the key [k'], and the
    object that was that row takes the role [rr]. *)
Lemma install_row tok tmp rootm h LOC CONT ps rr lres k' mr :
  covers ps LOC → prepr tok h LOC CONT →
  LOC rr = Some lres → (rr = RRow k' ∨ ∃ j, rr = RNew j) →
  CONT rr = BObj mr →
  CONT RMap = BObj (<[k' := VRef lres]> (map_props ps LOC)) →
  CONT RRoot = BObj rootm →
  (∀ r, r ≠ rr → r ≠ RMap → r ≠ RRoot → CONT r = content_of t ps tmp LOC r) →
  mid t tok rootm h (swap_roles (RRow k') rr LOC)
    (PState (p_ids ps) (<[k' := mr]> (p_rows ps)) (p_meta ps) (p_idx ps))
    (fupd rr (BObj (p_row ps k')) tmp).
Proof.
  intros Hcov Hp Hrr Hkind Crr Cmap Croot Cother.
  set (LOC' := swap_roles (RRow k') rr LOC).
  set (ps' := PState (p_ids ps) (<[k' := mr]> (p_rows ps)) (p_meta ps)
                (p_idx ps)).
  set (tmp' := fupd rr (BObj (p_row ps k')) tmp).
  assert (∀ r, r ≠ RRow k' → r ≠ rr → LOC' r = LOC r) as Hsame.
  { intros r H1 H2. by apply swap_roles_other. }
  assert (LOC' (RRow k') = Some lres) as Hnew.
  { unfold LOC', swap_roles. by rewrite decide_True. }
  assert (∀ r, ¬ row_role r → LOC' r = LOC r) as Hrest.
  { intros r Hr. apply Hsame.
    - intros ->. by apply Hr.
    - intros ->. apply Hr. by destruct Hkind as [->|[j ->]]. }
  assert (∀ k, k ≠ k' → LOC' (RRow k) = LOC (RRow k)) as Hrows.
  { intros k Hk. apply Hsame; [congruence|].
    destruct Hkind as [->|[j ->]]; congruence. }
  pose proof Hcov as (Hroot & Harr & Hmap & Hmeta & Hidx & Hf & Hbk & Hrow).
  split.
  - unfold covers. rewrite !Hrest by (by intros []).
    split_and!; try done.
    + intros f. by rewrite Hrest by (by intros []).
    + intros f k. by rewrite Hrest by (by intros []).
    + intros k. simpl. destruct (decide (k = k')) as [->|Hne].
      * rewrite Hnew, lookup_insert_eq. split; by eexists.
      * rewrite Hrows, lookup_insert_ne by done. apply Hrow.
  - eapply prepr_relabel; [exact Hp|..].
    + apply swap_roles_inj. by destruct Hp.
    + intros r l Hl. apply swap_roles_inv in Hl as (r0 & Hl0 & Hcase).
      exists r0. split; [done|].
      destruct Hcase as [[-> ->]|[(Hne & -> & ->)|(Hne1 & Hne2 & ->)]].
      * (* the new row *)
        split; [|by intros []].
        rewrite fupd_ne by done. simpl. unfold p_row. simpl.
        by rewrite lookup_insert_eq.
      * (* the object that was the row *)
        destruct Hkind as [->|[j ->]]; [done|].
        split; [|by intros []].
        rewrite fupd_ne by done. simpl. unfold tmp'. rewrite fupd_eq.
        by rewrite Cother.
      * split; [|by left].
        destruct (decide (r = RRoot)) as [->|Hnr].
        { by rewrite fupd_eq. }
        rewrite fupd_ne by done.
        destruct (decide (r = RMap)) as [->|Hnm].
        { rewrite Cmap. simpl. f_equal. apply map_eq. intros k.
          unfold map_props. rewrite map_lookup_imap. simpl.
          destruct (decide (k = k')) as [->|Hk].
          - rewrite !lookup_insert_eq. simpl. unfold ref_of.
            by rewrite Hnew.
          - rewrite !lookup_insert_ne by done. rewrite map_lookup_imap.
            destruct (p_rows ps !! k); simpl; [|done]. unfold ref_of.
            by rewrite Hrows. }
        rewrite Cother by done.
        destruct r; try done; simpl.
        -- f_equal. apply map_eq. intros k. unfold idx_props.
           rewrite !map_lookup_imap. simpl.
           destruct (p_idx ps !! k); simpl; [|done]. unfold ref_of.
           by rewrite Hrest by (by intros []).
        -- f_equal. apply map_eq. intros k. unfold field_props.
           rewrite !map_lookup_imap. unfold p_field. simpl.
           destruct (_ !! k); simpl; [|done]. unfold ref_of.
           by rewrite Hrest by (by intros []).
        -- unfold p_row. simpl. rewrite lookup_insert_ne; [done|]. congruence.
        -- unfold tmp'. rewrite fupd_ne; [done|].
           destruct Hkind as [->|[j ->]]; congruence.
        -- unfold tmp'. by rewrite fupd_ne.
Qed.

End Shape.

Section Loops.

Variable t : Table.
Hypothesis Hok : table_ok t.
Variable x : tx.
Variable mo : list (string * val).
Hypothesis Hmo : keeps_id t mo.
Variable ls : list nat.

Local Abbreviation tok := (batchToken x).

Lemma strict_eq_ref (m : gmap string val) k l :
  strict_eq (default VUndef (m !! k)) (VRef l) = true → m !! k = Some (VRef l).
Proof.
  intros E. apply strict_eq_true in E. destruct (m !! k); simpl in E; congruence.
Qed.

(** The object a tracked location holds. *)
Lemma tracked_object LOC tmp n ps l :
  tracks ls LOC tmp n → l ∈ ls →
  ∃ r m, row_role r ∧ LOC r = Some l ∧ content_of t ps tmp LOC r = BObj m.
Proof.
  intros (Htr & Hobj & _) Hl. destruct (Htr l Hl) as (r & Hr & Hlr).
  destruct r; try (by destruct Hr).
  - exists (RRow k), (p_row ps k). done.
  - destruct (Hobj n0) as [m Hm]. exists (RNew n0), m. done.
Qed.

(** One turn of the first loop of [update]: the row is merged and put
    into the map under the key of its identity. *)
Lemma update_row_step rootm h LOC ps tmp n lm l (Q : val → heap → Prop) :
  mid t tok rootm h LOC ps tmp → p_keyed t ps → tracks ls LOC tmp n →
  LOC RMap = Some lm → l ∈ ls →
  (∀ lm' h' LOC' ps' tmp' n',
     mid t tok rootm h' LOC' ps' tmp' → p_keyed t ps' →
     tracks ls LOC' tmp' n' → LOC' RMap = Some lm' →
     framed LOC LOC' ps ps' → Q (VRef lm') h') →
  wp (let* result :=
        (if withMutations x then mutable_merge mo (VRef l)
         else batch_merge tok mo (VRef l)) in
      let* resultId := get_prop result (idAttribute t) in
      (if withMutations x then mutable_set (to_key resultId) result (VRef lm)
       else batch_set tok (to_key resultId) result (VRef lm))) h Q.
Proof.
  intros [Hcov Hp] Hkeyed Htracks Hlm Hl HQ.
  destruct (tracked_object LOC tmp n ps l Htracks Hl) as (r & m & Hr & Hlr & Cr).
  pose proof Htracks as (Htr & Hobj & Hfree).
  set (CONT0 := fupd RRoot (BObj rootm) (content_of t ps tmp LOC)) in *.
  assert (r ≠ RRoot) as HrR by (intros ->; by destruct Hr).
  assert (r ≠ RMap) as HrM by (intros ->; by destruct Hr).
  assert (¬ is_tmp r) as Hnt.
  { destruct r; try (by destruct Hr); by intros []. }
  assert (CONT0 r = BObj m) as C0r by (unfold CONT0; by rewrite fupd_ne).
  (* the row keeps its key *)
  assert (∀ mr, mr !! idAttribute t = m !! idAttribute t →
                ∀ k, r = RRow k → to_key (p_prop mr (idAttribute t)) = k)
    as Hkey.
  { intros mr E k ->. unfold p_prop. rewrite E.
    pose proof Hcov as (_ & _ & _ & _ & _ & _ & _ & Hrow).
    destruct (proj1 (Hrow k)) as [row Hrowk]; [by eexists|].
    simpl in Cr. unfold p_row in Cr. rewrite Hrowk in Cr. simpl in Cr.
    injection Cr as <-. by apply (Hkeyed k row). }
  (* what follows the merge: the result is at [rr] *)
  assert (∀ h1 LOC1 CONT1 rr lres mr n1,
    prepr tok h1 LOC1 CONT1 →
    LOC1 rr = Some lres → (rr = r ∨ rr = RNew n) →
    CONT1 rr = BObj mr → mr !! idAttribute t = m !! idAttribute t →
    (∀ r', r' ≠ RNew n → LOC1 r' = LOC r') →
    (∀ r', r' ≠ rr → CONT1 r' = CONT0 r') →
    (∀ j, (n1 ≤ j)%nat → LOC1 (RNew j) = None) →
    wp (let* resultId := get_prop (VRef lres) (idAttribute t) in
        (if withMutations x
         then mutable_set (to_key resultId) (VRef lres) (VRef lm)
         else batch_set tok (to_key resultId) (VRef lres) (VRef lm))) h1 Q)
    as Htail.
  { intros h1 LOC1 CONT1 rr lres mr n1 Hp1 Hrr Hwhich Crr Eid HL1 HC1 Hfree1.
    assert (row_role rr) as Hrrole.
    { destruct Hwhich as [->| ->]; [exact Hr|exact I]. }
    assert (rr ≠ RMap) as HrrM by (intros ->; by destruct Hrrole).
    assert (rr ≠ RRoot) as HrrR by (intros ->; by destruct Hrrole).
    assert (LOC1 RMap = Some lm) as Hlm1 by (by rewrite HL1).
    apply wp_bind. eapply wp_get_prop; [exact Hp1|exact Hrr|exact Crr|].
    fold (p_prop mr (idAttribute t)).
    set (k' := to_key (p_prop mr (idAttribute t))).
    eapply (wp_set_cases x h1 LOC1 CONT1 Hp1 RMap lm Hlm1 (λ H, H) k' (VRef lres)
              (map_props ps LOC)).
    { rewrite HC1 by done. unfold CONT0. by rewrite fupd_ne. }
    { apply strict_eq_ref. }
    intros lm' h2 Hp2.
    set (LOC2 := fupd RMap (Some lm') LOC1) in *.
    assert (∀ r', r' ≠ RNew n → r' ≠ RMap → LOC2 r' = LOC r') as HL2'.
    { intros r' Ha Hm. unfold LOC2. rewrite fupd_ne by done. by apply HL1. }
    assert (∀ r', ¬ is_aux r' → r' ≠ RMap → LOC2 r' = LOC r') as HL2.
    { intros r' Ha Hm. apply HL2'; [|done]. intros ->. by apply Ha. }
    assert (covers ps LOC2) as Hcov2.
    { eapply covers_ext; [exact HL2| |exact Hcov]. unfold LOC2.
      rewrite fupd_eq. by eexists. }
    assert (rr = RRow k' ∨ ∃ j, rr = RNew j) as Hkind.
    { destruct Hwhich as [->| ->]; [|right; by eexists].
      destruct r; try (by destruct Hr); [left|right; by eexists].
      f_equal. symmetry. by apply (Hkey mr Eid). }
    pose proof (install_row t tok tmp rootm h2 LOC2 _ ps rr lres k' mr
                  Hcov2 Hp2) as Hmid.
    destruct Hmid as [Hcov3 Hp3].
    - unfold LOC2. by rewrite fupd_ne.
    - exact Hkind.
    - by rewrite fupd_ne.
    - rewrite fupd_eq. do 2 f_equal. symmetry. apply map_props_ext.
      intros k. apply HL2; [by intros []|done].
    - rewrite fupd_ne by done. rewrite HC1 by done. unfold CONT0.
      by rewrite fupd_eq.
    - intros r' H1 H2 H3. rewrite fupd_ne by done. rewrite HC1 by done.
      unfold CONT0. rewrite fupd_ne by done. symmetry.
      apply content_of_ext; [|done]. intros r0 Ha Hm _. by apply HL2.
    - eapply (HQ lm' h2 _ _ _ (S (Nat.max n n1))); [by split| | | |].
      + apply p_keyed_set; [done|]. done.
      + split_and!.
        * intros l0 Hl0. destruct (Htr l0 Hl0) as (r0 & Hr0 & Hlr0).
          assert (LOC2 r0 = Some l0) as H20.
          { unfold LOC2. rewrite fupd_ne by (intros ->; by destruct Hr0).
            rewrite HL1; [done|]. intros ->.
            rewrite Hfree in Hlr0 by lia. done. }
          destruct (decide (r0 = RRow k')) as [->|N1].
          { exists rr. split; [done|]. unfold swap_roles.
            destruct (decide (rr = RRow k')) as [->|_]; [done|].
            by rewrite decide_True. }
          destruct (decide (r0 = rr)) as [->|N2].
          { exists (RRow k'). split; [done|]. unfold swap_roles.
            by rewrite decide_True. }
          exists r0. split; [done|]. by rewrite swap_roles_other.
        * intros j. destruct (decide (rr = RNew j)) as [->|Hne].
          -- rewrite fupd_eq. by eexists.
          -- rewrite fupd_ne by congruence. apply Hobj.
        * intros j Hj. rewrite swap_roles_other; [|done|].
          -- unfold LOC2. rewrite fupd_ne by done. apply Hfree1. lia.
          -- intros <-. unfold LOC2 in Hrr.
             rewrite Hfree1 in Hrr by lia. done.
      + unfold swap_roles. rewrite !decide_False by (done || congruence).
        unfold LOC2. by rewrite fupd_eq.
      + split_and!; [done|done|done|].
        intros r' Hr' Hm'. rewrite swap_roles_other.
        * apply HL2'; [|done]. intros ->. by apply Hr'.
        * intros ->. by apply Hr'.
        * intros ->. by apply Hr'. }
  apply wp_bind.
  eapply (wp_merge_cases x h LOC CONT0 Hp r l Hlr mo m (RNew n));
    [by intros []|exact C0r|..].
  - (* merged in place *)
    intros h1 Hp1.
    eapply (Htail h1 LOC _ r l (merged m mo) n); [exact Hp1|done|by left|..].
    + by rewrite fupd_eq.
    + by apply merged_other.
    + done.
    + intros r' Hr'. by rewrite fupd_ne.
    + exact Hfree.
  - (* no change *)
    eapply (Htail h LOC CONT0 r l m n); [exact Hp|done|by left|done..|].
    exact Hfree.
  - (* a copy *)
    intros l' h1 Hp1.
    eapply (Htail h1 _ _ (RNew n) l' (merged_cow m mo) (S n));
      [exact Hp1|by rewrite fupd_eq|by right|..].
    + by rewrite fupd_eq.
    + by apply merged_cow_other.
    + intros r' Hr'. by rewrite fupd_ne.
    + intros r' Hr'. by rewrite fupd_ne.
    + intros j Hj. rewrite fupd_ne by (intros [= ->]; lia). apply Hfree. lia.
Qed.

(** The first loop of [update]. *)
Lemma update_rows_any rootm (rows : list nat) h LOC ps tmp n lm
    (Q : val → heap → Prop) :
  mid t tok rootm h LOC ps tmp → p_keyed t ps → tracks ls LOC tmp n →
  LOC RMap = Some lm → rows ⊆ ls →
  (∀ lm' h' LOC' ps' tmp' n',
     mid t tok rootm h' LOC' ps' tmp' → p_keyed t ps' →
     tracks ls LOC' tmp' n' → LOC' RMap = Some lm' →
     framed LOC LOC' ps ps' → Q (VRef lm') h') →
  wp (foldM (λ map row,
               let* result :=
                 (if withMutations x then mutable_merge mo row
                  else batch_merge tok mo row) in
               let* resultId := get_prop result (idAttribute t) in
               (if withMutations x then mutable_set (to_key resultId) result map
                else batch_set tok (to_key resultId) result map))
        (VRef lm) (VRef <$> rows)) h Q.
Proof.
  revert h LOC ps tmp n lm.
  induction rows as [|l rows IH];
    intros h LOC ps tmp n lm Hmid Hkeyed Htracks Hlm Hsub HQ; simpl.
  - apply wp_ret. eapply HQ; [done..|]. apply framed_refl.
  - apply wp_bind.
    eapply update_row_step; [done..| |].
    { apply Hsub. by left. }
    intros lm1 h1 LOC1 ps1 tmp1 n1 Hmid1 Hkeyed1 Htracks1 Hlm1 Hfr1.
    eapply IH; [done..| |].
    { intros l0 Hl0. apply Hsub. by right. }
    intros lm2 h2 LOC2 ps2 tmp2 n2 Hmid2 Hkeyed2 Htracks2 Hlm2 Hfr2.
    eapply HQ; [done..|]. by eapply framed_trans.
Qed.

(** One turn of the second loop of [update]: the row goes out of the
    bucket of its value and, merged, into the bucket of its value. *)
Lemma update_index_step f h ws LOC ps tmp n l (Q : val → heap → Prop) :
  repr_with t tok tmp h ws LOC ps → uniq_ok t ps → p_keyed t ps →
  tracks ls LOC tmp n → l ∈ ls →
  (∀ ws' h' LOC' ps' tmp' n',
     repr_with t tok tmp' h' ws' LOC' ps' → uniq_ok t ps' → p_keyed t ps' →
     tracks ls LOC' tmp' n' → Q ws' h') →
  wpf (let* rowId := get_prop (VRef l) (idAttribute t) in
       let* rowValue := get_prop (VRef l) f in
       let* workingState :=
         deleteFromIndex x ws rowId (field_opts t f) f rowValue in
       let* result :=
         (if withMutations x then mutable_merge mo (VRef l)
          else batch_merge tok mo (VRef l)) in
       let* resultId := get_prop result (idAttribute t) in
       let* resultValue := get_prop result f in
       insertToIndex x workingState resultId (field_opts t f) f resultValue)
    h Q.
Proof.
  intros Hrep Huniq Hkeyed Htracks Hl HQ.
  destruct (tracked_object LOC tmp n ps l Htracks Hl) as (r & m & Hr & Hlr & Cr).
  pose proof Hrep as (Hb & Hcov & Hp).
  apply wpf_bind_wp. eapply wp_get_prop; [exact Hp|exact Hlr|exact Cr|].
  apply wpf_bind_wp. eapply wp_get_prop; [exact Hp|exact Hlr|exact Cr|].
  fold (p_prop m (idAttribute t)). fold (p_prop m f).
  destruct (index_ready (field_opts t f) f (p_prop m f) ps) eqn:Eready.
  2:{ apply wpf_bind. apply wpf_fail.
      by eapply (deleteFromIndex_not_ready t tok tmp). }
  apply wpf_bind_wp.
  eapply deleteFromIndex_refines;
    [exact Hrep|by apply index_ready_spec|].
  intros ws1 h1 LOC1 H1 HL1.
  set (ps1 := p_deleteFromIndex (p_prop m (idAttribute t)) (field_opts t f) f
                (p_prop m f) ps) in *.
  assert (∀ r', ¬ index_role r' → LOC1 r' = LOC r') as HL1'.
  { intros r' Hr'. apply HL1; intros ->; by apply Hr'. }
  assert (uniq_ok t ps1) as Huniq1 by (by apply uniq_ok_deleteFromIndex).
  assert (p_keyed t ps1) as Hkeyed1.
  { eapply p_keyed_rows; [|exact Hkeyed]. apply p_deleteFromIndex_rows. }
  assert (tracks ls LOC1 tmp n) as Htracks1.
  { destruct Htracks as (Htr & Hobj & Hfree). split_and!; [|done|].
    - intros l0 Hl0. destruct (Htr l0 Hl0) as (r0 & Hr0 & Hlr0).
      exists r0. split; [done|]. rewrite HL1'; [done|].
      intros Hi. by destruct r0.
    - intros j Hj. rewrite HL1' by (by intros []). by apply Hfree. }
  assert (LOC1 r = Some l) as Hlr1.
  { rewrite HL1'; [done|]. intros Hi. by destruct r. }
  assert (content_of t ps1 tmp LOC1 r = BObj m) as Cr1.
  { destruct r; try (by destruct Hr); simpl in *.
    unfold p_row in *. unfold ps1. by rewrite p_deleteFromIndex_rows. }
  pose proof H1 as (Hb1 & Hcov1 & Hp1).
  (* what follows the merge: the result is at [rr] *)
  assert (∀ h2 LOC2 ps2 tmp2 n2 rr lres mr,
    repr_with t tok tmp2 h2 ws1 LOC2 ps2 → uniq_ok t ps2 → p_keyed t ps2 →
    tracks ls LOC2 tmp2 n2 → LOC2 rr = Some lres →
    content_of t ps2 tmp2 LOC2 rr = BObj mr →
    wpf (let* resultId := get_prop (VRef lres) (idAttribute t) in
         let* resultValue := get_prop (VRef lres) f in
         insertToIndex x ws1 resultId (field_opts t f) f resultValue) h2 Q)
    as Htail.
  { intros h2 LOC2 ps2 tmp2 n2 rr lres mr H2 Huniq2 Hkeyed2 Htracks2 Hrr Crr.
    pose proof H2 as (_ & _ & Hp2).
    apply wpf_bind_wp. eapply wp_get_prop; [exact Hp2|exact Hrr|exact Crr|].
    apply wpf_bind_wp. eapply wp_get_prop; [exact Hp2|exact Hrr|exact Crr|].
    apply wp_wpf. eapply insertToIndex_refines; [exact H2|].
    intros ws3 h3 LOC3 H3 HL3.
    assert (∀ r', ¬ index_role r' → LOC3 r' = LOC2 r') as HL3'.
    { intros r' Hr'. apply HL3; intros ->; by apply Hr'. }
    eapply HQ; [exact H3|by apply uniq_ok_insertToIndex| |].
    - eapply p_keyed_rows; [|exact Hkeyed2]. done.
    - destruct Htracks2 as (Htr & Hobj & Hfree). split_and!; [|done|].
      + intros l0 Hl0. destruct (Htr l0 Hl0) as (r0 & Hr0 & Hlr0).
        exists r0. split; [done|]. rewrite HL3'; [done|].
        intros Hi. by destruct r0.
      + intros j Hj. rewrite HL3' by (by intros []). by apply Hfree. }
  pose proof Htracks1 as (Htr1 & Hobj1 & Hfree1).
  apply wpf_bind_wp.
  eapply (wp_merge_cases x h1 LOC1 _ Hp1 r l Hlr1 mo m (RNew n));
    [by intros []|exact Cr1|..].
  - (* merged in place *)
    intros h2 Hp2. destruct r as [| | | | | | |k| |j]; try (by destruct Hr).
    + (* a row of the map *)
      assert (is_Some (p_rows ps1 !! k)) as Hk.
      { destruct Hcov1 as (_ & _ & _ & _ & _ & _ & _ & Hrow).
        apply Hrow. by eexists. }
      pose proof (repr_set_row t x tmp h2 LOC1 ps1 _ k (merged m mo)
                    Hcov1 Hk Hp2) as H2.
      rewrite Hb1 in H2.
      eapply (Htail h2 LOC1 _ tmp n (RRow k) l (merged m mo));
        [apply H2| | |exact Htracks1|exact Hlr1|].
      * by rewrite fupd_eq.
      * intros r' Hr'. by rewrite fupd_ne.
      * eapply uniq_ok_idx; [|exact Huniq1]. done.
      * apply p_keyed_set; [done|]. unfold p_prop.
        rewrite merged_other by done.
        destruct Hk as [row Hrow]. simpl in Cr1. unfold p_row in Cr1.
        rewrite Hrow in Cr1. simpl in Cr1. injection Cr1 as <-.
        by apply (Hkeyed1 k row).
      * simpl. unfold p_row. simpl. by rewrite lookup_insert_eq.
    + (* an object that was a row *)
      pose proof (repr_set_aux t tok tmp h1 ws1 LOC1 ps1 (RNew j)
                    (BObj (merged m mo)) h2 H1 I Hp2) as H2.
      eapply (Htail h2 LOC1 ps1 _ n (RNew j) l (merged m mo));
        [exact H2|done|done| |exact Hlr1|].
      * split_and!; [done| |done]. intros j'.
        destruct (decide (j' = j)) as [->|Hne].
        -- rewrite fupd_eq. by eexists.
        -- rewrite fupd_ne by congruence. apply Hobj1.
      * simpl. by rewrite fupd_eq.
  - (* no change *)
    by eapply (Htail h1 LOC1 ps1 tmp n r l m).
  - (* a copy *)
    intros l' h2 Hp2.
    assert (repr_with t tok (fupd (RNew n) (BObj (merged_cow m mo)) tmp) h2 ws1
              (fupd (RNew n) (Some l') LOC1) ps1) as H2.
    { apply (repr_with_aux t); [done|done|exact I|].
      eapply prepr_ext; [exact Hp2|done|]. intros r' _.
      destruct (decide (r' = RNew n)) as [->|Hne].
      - by rewrite !fupd_eq.
      - rewrite !fupd_ne by done.
        destruct r'; try done; simpl; by rewrite fupd_ne. }
    eapply (Htail h2 _ ps1 _ (S n) (RNew n) l' (merged_cow m mo));
      [exact H2|done|done| |by rewrite fupd_eq|].
    + split_and!.
      * intros l0 Hl0. destruct (Htr1 l0 Hl0) as (r0 & Hr0 & Hlr0).
        exists r0. split; [done|]. rewrite fupd_ne; [done|].
        intros ->. rewrite Hfree1 in Hlr0 by lia. done.
      * intros j'. destruct (decide (j' = n)) as [->|Hne].
        -- rewrite fupd_eq. by eexists.
        -- rewrite fupd_ne by congruence. apply Hobj1.
      * intros j' Hj'. rewrite fupd_ne by (intros [= ->]; lia).
        apply Hfree1. lia.
    + simpl. by rewrite fupd_eq.
Qed.

(** The second loop of [update] over the rows, for one field. *)
Lemma update_index_rows_any f (rows : list nat) h ws LOC ps tmp n
    (Q : val → heap → Prop) :
  repr_with t tok tmp h ws LOC ps → uniq_ok t ps → p_keyed t ps →
  tracks ls LOC tmp n → rows ⊆ ls →
  (∀ ws' h' LOC' ps' tmp' n',
     repr_with t tok tmp' h' ws' LOC' ps' → uniq_ok t ps' → p_keyed t ps' →
     tracks ls LOC' tmp' n' → Q ws' h') →
  wpf (foldM (λ workingState row,
                let* rowId := get_prop row (idAttribute t) in
                let* rowValue := get_prop row f in
                let* workingState :=
                  deleteFromIndex x workingState rowId (field_opts t f) f
                    rowValue in
                let* result :=
                  (if withMutations x then mutable_merge mo row
                   else batch_merge tok mo row) in
                let* resultId := get_prop result (idAttribute t) in
                let* resultValue := get_prop result f in
                insertToIndex x workingState resultId (field_opts t f) f
                  resultValue)
         ws (VRef <$> rows)) h Q.
Proof.
  revert h ws LOC ps tmp n.
  induction rows as [|l rows IH];
    intros h ws LOC ps tmp n Hrep Huniq Hkeyed Htracks Hsub HQ; simpl.
  - apply wpf_ret. by eapply HQ.
  - apply wpf_bind.
    eapply update_index_step; [done..| |].
    { apply Hsub. by left. }
    intros ws1 h1 LOC1 ps1 tmp1 n1 H1 Huniq1 Hkeyed1 Htracks1.
    eapply IH; [done..| |exact HQ].
    intros l0 Hl0. apply Hsub. by right.
Qed.

(** The second loop of [update]. *)
Lemma update_index_fields_any (fs : list string) (rows : list nat) h ws LOC ps
    tmp n (Q : val → heap → Prop) :
  repr_with t tok tmp h ws LOC ps → uniq_ok t ps → p_keyed t ps →
  tracks ls LOC tmp n → rows ⊆ ls →
  (∀ ws' h' LOC' ps' tmp' n',
     repr_with t tok tmp' h' ws' LOC' ps' → uniq_ok t ps' → p_keyed t ps' →
     tracks ls LOC' tmp' n' → Q ws' h') →
  wpf (foldM (λ workingState fieldName,
                let opts := field_opts t fieldName in
                foldM (λ workingState row,
                         let* rowId := get_prop row (idAttribute t) in
                         let* rowValue := get_prop row fieldName in
                         let* workingState :=
                           deleteFromIndex x workingState rowId opts fieldName
                             rowValue in
                         let* result :=
                           (if withMutations x then mutable_merge mo row
                            else batch_merge tok mo row) in
                         let* resultId := get_prop result (idAttribute t) in
                         let* resultValue := get_prop result fieldName in
                         insertToIndex x workingState resultId opts fieldName
                           resultValue)
                      workingState (VRef <$> rows))
         ws fs) h Q.
Proof.
  revert h ws LOC ps tmp n.
  induction fs as [|f fs IH];
    intros h ws LOC ps tmp n Hrep Huniq Hkeyed Htracks Hsub HQ; simpl.
  - apply wpf_ret. by eapply HQ.
  - apply wpf_bind.
    eapply update_index_rows_any; [done..|].
    intros ws1 h1 LOC1 ps1 tmp1 n1 H1 Huniq1 Hkeyed1 Htracks1.
    by eapply IH.
Qed.

(** [update] of rows that are objects of the branch: when it returns, the
    result is a branch again, its rows are under their keys and the
    buckets of the unique fields are as short as before. *)
Lemma update_tracked (rows : list nat) h branch LOC ps
    (Q : val → heap → Prop) :
  repr t h branch LOC ps → uniq_ok t ps → p_keyed t ps →
  rows ⊆ ls → (∀ l, l ∈ ls → ∃ k, LOC (RRow k) = Some l) →
  (∀ branch' h' LOC' ps',
     repr t h' branch' LOC' ps' → uniq_ok t ps' → p_keyed t ps' →
     Q branch' h') →
  wpf (update t x branch (VRef <$> rows) mo) h Q.
Proof.
  intros Hrep0 Huniq Hkeyed Hsub Hrows HQ.
  pose proof (repr_unclean t tok (λ _, BObj ∅) _ _ _ _ Hrep0) as Hrep.
  destruct Hrep0 as [_ Haux].
  pose proof Hrep as (Hb & Hcov & Hp).
  pose proof Hcov as (Hroot & _ & Hmap & _).
  destruct Hroot as [lb Hlb]. destruct Hmap as [lm Hlm].
  unfold ref_of in Hb. rewrite Hlb in Hb. subst branch.
  assert (ref_of LOC RMap = VRef lm) as Hrm by (unfold ref_of; by rewrite Hlm).
  assert (tracks ls LOC (λ _, BObj ∅) 0) as Htracks.
  { split_and!.
    - intros l Hl. destruct (Hrows l Hl) as [k Hk]. by exists (RRow k).
    - intros j. by eexists.
    - intros j _. by apply Haux. }
  unfold update.
  apply wpf_bind_wp. eapply wp_get_prop; [exact Hp|exact Hlb|reflexivity|].
  rewrite (root_lookup_map t Hok), Hrm. simpl.
  apply wpf_bind_wp.
  eapply (update_rows_any (root_props t LOC)); [| |exact Htracks|exact Hlm|exact Hsub|].
  { split; [done|]. eapply prepr_ext; [exact Hp|done|]. intros r _.
    destruct (decide (r = RRoot)) as [->|Hne]; [by rewrite fupd_eq|].
    by rewrite fupd_ne. }
  { done. }
  intros lm1 h1 LOC1 ps1 tmp1 n1 [Hcov1 Hp1] Hkeyed1 Htracks1 Hlm1
    (Eids & Emeta & Eidx & HL1).
  assert (LOC1 RRoot = Some lb) as Hlb1 by (by rewrite HL1 by (done || by intros [])).
  apply wpf_bind_wp.
  eapply (wp_batch_set _ _ _ _ Hp1 RRoot);
    [exact Hlb1|by intros []|by rewrite fupd_eq| |].
  { intros E. rewrite (root_lookup_map t Hok) in E |- *.
    apply strict_eq_true in E. by rewrite <- E. }
  intros lb' h2 Hp2.
  assert (repr_with t tok tmp1 h2 (VRef lb') (fupd RRoot (Some lb') LOC1) ps1)
    as Hrep2.
  { split_and!.
    - unfold ref_of. by rewrite fupd_eq.
    - destruct Hcov1 as (? & ? & ? & ? & ? & Hf & Hbk & Hrow).
      split_and!; try (by fupd_simpl);
        try (intros; rewrite fupd_ne by done; auto).
    - eapply prepr_ext; [exact Hp2|done|]. intros r _.
      rewrite (content_of_root t tmp1 ps1 LOC1) by (intros; by rewrite fupd_ne).
      destruct (decide (r = RRoot)) as [->|Hne].
      + rewrite !fupd_eq. simpl. f_equal. rewrite (root_set_map t Hok).
        apply (root_props_ext t).
        * rewrite fupd_ne by done. apply HL1; done || by intros [].
        * by rewrite fupd_eq.
        * rewrite fupd_ne by done. apply HL1; done || by intros [].
        * rewrite fupd_ne by done. apply HL1; done || by intros [].
      + by rewrite !fupd_ne. }
  eapply (update_index_fields_any _ rows h2 _ _ ps1 tmp1 n1);
    [exact Hrep2| |exact Hkeyed1| |exact Hsub|].
  - eapply uniq_ok_idx; [exact Eidx|exact Huniq].
  - destruct Htracks1 as (Htr & Hobj & Hfree). split_and!; [|done|].
    + intros l Hl. destruct (Htr l Hl) as (r0 & Hr0 & Hlr0).
      exists r0. split; [done|]. rewrite fupd_ne; [done|].
      intros ->. by destruct Hr0.
    + intros j Hj. rewrite fupd_ne by done. by apply Hfree.
  - intros ws' h' LOC' ps' tmp' n' H' Hu' Hk' _.
    apply (HQ ws' h' (forget_aux LOC') ps'); [|done|done].
    by eapply repr_forget.
Qed.

End Loops.

End AnyUpdate.

Import AnyUpdate.

Module AnyDelete.

Section Delete.

Variable t : Table.
Hypothesis Hok : table_ok t.
Variable x : tx.
Variable tmp : role → body.

Local Abbreviation tok := (batchToken x).

(** The loop of [delete] over the rows, for one field, when it returns. *)
Lemma delete_index_rows_any f LOC0 (ks : list string) ws h LOC ps
    (Q : val → heap → Prop) :
  repr_with t tok tmp h ws LOC ps → uniq_ok t ps →
  (∀ r, ¬ index_role r → LOC r = LOC0 r) →
  Forall (λ k, is_Some (p_rows ps !! k)) ks →
  (∀ ws' h' LOC' ps',
     repr_with t tok tmp h' ws' LOC' ps' → uniq_ok t ps' →
     p_rows ps' = p_rows ps → p_ids ps' = p_ids ps →
     (∀ r, ¬ index_role r → LOC' r = LOC0 r) →
     Q ws' h') →
  wpf (foldM (λ branch row,
                let* rowId := get_prop row (idAttribute t) in
                let* rowValue := get_prop row f in
                deleteFromIndex x branch rowId (field_opts t f) f rowValue)
         ws ((λ k, ref_of LOC0 (RRow k)) <$> ks)) h Q.
Proof.
  revert ws h LOC ps.
  induction ks as [|k ks IH]; intros ws h LOC ps Hrep Huniq HL Hks HQ; simpl.
  - apply wpf_ret. by apply (HQ ws h LOC ps).
  - apply Forall_cons in Hks as [Hk Hks].
    pose proof Hrep as (Hb & Hcov & Hp).
    destruct (proj2 (proj2 (proj2 (proj2 (proj2 (proj2 (proj2 Hcov)))))) k)
      as [_ Hrow].
    destruct (Hrow Hk) as [lr Hlr].
    assert (ref_of LOC0 (RRow k) = VRef lr) as ->.
    { unfold ref_of. rewrite <- HL by (by intros []). by rewrite Hlr. }
    apply wpf_bind. apply wpf_bind_wp.
    eapply wp_get_prop; [exact Hp|exact Hlr|reflexivity|].
    apply wpf_bind_wp.
    eapply wp_get_prop; [exact Hp|exact Hlr|reflexivity|].
    fold (p_prop (p_row ps k) (idAttribute t)). fold (p_prop (p_row ps k) f).
    destruct (index_ready (field_opts t f) f (p_prop (p_row ps k) f) ps)
      eqn:Eready.
    2:{ apply wpf_fail. by eapply (deleteFromIndex_not_ready t tok tmp). }
    apply wp_wpf.
    eapply deleteFromIndex_refines; [exact Hrep|by apply index_ready_spec|].
    intros ws1 h1 LOC1 H1 HL1.
    eapply (IH ws1 h1 LOC1); [exact H1| | | |].
    + by apply uniq_ok_deleteFromIndex.
    + intros r Hr. rewrite <- HL by done. apply HL1; intros ->; by apply Hr.
    + eapply Forall_impl; [exact Hks|]. intros k' Hk'. simpl.
      by rewrite p_deleteFromIndex_rows.
    + intros ws' h' LOC' ps' H' Hu' Er Ei HL'.
      apply (HQ ws' h' LOC' ps'); [done|done| | |done].
      * by rewrite Er, p_deleteFromIndex_rows.
      * by rewrite Ei, p_deleteFromIndex_ids.
Qed.

(** The loops of [delete] over the indexed fields and the rows. *)
Lemma delete_index_fields_any (fs : list string) LOC0 ks ws h LOC ps
    (Q : val → heap → Prop) :
  repr_with t tok tmp h ws LOC ps → uniq_ok t ps →
  (∀ r, ¬ index_role r → LOC r = LOC0 r) →
  Forall (λ k, is_Some (p_rows ps !! k)) ks →
  (∀ ws' h' LOC' ps',
     repr_with t tok tmp h' ws' LOC' ps' → uniq_ok t ps' →
     p_rows ps' = p_rows ps → p_ids ps' = p_ids ps →
     (∀ r, ¬ index_role r → LOC' r = LOC0 r) →
     Q ws' h') →
  wpf (foldM (λ branch fieldName,
                let opts := field_opts t fieldName in
                foldM (λ branch row,
                         let* rowId := get_prop row (idAttribute t) in
                         let* rowValue := get_prop row fieldName in
                         deleteFromIndex x branch rowId opts fieldName rowValue)
                      branch ((λ k, ref_of LOC0 (RRow k)) <$> ks))
         ws fs) h Q.
Proof.
  revert ws h LOC ps.
  induction fs as [|f fs IH]; intros ws h LOC ps Hrep Huniq HL Hks HQ; simpl.
  - apply wpf_ret. by apply (HQ ws h LOC ps).
  - apply wpf_bind.
    eapply delete_index_rows_any; [exact Hrep|exact Huniq|exact HL|exact Hks|].
    intros ws1 h1 LOC1 ps1 H1 Hu1 Er1 Ei1 HL1.
    eapply (IH ws1 h1 LOC1 ps1); [exact H1|exact Hu1|exact HL1| |].
    + by rewrite Er1.
    + intros ws' h' LOC' ps' H' Hu' Er Ei HL'.
      apply (HQ ws' h' LOC' ps'); [done|done| | |done]; congruence.
Qed.

End Delete.

Section Rows.

Variable t : Table.
Hypothesis Hok : table_ok t.
Variable x : tx.

(** [delete] of rows of the branch: when it returns, the result is a
    branch again, its rows are under their keys and the buckets of the
    unique fields are as short as before. *)
Lemma delete_rows_any ks h branch LOC ps (Q : val → heap → Prop) :
  repr t h branch LOC ps → uniq_ok t ps → p_keyed t ps →
  Forall (λ k, is_Some (p_rows ps !! k)) ks →
  (∀ branch' h' LOC' ps',
     repr t h' branch' LOC' ps' → uniq_ok t ps' → p_keyed t ps' →
     Q branch' h') →
  wpf (delete t x branch ((λ k, ref_of LOC (RRow k)) <$> ks)) h Q.
Proof.
  intros Hrep0 Huniq Hkeyed Hks HQ.
  pose proof (repr_unclean t (batchToken x) (λ _, BObj ∅) _ _ _ _ Hrep0)
    as Hrep.
  destruct Hrep0 as [_ Haux].
  pose proof Hrep as (Hb & Hcov & Hp).
  pose proof Hcov as (Hroot & Harr & _).
  destruct Hroot as [lb Hlb]. destruct Harr as [la Hla].
  unfold ref_of in Hb. rewrite Hlb in Hb. subst branch.
  unfold delete.
  apply wpf_bind_wp. eapply wp_get_prop; [exact Hp|exact Hlb|reflexivity|].
  assert (ref_of LOC RArr = VRef la) as Hra0 by (unfold ref_of; by rewrite Hla).
  rewrite (root_lookup_arr t Hok), Hra0. simpl.
  apply wpf_bind.
  eapply (delete_index_fields_any t x _ _ LOC);
    [exact Hrep|exact Huniq|done|exact Hks|].
  intros ws1 h1 LOC1 ps1 H1 Hu1 Er1 Ei1 HL1.
  apply wp_wpf.
  eapply (delete_final t Hok); [exact H1|exact HL1|exact Hla| |].
  { eapply Forall_impl; [exact Hks|]. intros k Hk. simpl. by rewrite Er1. }
  intros b' h' LOC' ids' _ H' HL'.
  eapply (HQ b' h' LOC').
  - eapply repr_clean; [exact H'|]. intros r Hr. rewrite HL' by done.
    by apply Haux.
  - eapply uniq_ok_idx; [|exact Hu1]. done.
  - intros k row. simpl. rewrite lookup_omitted. case_bool_decide; [done|].
    rewrite Er1. apply Hkeyed.
Qed.

End Rows.
End AnyDelete.

Import AnyDelete.

Module AnyRun.

Section Run.

Variable str_to_number : string → option Z.
Variable t : Table.
Hypothesis Hok : table_ok t.

Lemma update_undefined x b rows mo h :
  VUndef ∈ rows → update t x b rows mo h = None.
Proof.
  intros Hin. unfold update, bind.
  destruct (get_prop b (mapName t) h) as [[map h1]|]; [|done].
  rewrite (foldM_fail _ VUndef rows); [done| |done].
  intros a h'. unfold bind. by rewrite merge_undefined.
Qed.

Lemma delete_undefined x b rows h :
  VUndef ∈ rows → delete t x b rows h = None.
Proof.
  intros Hin. unfold delete, bind.
  destruct (get_prop b (arrName t) h) as [[arr h1]|]; [|done].
  destruct (foldM _ b (getIndexedFields t) h1) as [[b1 h2]|]; [|done].
  by rewrite (mapM_fail _ VUndef rows).
Qed.

(** The rows a client names are all there, or one of them reads as
    [undefined]. *)
Lemma rows_named ps LOC (ids : list val) :
  covers ps LOC →
  Forall (λ k, is_Some (p_rows ps !! k)) (to_key <$> ids) ∨
  VUndef ∈ (λ id, ref_of LOC (RRow (to_key id))) <$> ids.
Proof.
  intros (_ & _ & _ & _ & _ & _ & _ & Hrow).
  induction ids as [|id ids IH]; [left; constructor|].
  destruct IH as [IH|IH]; [|right; simpl; apply elem_of_cons; by right].
  destruct (p_rows ps !! to_key id) as [row|] eqn:E.
  - left. simpl. constructor; [by rewrite E|done].
  - right. simpl. apply elem_of_cons. left. unfold ref_of.
    destruct (LOC (RRow (to_key id))) eqn:EL; [|done].
    assert (is_Some (p_rows ps !! to_key id)) as [? ?]; [|congruence].
    apply Hrow. by eexists.
Qed.

Lemma rows_located ps LOC (ks : list string) :
  covers ps LOC → Forall (λ k, is_Some (p_rows ps !! k)) ks →
  (λ k, ref_of LOC (RRow k)) <$> ks
  = VRef <$> omap (λ k, LOC (RRow k)) ks ∧
  ∀ l, l ∈ omap (λ k, LOC (RRow k)) ks → ∃ k, LOC (RRow k) = Some l.
Proof.
  intros (_ & _ & _ & _ & _ & _ & _ & Hrow) Hks. split.
  - induction Hks as [|k ks Hk _ IH]; [done|]. simpl.
    apply Hrow in Hk as [l Hl]. unfold ref_of at 1. rewrite Hl. simpl.
    f_equal. exact IH.
  - intros l Hl. apply list_elem_of_omap in Hl as (k & _ & Hk). by exists k.
Qed.

Lemma plain_merge_keeps_id mo : plain_merge t mo = true → keeps_id t mo.
Proof.
  unfold plain_merge, keeps_id. rewrite forallb_forall, Forall_forall.
  intros H kv Hkv. apply list_elem_of_In in Hkv. specialize (H kv Hkv).
  apply andb_true_iff in H as [H _]. apply andb_true_iff in H as [H _].
  apply negb_true_iff in H. by apply String.eqb_neq in H.
Qed.

Lemma p_keyed_insert e ps :
  p_keyed t ps → e !! idAttribute t ≠ Some VUndef →
  p_keyed t (p_insert str_to_number t e ps).
Proof.
  intros Hk He k row. rewrite p_insert_rows.
  destruct (decide (k = to_key (p_insert_id str_to_number t e ps)))
    as [->|Hne].
  - rewrite lookup_insert_eq. intros [= <-]. f_equal.
    unfold p_created, p_prop. case_bool_decide as Hid.
    + destruct Hid as [v Hv]. rewrite Hv. simpl.
      unfold p_insert_id, idSequencer. rewrite Hv. simpl.
      by destruct v.
    + by rewrite lookup_insert_eq.
  - rewrite lookup_insert_ne by done. apply Hk.
Qed.

(** One operation of a client on a well-formed branch: when it returns,
    the result is a well-formed branch, its rows are under their keys and
    the buckets of the unique fields hold one identity at most. *)
Lemma run_op_any o b h LOC ps (Q : val → heap → Prop) :
  repr t h b LOC ps → uniq_ok t ps → p_keyed t ps → plain_op t o = true →
  (∀ b' h' LOC' ps',
     repr t h' b' LOC' ps' → uniq_ok t ps' → p_keyed t ps' → Q b' h') →
  wpf (run_op str_to_number t b o) h Q.
Proof.
  intros Hrep Huniq Hkeyed Hplain HQ.
  pose proof (repr_unclean t None (λ _, BObj ∅) _ _ _ _ Hrep) as Hw.
  destruct o as [x e|x ids mo|x ids]; simpl in Hplain.
  - apply wp_wpf. eapply (run_insert_refines str_to_number t Hok);
      [exact Hrep|].
    intros b' h' LOC' H'. eapply HQ; [exact H'| |].
    + by apply uniq_ok_insert.
    + apply p_keyed_insert; [done|].
      apply andb_true_iff in Hplain as [_ Hu]. apply negb_true_iff in Hu.
      by apply bool_decide_eq_false in Hu.
  - apply andb_true_iff in Hplain as [_ Hmo].
    apply plain_merge_keeps_id in Hmo.
    simpl. apply wpf_bind. intros rows h1.
    rewrite (accessId_all t Hok None (λ _, BObj ∅) h b LOC ps ids Hw).
    intros [= <- <-].
    destruct (rows_named ps LOC ids (proj1 (proj2 Hw))) as [Hks|Hun].
    2:{ apply wpf_fail. by apply update_undefined. }
    change ((λ id, ref_of LOC (RRow (to_key id))) <$> ids)
      with ((λ k, ref_of LOC (RRow k)) ∘ to_key <$> ids).
    rewrite list_fmap_compose.
    destruct (rows_located ps LOC (to_key <$> ids) (proj1 (proj2 Hw)) Hks)
      as [-> Hloc].
    eapply (update_tracked t Hok x mo Hmo
              (omap (λ k, LOC (RRow k)) (to_key <$> ids)));
      [exact Hrep|exact Huniq|exact Hkeyed|done|exact Hloc|exact HQ].
  - simpl. apply wpf_bind. intros rows h1.
    rewrite (accessId_all t Hok None (λ _, BObj ∅) h b LOC ps ids Hw).
    intros [= <- <-].
    destruct (rows_named ps LOC ids (proj1 (proj2 Hw))) as [Hks|Hun].
    2:{ apply wpf_fail. by apply delete_undefined. }
    change ((λ id, ref_of LOC (RRow (to_key id))) <$> ids)
      with ((λ k, ref_of LOC (RRow k)) ∘ to_key <$> ids).
    rewrite list_fmap_compose.
    eapply (delete_rows_any t Hok x); [exact Hrep|exact Huniq|exact Hkeyed| |exact HQ].
    done.
Qed.

(** A sequence of operations of a client. *)
Lemma run_ops_any ops b h LOC ps (Q : val → heap → Prop) :
  repr t h b LOC ps → uniq_ok t ps → p_keyed t ps →
  forallb (plain_op t) ops = true →
  (∀ b' h' LOC' ps',
     repr t h' b' LOC' ps' → uniq_ok t ps' → p_keyed t ps' → Q b' h') →
  wpf (foldM (run_op str_to_number t) b ops) h Q.
Proof.
  revert b h LOC ps.
  induction ops as [|o ops IH]; intros b h LOC ps Hrep Huniq Hkeyed Hplain HQ;
    simpl.
  - apply wpf_ret. by eapply HQ.
  - simpl in Hplain. apply andb_true_iff in Hplain as [Ho Hops].
    apply wpf_bind. eapply run_op_any; [done..|].
    intros b1 h1 LOC1 ps1 H1 Hu1 Hk1. by eapply IH.
Qed.

End Run.
End AnyRun.

Import AnyRun.

Module Claims.

Lemma table_ok_default fs : table_ok (DEFAULT_OPTS fs).
Proof. by repeat split. Qed.






(** C4 (the code falls short of it): the same two inserts and update leave
    the identity 0 in the bucket of the old value ["a"] when run with
    mutations, and take it out when run without. *)
Lemma update_differs_between_modes :
  fst <$> observe_f (retitle mutating) ∅
  = Some ([VNum 0], [VNum 1; VNum 0], VStr "b") ∧
  fst <$> observe_f (retitle copying) ∅
  = Some ([], [VNum 1; VNum 0], VStr "b").
Proof. split; vm_compute; reflexivity. Qed.

(** C6 (as stated, refuted): two rows with [null] in the unique field [u]
    are both in the bucket of [null]. *)
Lemma null_bucket_of_unique_field_holds_two :
  fst <$> observe_u
    [OpInsert copying (object [("u", VNull)]);
     OpInsert copying (object [("u", VNull)])] VNull ∅
  = Some [VNum 0; VNum 1].
Proof. vm_compute. reflexivity. Qed.

(** C6 (amended): from a well-formed branch whose rows are kept under the
    keys of their identities and whose buckets of unique fields, the bucket
    of the key ["null"] apart, hold one identity at most, after every
    sequence of inserts, updates and deletes that returns, with or without
    mutations and under any batch tokens, every bucket of a unique field
    other than the bucket of the key ["null"] holds one identity at most;
    and an insert whose value [v] for the field is not [null] returns and
    leaves the bucket of [v] with the identity of the new row alone,
    whatever it held. *)
Theorem unique_buckets_hold_one_identity
    (s2n : string → option Z) (t : Table) (f : string) (ops : list op)
    (b0 : val) (h0 : heap) (LOC0 : role → option nat) (ps0 : pstate) :
  table_ok t → usable t = true → isUnique (field_opts t f) = true →
  repr t h0 b0 LOC0 ps0 → tidy t ps0 → uniq_ok t ps0 →
  forallb (plain_op t) ops = true →
  (∀ b h, foldM (run_op s2n t) b0 ops h0 = Some (b, h) →
     ∀ v, to_key v ≠ "null" → inherited (to_key v) = false →
          ∃ l, getIdListByIndex b f v h = Some (l, h) ∧ (length l ≤ 1)%nat) ∧
  (∀ b h x e v, foldM (run_op s2n t) b0 ops h0 = Some (b, h) →
     plain_op t (OpInsert x e) = true → e !! f = Some v → v ≠ VNull →
     ∃ m b' h',
       getMaxId b h = Some (m, h) ∧
       run_op s2n t b (OpInsert x e) h = Some (b', h') ∧
       getIdListByIndex b' f v h'
       = Some ([(idSequencer s2n m
                   (default VUndef (e !! idAttribute t))).2], h')).
Proof.
  intros Hok _ Hf Hrep Htidy Huniq Hplain.
  assert (p_keyed t ps0) as Hkeyed.
  { destruct Htidy as (Hrows & _). intros k row Hk.
    by destruct (Hrows k row Hk). }
  assert (∀ b h, foldM (run_op s2n t) b0 ops h0 = Some (b, h) →
            ∃ LOC ps, repr t h b LOC ps ∧ uniq_ok t ps) as Hrun.
  { intros b h E.
    apply (run_ops_any s2n t Hok ops b0 h0 LOC0 ps0
             (λ b h, ∃ LOC ps, repr t h b LOC ps ∧ uniq_ok t ps)
             Hrep Huniq Hkeyed Hplain); [|exact E].
    intros b' h' LOC' ps' H' Hu' _. by exists LOC', ps'. }
  split.
  - intros b h E v Hv _. destruct (Hrun b h E) as (LOC & ps & [Hr _] & Hu).
    eexists. split.
    + by eapply getIdListByIndex_repr.
    + by apply Hu.
  - intros b h x e v E _ He Hv.
    destruct (Hrun b h E) as (LOC & ps & Hr & _).
    pose proof (repr_unclean t None (λ _, BObj ∅) _ _ _ _ Hr) as Hw.
    destruct (run_insert_refines s2n t Hok x e b h LOC ps
                (λ b' h', ∃ LOC', repr t h' b' LOC' (p_insert s2n t e ps)) Hr)
      as (b' & h' & Hins & LOC' & [Hr' _]).
    { intros b' h' LOC' H'. by exists LOC'. }
    exists (default VUndef (p_meta ps !! "maxId")), b', h'. split_and!.
    + by apply (getMaxId_repr t _ _ _ _ _ _ Hw).
    + exact Hins.
    + rewrite (getIdListByIndex_repr t _ _ _ _ _ _ Hr'). do 2 f_equal.
      apply unique_bucket_after_insert; [done|done|by destruct v].
Qed.

Lemma unique_buckets_hold_one_identity_witness :
  ∃ b h,
    run decimal_to_number shelf renumber ∅ = Some (b, h) ∧
    (∀ v, to_key v ≠ "null" → inherited (to_key v) = false →
          ∃ l, getIdListByIndex b "u" v h = Some (l, h) ∧
               (length l ≤ 1)%nat) ∧
    ∃ b' h',
      run_op decimal_to_number shelf b
        (OpInsert mutating (object [("u", VNum 1)])) h = Some (b', h') ∧
      getIdListByIndex b' "u" (VNum 1) h' = Some ([VNum 2], h').
Proof.
  destruct (run decimal_to_number shelf renumber ∅) as [[b h]|] eqn:Hrun.
  2:{ vm_compute in Hrun. discriminate Hrun. }
  exists b, h. split; [reflexivity|].
  assert (fst <$> (let* b := run decimal_to_number shelf renumber in
                   getMaxId b) ∅ = Some (VNum 1)) as Hmax.
  { vm_compute. reflexivity. }
  unfold bind in Hmax. rewrite Hrun in Hmax.
  unfold run in Hrun.
  destruct (getEmptyState_repr shelf ∅
              (λ b0 h0, ∃ LOC0, repr shelf h0 b0 LOC0 p_empty))
    as (b0 & h0 & E0 & LOC0 & Hrep0).
  { intros b0 h0 LOC0 H0. by exists LOC0. }
  rewrite (bind_eq _ _ _ _ _ E0) in Hrun.
  destruct (unique_buckets_hold_one_identity decimal_to_number shelf "u"
              renumber b0 h0 LOC0 p_empty (table_ok_default _) eq_refl eq_refl
              Hrep0
              (conj (map_Forall_empty _)
                 (conj (Forall_nil_2 _) (map_Forall_empty _)))
              (uniq_ok_empty shelf) eq_refl) as [H1 H2].
  split; [exact (H1 b h Hrun)|].
  destruct (H2 b h mutating (object [("u", VNum 1)]) (VNum 1) Hrun eq_refl
              eq_refl ltac:(discriminate)) as (m & b' & h' & Hm & Hins & Hb).
  rewrite Hm in Hmax. injection Hmax as ->.
  by exists b', h'.
Defined.



(** C7: called with [withMutations] false on a branch none of whose
    objects carries the batch token, [insert], [update] and [delete] leave
    the value of that branch as it was. *)
Theorem copying_leaves_the_branch_unchanged
    (s2n : string → option Z) (t : Table) (x : tx) (branch : val)
    (h : heap) :
  withMutations x = false →
  untagged (batchToken x) h 4 branch = true →
  (∀ entry r h', insert s2n t x branch entry h = Some (r, h') →
                 snapshot h' branch = snapshot h branch) ∧
  (∀ rows mergeObj r h', update t x branch rows mergeObj h = Some (r, h') →
                 snapshot h' branch = snapshot h branch) ∧
  (∀ rows r h', delete t x branch rows h = Some (r, h') →
                 snapshot h' branch = snapshot h branch).
Proof.
  intros Hcow Hu. split_and!.
  - intros entry r h' H. apply (deep_preserved (batchToken x)); [|done].
    by eapply (safe_insert (batchToken x) h s2n t x eq_refl Hcow branch entry h r h');
      [apply preserves_refl|].
  - intros rows mo r h' H. apply (deep_preserved (batchToken x)); [|done].
    by eapply (safe_update (batchToken x) h t x eq_refl Hcow branch rows mo h r h');
      [apply preserves_refl|].
  - intros rows r h' H. apply (deep_preserved (batchToken x)); [|done].
    by eapply (safe_delete (batchToken x) h t x eq_refl Hcow branch rows h r h');
      [apply preserves_refl|].
Qed.

Lemma copying_leaves_the_branch_unchanged_witness :
  ∃ b e h r h',
    stocked ∅ = Some ((b, e), h) ∧
    untagged (Some 1%nat) h 4 b = true ∧
    insert decimal_to_number shelf (Tx (Some 1%nat) false) b e h
    = Some (r, h') ∧
    snapshot h' b = snapshot h b.
Proof.
  assert (match stocked ∅ with
          | Some ((b, e), h) =>
              untagged (Some 1%nat) h 4 b &&
              bool_decide
                (is_Some (insert decimal_to_number shelf
                            (Tx (Some 1%nat) false) b e h))
          | None => false
          end = true) as Hrun.
  { vm_compute. reflexivity. }
  destruct (stocked ∅) as [[[b e] h]|]; [|discriminate Hrun].
  apply andb_true_iff in Hrun as [Hu Hins].
  apply bool_decide_eq_true in Hins as [[r h'] Hins].
  exists b, e, h, r, h'. split_and!; [reflexivity|exact Hu|exact Hins|].
  exact (proj1 (copying_leaves_the_branch_unchanged decimal_to_number shelf
                  (Tx (Some 1%nat) false) b h eq_refl Hu) e r h' Hins).
Defined.




(** C2 (the code falls short of it): with mutations, or without but under
    the batch token that made the rows, [update] merges the new value into
    the row before it removes the row from the index, so the identity 0
    stays in the bucket of the old value ["a"] while row 0 has the value
    ["b"]. *)
Lemma update_in_place_keeps_the_old_bucket :
  fst <$> observe_f (retitle (Tx (Some 7%nat) true)) ∅
  = Some ([VNum 0], [VNum 1; VNum 0], VStr "b") ∧
  fst <$> observe_f (retitle (Tx (Some 7%nat) false)) ∅
  = Some ([VNum 0], [VNum 1; VNum 0], VStr "b").
Proof. split; vm_compute; reflexivity. Qed.

(** C8 (as stated, refuted): registering a model twice makes the join
    model of its many-to-many field twice. *)
Lemma registering_twice_joins_twice :
  implicitThroughModels
    (register joinName fromName toName emptySchema [tagged; tagged])
  = [MkModel "Post_tags"
       [("fromPostId", ForeignKey "Post"); ("toTagId", ForeignKey "Tag")];
     MkModel "Post_tags"
       [("fromPostId", ForeignKey "Post"); ("toTagId", ForeignKey "Tag")]].
Proof. reflexivity. Qed.

(** C8 (amended): [register] appends the models to the registry and, for
    each registered model in turn and each of its many-to-many fields in
    turn, one join model to the implicit list: named by [m2mName] from the
    model and the field, with a foreign key to the model and a foreign key
    to the target (['this'] read as the model) under the two names
    [m2mFromFieldName] and [m2mToFieldName] give. *)
Theorem register_adds_a_join_model_per_field
    (m2mName : string → string → string)
    (m2mFromFieldName m2mToFieldName : string → string) :
  (∀ s models,
     register m2mName m2mFromFieldName m2mToFieldName s models
     = MkSchema (registry s ++ models)
         (implicitThroughModels s ++
          concat (throughModelsOf m2mName m2mFromFieldName m2mToFieldName
                    <$> models))) ∧
  (∀ model,
     Forall2 (λ f T,
                modelName T = m2mName (modelName model) f.1 ∧
                mfields T =
                  literal2 (m2mFromFieldName (modelName model))
                    (ForeignKey (modelName model))
                    (m2mToFieldName (resolveTarget (modelName model) f.2))
                    (ForeignKey (resolveTarget (modelName model) f.2)))
       (manyToManyFields model)
       (throughModelsOf m2mName m2mFromFieldName m2mToFieldName model)).
Proof.
  split.
  - intros s models. apply register_spec.
  - intros model. apply throughModelsOf_fields.
Qed.

(** C9: [get] returns the first model of the registry followed by the
    implicit list whose name is [name], and fails exactly when no model of
    either has that name. *)
Theorem get_finds_the_first_model_of_that_name (s : Schema) (name : string) :
  (∀ m, get s name = Found m →
        ∃ before after,
          registry s ++ implicitThroughModels s = before ++ m :: after ∧
          modelName m = name ∧
          Forall (λ m', modelName m' ≠ name) before) ∧
  ((∃ message, get s name = NotFound message) ↔
   ¬ ∃ m, m ∈ registry s ++ implicitThroughModels s ∧ modelName m = name) ∧
  (∀ message, get s name = NotFound message →
     message = "Did not find model " +:+ name +:+ " from registry.").
Proof.
  pose proof (get_spec s name) as [Hfound Hnot]. split_and!.
  - intros m Hm. by rewrite Hm in Hfound.
  - exact Hnot.
  - unfold get. destruct (List.find _ _); [done|]. by intros ? [= <-].
Qed.

End Claims.

Import Claims.
